(** * SeaHorn BMC pass and counterexample harness: a shallow embedding

    The development follows two source files of the repository:

    - [lib/seahorn/Harness.cc]: [exprToLlvm] and [createLLVMHarness];
    - [lib/seahorn/BmcPass.cc]: [BmcPass::runOnModule],
      [BmcPass::runOnFunction], [BmcPass::getAnalysisUsage], the constructor
      of the pass and [createBmcPass].

    LLVM values are modelled as far as the two files look at them: integers
    of a bit width as [Z] with the wrap-around written out, functions by the
    attributes read through a [Function*], the harness module as the lists of
    its functions and global variables in creation order.  Output streams,
    statistics and the calls made to the collaborators (symbolic execution,
    solver, BMC engine) are fields of an explicit [World]. *)

From Stdlib Require Import String Ascii.
From Stdlib Require Import ZArith NArith PArith List Bool Lia.
From Stdlib Require Import Permutation.
From Stdlib Require Import DecimalString.
From Stdlib Require DecimalPos.
Import ListNotations.

Local Open Scope string_scope.
Local Open Scope Z_scope.
Local Open Scope list_scope.

(* ===================================================================== *)
(** ** Streams, statistics and the call log *)
(* ===================================================================== *)

(** [llvm::raw_ostream*] handed to the pass for the SMT-LIB dump. *)
Definition raw_ostream := N.

Inductive tribool : Type := tb_true | tb_false | tb_indeterminate.

Inductive bmc_engine_t : Type := mono_bmc | path_bmc.

(** A cut point, with the address and the name of its basic block. *)
Record CutPoint : Type := mkCutPoint { cp_bb : N; cp_bb_name : string }.

(** Calls that leave the two files, in the order they are made. *)
Inductive Event : Type :=
| New_ExprFactory
| New_BvSmallSymExec
| New_EZ3
| New_BmcEngine
| New_PathBasedBmcEngine (with_crab : bool)
| Get_TLI
| Get_CrabLlvmPass
| Bmc_addCutPoint (cp : CutPoint)
| Bmc_encode
| Bmc_toSmtLib (os : raw_ostream)
| Bmc_solve
| Bmc_unsatCore
| Bmc_getTrace
| Stats_resume (name : string)
| Stats_stop (name : string)
| Stats_sset (key value : string).

Record World : Type := mkWorld {
  w_outs : string;          (* everything written to [outs ()] *)
  w_errs : string;          (* everything written to [errs ()] *)
  w_events : list Event     (* collaborator calls, oldest first *)
}.

Definition world0 : World := mkWorld "" "" [].

(** The line feed the sources write as a backslash followed by n. *)
Definition LF : string := String "010"%char EmptyString.

(** State and failure: [None] stands for a failed LLVM [cast<>] or a
    dereference the source does not guard. *)
Definition M (A : Type) : Type := World -> option (A * World).

Definition ret {A} (a : A) : M A := fun w => Some (a, w).

Definition bind {A B} (c : M A) (k : A -> M B) : M B :=
  fun w => match c w with
           | Some (a, w') => k a w'
           | None => None
           end.

Definition fail {A} : M A := fun _ => None.

Declare Scope monad_scope.
Delimit Scope monad_scope with monad.
Notation "x <- c ;; k" := (bind c (fun x => k))
  (at level 61, c at next level, right associativity) : monad_scope.
Notation "c ;;; k" := (bind c (fun _ => k))
  (at level 61, right associativity) : monad_scope.
Local Open Scope monad_scope.

(** The world after [s] went to [errs ()], after it went to [outs ()], and
    after the call [e] was made. *)
Definition with_errs (w : World) (s : string) : World :=
  mkWorld (w_outs w) (w_errs w ++ s) (w_events w).
Definition with_outs (w : World) (s : string) : World :=
  mkWorld (w_outs w ++ s) (w_errs w) (w_events w).
Definition with_event (w : World) (e : Event) : World :=
  mkWorld (w_outs w) (w_errs w) (w_events w ++ [e]).

Definition errs (s : string) : M unit := fun w => Some (tt, with_errs w s).
Definition outs (s : string) : M unit := fun w => Some (tt, with_outs w s).
Definition emit (e : Event) : M unit := fun w => Some (tt, with_event w e).

(** [for (x : xs) body]: a loop that threads a local value. *)
Fixpoint foldM {A B} (f : B -> A -> M B) (b : B) (xs : list A) : M B :=
  match xs with
  | [] => ret b
  | x :: xs' => b' <- f b x ;; foldM f b' xs'
  end.

(** [std::transform (..., back_inserter (out), f)]. *)
Fixpoint mapM {A B} (f : A -> M B) (xs : list A) : M (list B) :=
  match xs with
  | [] => ret []
  | x :: xs' => y <- f x ;; ys <- mapM f xs' ;; ret (y :: ys)
  end.

(* ===================================================================== *)
(** ** The part of LLVM the two files use *)
(* ===================================================================== *)

Inductive Ty : Type :=
| VoidTy
| FloatTy
| DoubleTy
| IntegerTy (bits : positive)
| PointerTy (pointee : Ty)
| ArrayTy (elt : Ty) (num : nat)
| StructTy (name : string).

Record FunctionType : Type := mkFunctionType {
  ft_ret : Ty;
  ft_params : list Ty;
  ft_vararg : bool
}.

(** [FunctionType::get (Type*, bool)], the overload that creates the type
    of a function without parameters.  The other overload takes three
    arguments, the result, the parameters and the flag, and neither has a
    default argument. *)
Definition FunctionType_get (Result : Ty) (isVarArg : bool) : FunctionType :=
  mkFunctionType Result [] isVarArg.

(** An array of C++ where a [bool] is expected: it decays to a pointer to
    its first element, which is not null. *)
Definition array_as_bool {A} (a : list A) : bool := true.

Inductive LinkageTypes : Type :=
| ExternalLinkage
| AvailableExternallyLinkage
| LinkOnceAnyLinkage
| LinkOnceODRLinkage
| WeakAnyLinkage
| WeakODRLinkage
| AppendingLinkage
| InternalLinkage
| PrivateLinkage
| ExternalWeakLinkage
| CommonLinkage.

(** What is read through a [Function*] of the analysed module.  [F_addr] is
    the address: two records are the same pointer when they are equal. *)
Record Function : Type := mkFunction {
  F_addr : N;
  F_name : string;              (* empty: [hasName ()] is false *)
  F_linkage : LinkageTypes;
  F_type : FunctionType;
  F_isDeclaration : bool        (* no body in the module *)
}.

Definition hasName (F : Function) : bool :=
  negb (String.eqb (F_name F) "").

Definition isExternalLinkage (l : LinkageTypes) : bool :=
  match l with ExternalLinkage => true | _ => false end.

Definition getReturnType (F : Function) : Ty := ft_ret (F_type F).

(** [dyn_cast<IntegerType>]: the bit width when the type is an integer. *)
Definition dyn_cast_IntegerType (t : Ty) : option positive :=
  match t with IntegerTy w => Some w | _ => None end.

(** [StringRef::find_first_of (c) == npos]. *)
Fixpoint has_char (c : ascii) (s : string) : bool :=
  match s with
  | EmptyString => false
  | String a s' => if Ascii.eqb a c then true else has_char c s'
  end.

Inductive Instruction : Type :=
| CallInst (id : N) (callee : option Function)   (* [None]: indirect call *)
| OtherInst (id : N).

Inductive TerminatorInst : Type :=
| ReturnInst
| BranchInst
| SwitchInst
| UnreachableInst
| OtherTerminator.

Record BasicBlock : Type := mkBasicBlock {
  bb_addr : N;
  bb_name : string;
  bb_insts : list Instruction;     (* the instructions before the terminator *)
  bb_term : TerminatorInst
}.

Definition isa_ReturnInst (t : TerminatorInst) : bool :=
  match t with ReturnInst => true | _ => false end.

(** *** Integer constants *)

Record ConstantInt : Type := mkConstantInt {
  CI_bits : positive;
  CI_value : Z                     (* unsigned, below [2 ^ CI_bits] *)
}.

Definition wrap (bits : positive) (z : Z) : Z := z mod 2 ^ Z.pos bits.

(** [ConstantInt::get (Type*, uint64_t)]. *)
Definition ConstantInt_get (bits : positive) (v : Z) : ConstantInt :=
  mkConstantInt bits (wrap bits v).

(** [ConstantInt::getTrue] and [getFalse] applied to a type: for a
    type that is not a vector they hand back the context's [i1] constants
    (LLVM asserts that the type is [i1]; the assertion is compiled out of a
    release build). *)
Definition ConstantInt_getTrue (ty : positive) : ConstantInt :=
  mkConstantInt 1 1.

Definition ConstantInt_getFalse (ty : positive) : ConstantInt :=
  mkConstantInt 1 0.

(** [APInt::getDigit] for radix 10: the digit, or [-1U] for another
    character. *)
Definition getDigit (c : ascii) : Z :=
  let r := Z.of_N (N_of_ascii c) - 48 in
  if (0 <=? r) && (r <=? 9) then r else 4294967295.

(** The digit loop of [APInt::fromString], radix 10, on [bits] bits: the
    value is multiplied by the radix and the digit is added, both on [bits]
    bits.  (For a string of one digit the source leaves the multiplication
    out; the value is zero at that point.) *)
Fixpoint fromString_digits (bits : positive) (s : string) (acc : Z) : Z :=
  match s with
  | EmptyString => acc
  | String c s' =>
      fromString_digits bits s' (wrap bits (wrap bits (acc * 10) + getDigit c))
  end.

(** [APInt::flipAllBits] on [bits] bits. *)
Definition flipAllBits (bits : positive) (v : Z) : Z := 2 ^ Z.pos bits - 1 - v.

(** [APInt (numbits, str, 10)]: an optional sign, the digits, and under a
    minus sign the two's complement (decrement, then flip every bit). *)
Definition APInt_fromString (bits : positive) (str : string) : Z :=
  match str with
  | String "-"%char p =>
      flipAllBits bits (wrap bits (fromString_digits bits p 0 - 1))
  | String "+"%char p => fromString_digits bits p 0
  | _ => fromString_digits bits str 0
  end.

(** [ConstantInt::get (IntegerType*, StringRef, 10)]. *)
Definition ConstantInt_get_str (bits : positive) (str : string) : ConstantInt :=
  mkConstantInt bits (APInt_fromString bits str).

(** [mpz_class::get_str ()]: decimal digits, a minus sign when negative. *)
Definition get_str (z : Z) : string := NilZero.string_of_int (Z.to_int z).

(** [Type::print] of an integer type. *)
Definition print_IntegerType (bits : positive) : string :=
  "i" ++ NilZero.string_of_uint (Pos.to_uint bits).

(** *** Logical values *)

(** An [Expr] as [exprToLlvm] looks at it: the operator at the root. *)
Inductive Expr : Type :=
| TRUE
| FALSE
| MPZ (z : Z)
| OtherExpr (printed : string).

Definition isOpX_TRUE (e : Expr) : bool :=
  match e with TRUE => true | _ => false end.
Definition isOpX_FALSE (e : Expr) : bool :=
  match e with FALSE => true | _ => false end.
Definition isOpX_MPZ (e : Expr) : bool :=
  match e with MPZ _ => true | _ => false end.
Definition getTerm_mpz (e : Expr) : Z :=
  match e with MPZ z => z | _ => 0 end.

(** [operator<< (raw_ostream&, const ENode&)]. *)
Definition print_Expr (e : Expr) : string :=
  match e with
  | TRUE => "true"
  | FALSE => "false"
  | MPZ z => get_str z
  | OtherExpr s => s
  end.

Definition ExprVector := list Expr.

(** *** Equality of the modelled LLVM objects *)

Definition Ty_eq_dec (a b : Ty) : {a = b} + {a <> b}.
Proof.
  decide equality; solve [apply Pos.eq_dec | apply Nat.eq_dec | apply string_dec].
Defined.

Definition FunctionType_eq_dec (a b : FunctionType) : {a = b} + {a <> b}.
Proof.
  decide equality; solve [apply Bool.bool_dec | apply (list_eq_dec Ty_eq_dec) | apply Ty_eq_dec].
Defined.

Definition LinkageTypes_eq_dec (a b : LinkageTypes) : {a = b} + {a <> b}.
Proof. decide equality. Defined.

(** Pointer equality of two [Function*]. *)
Definition Function_eq_dec (a b : Function) : {a = b} + {a <> b}.
Proof.
  decide equality;
    solve [apply Bool.bool_dec | apply FunctionType_eq_dec | apply LinkageTypes_eq_dec
          | apply string_dec | apply N.eq_dec].
Defined.

(** *** The counterexample trace, as Harness.cc reads it *)

Record BmcTrace : Type := mkBmcTrace {
  trace_size : nat;                                   (* [size ()] *)
  trace_bb : nat -> BasicBlock;                       (* [bb (loc)] *)
  trace_eval : nat -> Instruction -> option Expr      (* [eval (loc, I)], [None] when null *)
}.

(** *** The harness module *)

(** An array constant is kept by its type and its elements, as
    [getAggregateElement] reads them.  LLVM keeps such a constant as a
    [ConstantAggregateZero] (printed zeroinitializer), a [ConstantDataArray]
    or a [ConstantArray]; constants are unique and in canonical form, so
    which of the three it is follows from the type and the elements. *)
Inductive Constant : Type :=
| CInt (c : ConstantInt)
| ConstantArray (ty : Ty) (elts : list ConstantInt).

(** [Constant::isNullValue] of an integer constant. *)
Definition isNullValue (c : ConstantInt) : bool := CI_value c =? 0.

(** Integer constants are unique in their context: two pointers to them are
    equal when the widths and the values are. *)
Definition same_ConstantInt (a b : ConstantInt) : bool :=
  Pos.eqb (CI_bits a) (CI_bits b) && (CI_value a =? CI_value b).

(** [rangeOnlyContains] of Constants.cpp: every element is the pointer
    [Elt]. *)
Definition rangeOnlyContains (V : list ConstantInt) (Elt : ConstantInt) : bool :=
  forallb (fun c => same_ConstantInt c Elt) V.

(** [ConstantDataSequential::isElementTypeCompatible] on an integer type. *)
Definition isElementTypeCompatible (bits : positive) : bool :=
  match bits with
  | 8%positive | 16%positive | 32%positive | 64%positive => true
  | _ => false
  end.

(** [ConstantInt::getZExtValue]. *)
Definition getZExtValue (c : ConstantInt) : Z := CI_value c.

(** The elements of the zero initializer of an array of integers (the
    harness builds no other array). *)
Definition zero_elements (ty : Ty) : list ConstantInt :=
  match ty with
  | ArrayTy (IntegerTy bits) n => repeat (mkConstantInt bits 0) n
  | _ => []
  end.

(** [ConstantAggregateZero::get]. *)
Definition ConstantAggregateZero_get (ty : Ty) : Constant :=
  ConstantArray ty (zero_elements ty).

(** [ConstantDataArray::get (Context, Elts)] for elements of [bits] bits:
    the type is made from the elements, and data that is all zero becomes
    the zero initializer. *)
Definition ConstantDataArray_get (bits : positive) (Elts : list Z) : Constant :=
  let ty := ArrayTy (IntegerTy bits) (length Elts) in
  if forallb (fun v => v =? 0) Elts then ConstantAggregateZero_get ty
  else ConstantArray ty (map (mkConstantInt bits) Elts).

(** [ConstantArray::get (Ty, V)] on integer constants, without the
    assertion that the elements have the element type of [Ty].  No element
    gives the zero initializer, and so does a first element that is null
    when every element is that same constant.  Otherwise, when the type of
    the FIRST element is one a [ConstantDataArray] can hold, the elements
    are read as integers of that width ([Elts.push_back (CI->getZExtValue
    ())] on a vector of that width) and packed.  Otherwise the elements are
    kept as they are. *)
Definition ConstantArray_get (ty : Ty) (V : list ConstantInt) : Constant :=
  match V with
  | [] => ConstantAggregateZero_get ty
  | C :: _ =>
      if isNullValue C && rangeOnlyContains V C
      then ConstantAggregateZero_get ty
      else if isElementTypeCompatible (CI_bits C)
      then ConstantDataArray_get (CI_bits C)
             (map (fun c => wrap (CI_bits C) (getZExtValue c)) V)
      else ConstantArray ty V
  end.

Record GlobalVariable : Type := mkGlobalVariable {
  gv_type : Ty;
  gv_isConstant : bool;
  gv_linkage : LinkageTypes;
  gv_init : Constant
}.

(** Operands of the instructions of a stub. *)
Inductive Value : Type :=
| VConstantInt (c : ConstantInt)
| VGlobal (g : nat)      (* the address of global variable number [g] of the module *)
| VInst (i : nat).       (* the result of instruction number [i] of the block *)

Inductive HInst : Type :=
| Load (ptr : Value)
| Add (a b : Value)
| Store (v ptr : Value)
| Call (callee : nat) (args : list Value)   (* function number [callee] of the module *)
| Ret (v : Value).

(** A basic block of the harness (its label, "entry", is not modelled). *)
Definition HBlock := list HInst.

Record HFunction : Type := mkHFunction {
  hf_name : string;
  hf_type : FunctionType;
  hf_linkage : LinkageTypes;
  hf_blocks : list HBlock           (* empty: a declaration *)
}.

(** Functions and global variables in creation order; a function or a global
    variable is referred to by its position.  The global variables of the
    harness are created without a name, so only functions are in the symbol
    table; [m_LastUnique] is the symbol table's renaming counter. *)
Record Module : Type := mkModule {
  m_name : string;
  m_functions : list HFunction;
  m_globals : list GlobalVariable;
  m_LastUnique : N
}.

Definition name_taken (fs : list HFunction) (n : string) : bool :=
  existsb (fun f => String.eqb (hf_name f) n) fs.

Fixpoint find_index {A} (p : A -> bool) (l : list A) : option nat :=
  match l with
  | [] => None
  | x :: l' => if p x then Some O
               else match find_index p l' with
                    | Some i => Some (S i)
                    | None => None
                    end
  end.

(** [Module::getNamedValue]. *)
Definition getNamedValue (H : Module) (n : string) : option nat :=
  find_index (fun f => String.eqb (hf_name f) n) (m_functions H).

(** The renaming loop of [ValueSymbolTable::reinsertValue]: append the next
    number to the base name until the result is free.  Of [fuel + 1]
    candidates at most [fuel] can be taken when the table has [fuel]
    entries, so the last one is not tested. *)
Fixpoint unique_name (fuel : nat) (fs : list HFunction) (base : string)
  (last : N) : string * N :=
  let last' := N.succ last in
  let cand := (base ++ NilZero.string_of_uint (N.to_uint last'))%string in
  match fuel with
  | O => (cand, last')
  | S fuel' =>
      if name_taken fs cand then unique_name fuel' fs base last'
      else (cand, last')
  end.

(** [Function::Create (Ty, Linkage, Name, M)]: always a new function, renamed
    when the name is already in the module's symbol table. *)
Definition Function_Create (H : Module) (ty : FunctionType) (l : LinkageTypes)
  (n : string) : Module * nat :=
  let '(n', last') :=
    if name_taken (m_functions H) n
    then unique_name (length (m_functions H)) (m_functions H) n (m_LastUnique H)
    else (n, m_LastUnique H) in
  (mkModule (m_name H) (m_functions H ++ [mkHFunction n' ty l []])
            (m_globals H) last',
   length (m_functions H)).

(** What [Module::getOrInsertFunction] returns: the function, or a bitcast
    of a function of that name and another type. *)
Inductive FunctionOrCast : Type :=
| IsFunction (f : nat)
| BitCastOf (f : nat).

Definition getOrInsertFunction (H : Module) (n : string) (ty : FunctionType)
  : Module * FunctionOrCast :=
  match getNamedValue H n with
  | None =>
      let '(H', f) := Function_Create H ty ExternalLinkage n in
      (H', IsFunction f)
  | Some f =>
      match nth_error (m_functions H) f with
      | Some F => if FunctionType_eq_dec (hf_type F) ty
                  then (H, IsFunction f) else (H, BitCastOf f)
      | None => (H, BitCastOf f)
      end
  end.

(** [cast<Function>]. *)
Definition cast_Function (c : FunctionOrCast) : M nat :=
  match c with
  | IsFunction f => ret f
  | BitCastOf _ => fail
  end.

(** [new GlobalVariable (M, Ty, isConstant, Linkage, Initializer)]. *)
Definition new_GlobalVariable (H : Module) (ty : Ty) (isConstant : bool)
  (l : LinkageTypes) (init : Constant) : Module * Value :=
  (mkModule (m_name H) (m_functions H)
            (m_globals H ++ [mkGlobalVariable ty isConstant l init])
            (m_LastUnique H),
   VGlobal (length (m_globals H))).

(** The [IRBuilder] appends to the block and hands back the new value. *)
Definition CreateLoad (BB : HBlock) (ptr : Value) : HBlock * Value :=
  ((BB ++ [Load ptr])%list, VInst (length BB)).
Definition CreateAdd (BB : HBlock) (a b : Value) : HBlock * Value :=
  ((BB ++ [Add a b])%list, VInst (length BB)).
Definition CreateStore (BB : HBlock) (v ptr : Value) : HBlock :=
  (BB ++ [Store v ptr])%list.
Definition CreateCall (BB : HBlock) (callee : nat) (args : list Value)
  : HBlock * Value :=
  ((BB ++ [Call callee args])%list, VInst (length BB)).
Definition CreateRet (BB : HBlock) (v : Value) : HBlock :=
  (BB ++ [Ret v])%list.

Fixpoint update_nth {A} (n : nat) (g : A -> A) (l : list A) : list A :=
  match l, n with
  | [], _ => []
  | x :: l', O => g x :: l'
  | x :: l', S n' => x :: update_nth n' g l'
  end.

(** The finished block becomes the last block of function [HF]. *)
Definition push_back_block (H : Module) (HF : nat) (BB : HBlock) : Module :=
  mkModule (m_name H)
    (update_nth HF
       (fun F => mkHFunction (hf_name F) (hf_type F) (hf_linkage F)
                   (hf_blocks F ++ [BB]))
       (m_functions H))
    (m_globals H) (m_LastUnique H).

(** *** [ValueMap<Function*, ExprVector>] *)

Definition ValueMap := list (Function * ExprVector).

(** [FuncValueMap[CF].push_back (V)]; entries are kept in insertion order. *)
Fixpoint push_back_at (m : ValueMap) (CF : Function) (V : Expr) : ValueMap :=
  match m with
  | [] => [(CF, [V])]
  | (k, vs) :: m' =>
      if Function_eq_dec k CF then (k, vs ++ [V]) :: m'
      else (k, vs) :: push_back_at m' CF V
  end.

Definition lookup (m : ValueMap) (CF : Function) : option ExprVector :=
  match find (fun kv => if Function_eq_dec (fst kv) CF then true else false) m with
  | Some kv => Some (snd kv)
  | None => None
  end.

(** *** The analysed module, as BmcPass.cc reads it *)

Record IRFunction : Type := mkIRFunction {
  irf_decl : Function;
  irf_blocks : list BasicBlock       (* the entry block first *)
}.

Definition IRModule := list IRFunction.

Record CutPointGraph : Type := mkCutPointGraph {
  isCutPoint : BasicBlock -> bool;
  getCp : BasicBlock -> CutPoint;
  getEdge : CutPoint -> CutPoint -> bool      (* the edge pointer is not null *)
}.

Record BmcPass : Type := mkBmcPass {
  m_engine : bmc_engine_t;
  m_out : option raw_ostream;
  m_solve : bool
}.

(** [boost::tribool] in a condition, and its negation in a condition. *)
Definition tribool_true (t : tribool) : bool :=
  match t with tb_true => true | _ => false end.
Definition tribool_not_true (t : tribool) : bool :=
  match t with tb_false => true | _ => false end.

Section Seahorn.

(** [LOG (tag, code)] runs [code] when logging is switched on for [tag]. *)
Variable SeaLog : string -> bool.

Definition LOG (tag : string) (code : M unit) : M unit :=
  if SeaLog tag then code else ret tt.

(* ===================================================================== *)
(** ** Harness.cc *)
(* ===================================================================== *)

Definition exprToLlvm (ty : positive) (e : Expr) : M ConstantInt :=
  if isOpX_TRUE e then ret (ConstantInt_getTrue ty)
  else if isOpX_FALSE e then ret (ConstantInt_getFalse ty)
  else if isOpX_MPZ e then
    let mpz := getTerm_mpz e in
    ret (ConstantInt_get_str ty (get_str mpz))
  else
    LOG "cex" (errs ("WARNING: Not handled value: " ++ print_Expr e ++ LF)) ;;;
    ret (ConstantInt_get ty 0).

(** The map iterates its buckets in index order, and the bucket of a key
    follows from the hash of its address: the model takes the position of a
    key in that order as given and visits the entries by it. *)
Variable bucket : Function -> N.

Fixpoint insert_by_bucket (kv : Function * ExprVector) (m : ValueMap) : ValueMap :=
  match m with
  | [] => [kv]
  | kv' :: m' =>
      if (bucket (fst kv) <=? bucket (fst kv'))%N then kv :: kv' :: m'
      else kv' :: insert_by_bucket kv m'
  end.

Definition bucket_order (m : ValueMap) : ValueMap :=
  fold_right insert_by_bucket [] m.

Section Harness.

Variable trace : BmcTrace.

(** The body of the inner loop (lines 45 to 60). *)
Definition record_call (loc : nat) (FuncValueMap : ValueMap) (I : Instruction)
  : ValueMap :=
  match I with
  | CallInst _ (Some CF) =>
      match trace_eval trace loc I with
      | None => FuncValueMap
      | Some V =>
          if hasName CF
             && negb (has_char "." (F_name CF))
             && isExternalLinkage (F_linkage CF)
          then push_back_at FuncValueMap CF V
          else FuncValueMap
      end
  | CallInst _ None => FuncValueMap
  | OtherInst _ => FuncValueMap
  end.

(** Look for calls in the trace (lines 40 to 62).  The terminator of a block
    is never a [CallInst], so the instructions before it are all the loop
    can record. *)
Definition scan_trace : ValueMap :=
  fold_left
    (fun FuncValueMap loc =>
       fold_left (record_call loc) (bb_insts (trace_bb trace loc)) FuncValueMap)
    (seq 0 (trace_size trace)) [].

End Harness.

(** The body of the second loop (lines 65 to 128): one entry of the map.
    The block [BB] is kept aside while the builder fills it and becomes a
    block of [HF] when it is complete; nothing reads the blocks of [HF] in
    between.  [ConstantArray::get] puts the constants into canonical form.
    [FunctionType::get (RT, ArgTypes)] is a call with two arguments, so it
    is the overload [get (Type*, bool)] with the array [ArgTypes] in the
    place of the flag. *)
Definition build_harness_function (Harness : Module) (CFV : Function * ExprVector)
  : M Module :=
  let CF := fst CFV in
  let values := snd CFV in
  let '(Harness, HFc) := getOrInsertFunction Harness (F_name CF) (F_type CF) in
  HF <- cast_Function HFc ;;
  match dyn_cast_IntegerType (getReturnType CF) with
  | None =>
      errs ("Skipping non-integer function: " ++ F_name CF ++ LF) ;;;
      ret Harness
  | Some RT =>
      let AT := ArrayTy (IntegerTy RT) (length values) in
      LLVMarray <- mapM (exprToLlvm RT) values ;;
      let '(Harness, CA) :=
        new_GlobalVariable Harness AT true PrivateLinkage
          (ConstantArray_get AT LLVMarray) in
      let CAType := PointerTy AT in
      let BB : HBlock := [] in
      let CountType := IntegerTy 32 in
      let '(Harness, Counter) :=
        new_GlobalVariable Harness CountType false PrivateLinkage
          (CInt (ConstantInt_get 32 0)) in
      let '(BB, LoadCounter) := CreateLoad BB Counter in
      let Args :=
        [LoadCounter; CA;
         VConstantInt (ConstantInt_get 32 (Z.of_nat (length values)))] in
      let ArgTypes := [CountType; CAType; CountType] in
      let '(BB, Sum) :=
        CreateAdd BB LoadCounter (VConstantInt (ConstantInt_get 32 1)) in
      let BB := CreateStore BB Sum Counter in
      let RS := print_IntegerType RT in
      let '(Harness, GetValue) :=
        Function_Create Harness
          (FunctionType_get (IntegerTy RT) (array_as_bool ArgTypes))
          ExternalLinkage ("get_value_" ++ RS) in
      let '(BB, RetValue) := CreateCall BB GetValue Args in
      let BB := CreateRet BB RetValue in
      ret (push_back_block Harness HF BB)
  end.

Definition createLLVMHarness (trace : BmcTrace) : M Module :=
  let Harness := mkModule "harness" [] [] 0 in
  let FuncValueMap := scan_trace trace in
  foldM build_harness_function Harness (bucket_order FuncValueMap).

(* ===================================================================== *)
(** ** BmcPass.cc *)
(* ===================================================================== *)

(** The collaborators of the pass. *)
Variable getAnalysis_CutPointGraph : IRFunction -> CutPointGraph.
Variable HAVE_CRAB_LLVM : bool.
Variable solve_result : bmc_engine_t -> IRFunction -> tribool.
Variable unsatCore_result : IRFunction -> ExprVector.
Variable print_Function : IRFunction -> string.
Variable print_BmcTrace : IRFunction -> string.

(** [F.getEntryBlock ()]; a declaration has none. *)
Definition getEntryBlock (F : IRFunction) : M BasicBlock :=
  match irf_blocks F with
  | bb :: _ => ret bb
  | [] => fail
  end.

(** Lines 94 to 99: the first block that ends in a return and is a cut
    point. *)
Definition find_return (cpg : CutPointGraph) (F : IRFunction) : option CutPoint :=
  match find (fun bb => isa_ReturnInst (bb_term bb) && isCutPoint cpg bb)
             (irf_blocks F) with
  | Some bb => Some (getCp cpg bb)
  | None => None
  end.

Definition never_returns (F : IRFunction) : string :=
  "WARNING: BmcPass: function '" ++ F_name (irf_decl F) ++ "' never returns" ++ LF.

Definition new_engine (P : BmcPass) : M unit :=
  match m_engine P with
  | path_bmc =>
      emit Get_TLI ;;;
      if HAVE_CRAB_LLVM
      then emit Get_CrabLlvmPass ;;; emit (New_PathBasedBmcEngine true)
      else emit (New_PathBasedBmcEngine false)
  | mono_bmc => emit New_BmcEngine
  end.

Definition runOnFunction (P : BmcPass) (F : IRFunction) : M bool :=
  let cpg := getAnalysis_CutPointGraph F in
  entry <- getEntryBlock F ;;
  let src := getCp cpg entry in
  match find_return cpg F with
  | None => errs (never_returns F) ;;; ret false
  | Some dst =>
      if negb (getEdge cpg src dst) then errs (never_returns F) ;;; ret false
      else
        emit New_ExprFactory ;;;
        emit New_BvSmallSymExec ;;;
        emit New_EZ3 ;;;
        new_engine P ;;;
        emit (Bmc_addCutPoint src) ;;;
        emit (Bmc_addCutPoint dst) ;;;
        LOG "bmc" (errs ("BMC from: " ++ cp_bb_name src ++ " to "
                         ++ cp_bb_name dst ++ LF)) ;;;
        emit Bmc_encode ;;;
        match m_out P with
        | Some os => emit (Bmc_toSmtLib os)
        | None => ret tt
        end ;;;
        if negb (m_solve P) then
          LOG "bmc" (errs ("Stopping before solving" ++ LF)) ;;;
          ret false
        else
          emit (Stats_resume "BMC") ;;;
          emit Bmc_solve ;;;
          let res := solve_result (m_engine P) F in
          emit (Stats_stop "BMC") ;;;
          (if tribool_true res then outs "sat"
           else if tribool_not_true res then outs "unsat"
           else outs "unknown") ;;;
          outs LF ;;;
          (if tribool_true res then emit (Stats_sset "Result" "FALSE")
           else if tribool_not_true res then emit (Stats_sset "Result" "TRUE")
           else ret tt) ;;;
          LOG "bmc"
            (if tribool_not_true res then
               emit Bmc_unsatCore ;;;
               let core := unsatCore_result F in
               errs ("CORE BEGIN" ++ LF) ;;;
               foldM (fun _ c => errs (print_Expr c ++ LF)) tt core ;;;
               errs ("CORE END" ++ LF)
             else ret tt) ;;;
          LOG "cex"
            (if tribool_true res then
               errs ("Analyzed Function:" ++ LF ++ print_Function F ++ LF) ;;;
               emit Bmc_getTrace ;;;
               errs ("Trace " ++ LF) ;;;
               errs (print_BmcTrace F)
             else ret tt) ;;;
          ret false
  end.

Fixpoint runOnModule (P : BmcPass) (Mod : IRModule) : M bool :=
  match Mod with
  | [] => ret false
  | F :: rest =>
      if String.eqb (F_name (irf_decl F)) "main" then runOnFunction P F
      else runOnModule P rest
  end.

End Seahorn.

(* ===================================================================== *)
(** ** BmcPass.cc: what the pass declares and how it is made *)
(* ===================================================================== *)

(** The passes [getAnalysisUsage] names. *)
Inductive AnalysisID : Type :=
| CanFail_ID
| NameValues_ID
| TopologicalOrder_ID
| CutPointGraph_ID
| TargetLibraryInfoWrapperPass_ID
| LowerCstExprPass_ID
| CrabLlvmPass_ID.

(** [llvm::AnalysisUsage], as far as the pass fills it in: the required
    passes in the order they were added, and the flag set by
    [setPreservesAll]. *)
Record AnalysisUsage : Type := mkAnalysisUsage {
  Required : list AnalysisID;
  PreservesAll : bool
}.

(** A new [AnalysisUsage] requires nothing and preserves nothing. *)
Definition new_AnalysisUsage : AnalysisUsage := mkAnalysisUsage [] false.

Definition setPreservesAll (AU : AnalysisUsage) : AnalysisUsage :=
  mkAnalysisUsage (Required AU) true.

(** [addRequired<PassClass> ()] pushes the identifier of the pass. *)
Definition addRequired (ID : AnalysisID) (AU : AnalysisUsage) : AnalysisUsage :=
  mkAnalysisUsage (Required AU ++ [ID]) (PreservesAll AU).

(** [BmcPass::getAnalysisUsage] (lines 71 to 84); the last two passes are
    required only when the sources are compiled with [HAVE_CRAB_LLVM]. *)
Definition getAnalysisUsage (HAVE_CRAB_LLVM : bool) (AU : AnalysisUsage)
  : AnalysisUsage :=
  let AU := setPreservesAll AU in
  let AU := addRequired CanFail_ID AU in
  let AU := addRequired NameValues_ID AU in
  let AU := addRequired TopologicalOrder_ID AU in
  let AU := addRequired CutPointGraph_ID AU in
  let AU := addRequired TargetLibraryInfoWrapperPass_ID AU in
  if HAVE_CRAB_LLVM
  then
    let AU := addRequired LowerCstExprPass_ID AU in
    addRequired CrabLlvmPass_ID AU
  else AU.

(** The constructor of [BmcPass] with every argument left out (line 61):
    this is the pass [RegisterPass<BmcPass>] makes for "bmc-pass". *)
Definition BmcPass_default : BmcPass := mkBmcPass mono_bmc None true.

(** [seahorn::createBmcPass] (lines 192 to 193); a null [out] is [None]. *)
Definition createBmcPass (engine : bmc_engine_t) (out : option raw_ostream)
  (solve : bool) : BmcPass :=
  mkBmcPass engine out solve.

(* ===================================================================== *)
(** ** Running a stub of the harness *)
(* ===================================================================== *)

(** Values at run time: an integer, or the address of a global variable. *)
Inductive RVal : Type :=
| RInt (c : ConstantInt)
| RPtr (g : nat)
| RNone.

(** The store: the current contents of the module's global variables. *)
Definition Memory := nat -> option Constant.

Definition initial_memory (H : Module) : Memory :=
  fun g => option_map gv_init (nth_error (m_globals H) g).

Definition store (mem : Memory) (g : nat) (c : Constant) : Memory :=
  fun g' => if Nat.eqb g' g then Some c else mem g'.

(** A call that left the stub: the callee and the arguments it received. *)
Definition CallRecord : Type := nat * list RVal.

Record Machine : Type := mkMachine {
  mach_mem : Memory;
  mach_calls : list CallRecord        (* oldest first *)
}.

(** The callee of a stub is supplied from outside the module: its result is
    taken from an oracle that sees the earlier calls, the callee, the
    arguments and the store. *)
Definition Oracle := list CallRecord -> nat -> list RVal -> Memory -> RVal.

Definition eval_value (regs : list RVal) (v : Value) : option RVal :=
  match v with
  | VConstantInt c => Some (RInt c)
  | VGlobal g => Some (RPtr g)
  | VInst i => nth_error regs i
  end.

Fixpoint eval_values (regs : list RVal) (vs : list Value) : option (list RVal) :=
  match vs with
  | [] => Some []
  | v :: vs' =>
      match eval_value regs v, eval_values regs vs' with
      | Some r, Some rs => Some (r :: rs)
      | _, _ => None
      end
  end.

(** One run through a block; [regs] holds the results of the instructions
    executed so far.  [None]: the block is stuck. *)
Fixpoint exec_block (get_value : Oracle) (insts : list HInst) (regs : list RVal)
  (st : Machine) : option (RVal * Machine) :=
  match insts with
  | [] => None
  | Load p :: rest =>
      match eval_value regs p with
      | Some (RPtr g) =>
          match mach_mem st g with
          | Some (CInt c) => exec_block get_value rest (regs ++ [RInt c]) st
          | _ => None
          end
      | _ => None
      end
  | Add a b :: rest =>
      match eval_value regs a, eval_value regs b with
      | Some (RInt x), Some (RInt y) =>
          if Pos.eqb (CI_bits x) (CI_bits y) then
            exec_block get_value rest
              (regs ++ [RInt (ConstantInt_get (CI_bits x) (CI_value x + CI_value y))])
              st
          else None
      | _, _ => None
      end
  | Store v p :: rest =>
      match eval_value regs v, eval_value regs p with
      | Some (RInt c), Some (RPtr g) =>
          exec_block get_value rest (regs ++ [RNone])
            (mkMachine (store (mach_mem st) g (CInt c)) (mach_calls st))
      | _, _ => None
      end
  | Call f args :: rest =>
      match eval_values regs args with
      | Some vs =>
          let r := get_value (mach_calls st) f vs (mach_mem st) in
          exec_block get_value rest (regs ++ [r])
            (mkMachine (mach_mem st) (mach_calls st ++ [(f, vs)]))
      | None => None
      end
  | Ret v :: _ =>
      match eval_value regs v with
      | Some r => Some (r, st)
      | None => None
      end
  end.

(** One invocation of a block, and [n] invocations in a row (the results of
    all but the last are dropped). *)
Definition invoke (get_value : Oracle) (BB : HBlock) (st : Machine)
  : option (RVal * Machine) :=
  exec_block get_value BB [] st.

Definition invoke_again (get_value : Oracle) (BB : HBlock)
  (st : option Machine) : option Machine :=
  match st with
  | Some st' => option_map snd (invoke get_value BB st')
  | None => None
  end.

Definition invoke_times (get_value : Oracle) (BB : HBlock) (n : N)
  (st : Machine) : option Machine :=
  N.iter n (invoke_again get_value BB) (Some st).

(** A history of invocations: each entry is a block and the number of times
    it is invoked in a row. *)
Fixpoint invoke_runs (get_value : Oracle) (runs : list (HBlock * N))
  (st : Machine) : option Machine :=
  match runs with
  | [] => Some st
  | (BB, n) :: rest =>
      match invoke_times get_value BB n st with
      | Some st' => invoke_runs get_value rest st'
      | None => None
      end
  end.

(** The block starts by loading global variable number [c]. *)
Definition uses_counter (c : nat) (BB : HBlock) : bool :=
  match BB with
  | Load (VGlobal c') :: _ => Nat.eqb c' c
  | _ => false
  end.

(** The number of invocations in a history that use counter [c]. *)
Fixpoint invocations (c : nat) (runs : list (HBlock * N)) : N :=
  match runs with
  | [] => 0%N
  | (BB, n) :: rest =>
      if uses_counter c BB then (n + invocations c rest)%N
      else invocations c rest
  end.

(* ===================================================================== *)
(** ** Sample inputs *)
(* ===================================================================== *)

Module Sample.

Definition i32 : Ty := IntegerTy 32.
Definition returns (t : Ty) : FunctionType := mkFunctionType t [] false.

(** Callees: three external declarations, one of them not an integer
    function; an external function with a body; an internal function. *)
Definition f : Function := mkFunction 100 "f" ExternalLinkage (returns i32) true.
Definition g : Function := mkFunction 200 "g" ExternalLinkage (returns i32) true.
Definition h : Function := mkFunction 300 "h" ExternalLinkage (returns DoubleTy) true.
Definition defined : Function :=
  mkFunction 400 "defined" ExternalLinkage (returns i32) false.
Definition helper : Function :=
  mkFunction 500 "helper" InternalLinkage (returns i32) false.

Definition by_address (F : Function) : N := F_addr F.
Definition log_all (tag : string) : bool := true.
Definition log_none (tag : string) : bool := false.

(** A trace of one block that calls [callee] once, with value [v]. *)
Definition one_call (callee : Function) (v : option Expr) : BmcTrace :=
  mkBmcTrace 1
    (fun _ => mkBasicBlock 10 "entry" [CallInst 1 (Some callee)] ReturnInst)
    (fun _ _ => v).

(** Two blocks.  The first calls [f] (value 42), [g] (true), something else,
    [f] again (-1), an indirect callee, [helper] and [f] with no value; the
    second calls [f] once more, with a value that is not handled. *)
Definition block0 : BasicBlock :=
  mkBasicBlock 10 "entry"
    [CallInst 1 (Some f); CallInst 2 (Some g); OtherInst 3; CallInst 4 (Some f);
     CallInst 5 None; CallInst 6 (Some helper); CallInst 7 (Some f)]
    BranchInst.
Definition block1 : BasicBlock :=
  mkBasicBlock 20 "exit" [CallInst 8 (Some f)] ReturnInst.

Definition values (loc : nat) (I : Instruction) : option Expr :=
  match I with
  | CallInst 1 _ => Some (MPZ 42)
  | CallInst 2 _ => Some TRUE
  | CallInst 4 _ => Some (MPZ (-1))
  | CallInst 5 _ => Some (MPZ 5)
  | CallInst 6 _ => Some (MPZ 6)
  | CallInst 8 _ => Some (OtherExpr "x")
  | _ => None
  end.

Definition trace : BmcTrace :=
  mkBmcTrace 2 (fun loc => match loc with O => block0 | _ => block1 end) values.

(** The analysed module of the pass: [main] with an entry block and a
    returning block, and variants of it. *)
Definition main_decl : Function :=
  mkFunction 1 "main" ExternalLinkage (returns i32) false.
Definition main : IRFunction := mkIRFunction main_decl [block0; block1].
Definition spinning : IRFunction :=
  mkIRFunction main_decl [mkBasicBlock 10 "entry" [] BranchInst].
Definition other : IRFunction :=
  mkIRFunction (mkFunction 2 "init" InternalLinkage (returns VoidTy) false)
    [mkBasicBlock 30 "entry" [] ReturnInst].

Definition cut_point (bb : BasicBlock) : CutPoint :=
  mkCutPoint (bb_addr bb) (bb_name bb).
Definition connected : CutPointGraph :=
  mkCutPointGraph (fun _ => true) cut_point (fun _ _ => true).
Definition disconnected : CutPointGraph :=
  mkCutPointGraph (fun _ => true) cut_point (fun _ _ => false).

Definition pass : BmcPass := mkBmcPass mono_bmc None true.
Definition no_core (F : IRFunction) : ExprVector := [].
Definition no_text (F : IRFunction) : string := "".

End Sample.

(* ===================================================================== *)
(** ** Vocabulary of the statements *)
(* ===================================================================== *)

(** *** Decimal text *)

(** The digit loop without the wrap-around. *)
Fixpoint plain_digits (s : string) (acc : Z) : Z :=
  match s with
  | EmptyString => acc
  | String c s' => plain_digits s' (acc * 10 + getDigit c)
  end.

(** *** What [exprToLlvm] returns and writes *)

(** The constant [exprToLlvm] returns, and what it writes. *)
Definition converted (ty : positive) (e : Expr) : ConstantInt :=
  match e with
  | TRUE => mkConstantInt 1 1
  | FALSE => mkConstantInt 1 0
  | MPZ z => mkConstantInt ty (z mod 2 ^ Z.pos ty)
  | OtherExpr _ => mkConstantInt ty 0
  end.

(** The integer an observed value stands for: 1 and 0 for the booleans,
    the literal modulo two to the width, 0 for a value that is not
    handled. *)
Definition value_of (ty : positive) (e : Expr) : Z :=
  match e with
  | TRUE => 1
  | FALSE => 0
  | MPZ z => z mod 2 ^ Z.pos ty
  | OtherExpr _ => 0
  end.

(** That integer as a constant of the given width. *)
Definition widened (ty : positive) (e : Expr) : ConstantInt :=
  mkConstantInt ty (value_of ty e).

(** [ConstantArray::get] makes a zero initializer or a packed array of the
    constants [exprToLlvm] returned for these values. *)
Definition packs (ty : positive) (vs : ExprVector) : bool :=
  match map (converted ty) vs with
  | [] => false
  | C :: V =>
      (isNullValue C && rangeOnlyContains (C :: V) C)
      || isElementTypeCompatible (CI_bits C)
  end.

(** The elements of the array [ConstantArray::get] makes of them: of the
    width of the array when it packs them, and as [exprToLlvm] returned them
    when it does not. *)
Definition stored (ty : positive) (vs : ExprVector) : list ConstantInt :=
  if packs ty vs then map (widened ty) vs else map (converted ty) vs.

Definition not_handled (SeaLog : string -> bool) (e : Expr) : string :=
  match e with
  | OtherExpr s =>
      if SeaLog "cex" then ("WARNING: Not handled value: " ++ s ++ LF)%string
      else ""
  | _ => ""
  end.

(** *** Output of the pass *)

Definition concat_strings (l : list string) : string :=
  fold_right String.append "" l.

(** The statistics facts named "Result" among the calls made. *)
Definition result_facts (evs : list Event) : list (string * string) :=
  flat_map (fun e => match e with
                     | Stats_sset k v =>
                         if String.eqb k "Result" then [(k, v)] else []
                     | _ => []
                     end) evs.

(** The calls that construct the execution engine, the solver context or a
    BMC engine. *)
Definition constructs_engine (e : Event) : bool :=
  match e with
  | New_ExprFactory | New_BvSmallSymExec | New_EZ3
  | New_BmcEngine | New_PathBasedBmcEngine _ => true
  | _ => false
  end.

(** The part of the world the claims about the verdict speak of: the text on
    [outs ()], the "Result" facts and the calls to the solver. *)
Definition observed (w : World) : string * list (string * string) * list Event :=
  (w_outs w, result_facts (w_events w),
   filter (fun e => match e with Bmc_solve => true | _ => false end) (w_events w)).

(** The calls [runOnFunction] makes for a procedure it can analyse, in
    order. *)
Definition engine_events (HAVE_CRAB_LLVM : bool) (P : BmcPass) : list Event :=
  match m_engine P with
  | path_bmc =>
      if HAVE_CRAB_LLVM
      then [Get_TLI; Get_CrabLlvmPass; New_PathBasedBmcEngine true]
      else [Get_TLI; New_PathBasedBmcEngine false]
  | mono_bmc => [New_BmcEngine]
  end.

Definition solve_events (SeaLog : string -> bool) (res : tribool) : list Event :=
  [Stats_resume "BMC"; Bmc_solve; Stats_stop "BMC"]
  ++ match res with
     | tb_true => [Stats_sset "Result" "FALSE"]
     | tb_false => [Stats_sset "Result" "TRUE"]
     | tb_indeterminate => []
     end
  ++ (if SeaLog "bmc" && tribool_not_true res then [Bmc_unsatCore] else [])
  ++ (if SeaLog "cex" && tribool_true res then [Bmc_getTrace] else []).

Definition analysis_events (SeaLog : string -> bool) (HAVE_CRAB_LLVM : bool)
  (P : BmcPass) (src dst : CutPoint) (res : tribool) : list Event :=
  [New_ExprFactory; New_BvSmallSymExec; New_EZ3]
  ++ engine_events HAVE_CRAB_LLVM P
  ++ [Bmc_addCutPoint src; Bmc_addCutPoint dst; Bmc_encode]
  ++ match m_out P with Some os => [Bmc_toSmtLib os] | None => [] end
  ++ (if m_solve P then solve_events SeaLog res else []).

Definition is_engine (e : Event) : bool :=
  match e with
  | New_BmcEngine | New_PathBasedBmcEngine _ => true
  | _ => false
  end.

Definition is_addCutPoint (e : Event) : bool :=
  match e with Bmc_addCutPoint _ => true | _ => false end.

Definition is_solve (e : Event) : bool :=
  match e with Bmc_solve => true | _ => false end.

(** *** The pieces of a stub *)

(** The block the builder leaves in a stub: [counter] and [array] are the
    numbers of the two global variables, [provider] the number of the callee,
    [n] the number of recorded values. *)
Definition stub_block (counter array provider n : nat) : HBlock :=
  [Load (VGlobal counter);
   Add (VInst 0) (VConstantInt (ConstantInt_get 32 1));
   Store (VInst 1) (VGlobal counter);
   Call provider
     [VInst 0; VGlobal array; VConstantInt (ConstantInt_get 32 (Z.of_nat n))];
   Ret (VInst 3)].

Definition array_variable (RT : positive) (elts : list ConstantInt) : GlobalVariable :=
  mkGlobalVariable (ArrayTy (IntegerTy RT) (length elts)) true PrivateLinkage
    (ConstantArray (ArrayTy (IntegerTy RT) (length elts)) elts).

Definition counter_variable : GlobalVariable :=
  mkGlobalVariable (IntegerTy 32) false PrivateLinkage (CInt (ConstantInt_get 32 0)).

(** The type of the callee of a stub: variadic, without fixed parameters. *)
Definition provider_type (RT : positive) : FunctionType :=
  FunctionType_get (IntegerTy RT) true.

(** The module after the stub for an integer callee was added to [H1], in
    which [HF] is the callee's function. *)
Definition add_stub (H1 : Module) (HF : nat) (RT : positive)
  (elts : list ConstantInt) : Module :=
  let a := length (m_globals H1) in
  let H2 := mkModule (m_name H1) (m_functions H1)
              ((m_globals H1 ++ [array_variable RT elts]) ++ [counter_variable])
              (m_LastUnique H1) in
  let H3 := fst (Function_Create H2 (provider_type RT)
                   ExternalLinkage ("get_value_" ++ print_IntegerType RT)) in
  push_back_block H3 HF
    (stub_block (S a) a (length (m_functions H1)) (length elts)).

Definition add_block (B : HBlock) (F : HFunction) : HFunction :=
  mkHFunction (hf_name F) (hf_type F) (hf_linkage F) (hf_blocks F ++ [B]).

Definition skipping (CF : Function) : string :=
  "Skipping non-integer function: " ++ F_name CF ++ LF.

(** What one entry writes to [errs ()]. *)
Definition entry_diag (SeaLog : string -> bool) (CFV : Function * ExprVector) : string :=
  match dyn_cast_IntegerType (getReturnType (fst CFV)) with
  | None => skipping (fst CFV)
  | Some _ => concat_strings (map (not_handled SeaLog) (snd CFV))
  end.

(** *** The map built from the trace *)

(** The filter of lines 55 to 57. *)
Definition original_function (CF : Function) : bool :=
  hasName CF && negb (has_char "." (F_name CF)) && isExternalLinkage (F_linkage CF).

(** The value a call site contributes to callee [F]: the value of the call
    at that step when the site calls [F] and the value can be evaluated. *)
Definition call_value (trace : BmcTrace) (F : Function) (loc : nat)
  (I : Instruction) : list Expr :=
  match I with
  | CallInst _ (Some CF) =>
      if Function_eq_dec CF F then
        match trace_eval trace loc I with
        | Some V => [V]
        | None => []
        end
      else []
  | _ => []
  end.

(** The evaluable values of the call sites of [F] in trace order: step by
    step, and within a step in instruction order. *)
Definition observations (trace : BmcTrace) (F : Function) : list Expr :=
  flat_map
    (fun loc => flat_map (call_value trace F loc) (bb_insts (trace_bb trace loc)))
    (seq 0 (trace_size trace)).

(** The number of call sites of [F] on the trace whose value can be
    evaluated. *)
Definition evaluable_call (trace : BmcTrace) (F : Function) (loc : nat)
  (I : Instruction) : bool :=
  match I with
  | CallInst _ (Some CF) =>
      if Function_eq_dec CF F then
        match trace_eval trace loc I with Some _ => true | None => false end
      else false
  | _ => false
  end.

Definition evaluable_calls (trace : BmcTrace) (F : Function) : nat :=
  list_sum
    (map (fun loc => length (filter (evaluable_call trace F loc)
                               (bb_insts (trace_bb trace loc))))
         (seq 0 (trace_size trace))).

Definition values_of (m : ValueMap) (F : Function) : ExprVector :=
  match lookup m F with
  | Some vs => vs
  | None => []
  end.

(** The entries of a map built by [push_back_at]: keys that pass the filter,
    each once, none with an empty vector. *)
Definition well_formed_map (m : ValueMap) : Prop :=
  NoDup (map fst m) /\
  Forall (fun kv => original_function (fst kv) = true /\ snd kv <> []) m.

(** The callees that get an entry in the map. *)
Definition recorded (trace : BmcTrace) (F : Function) : Prop :=
  original_function F = true /\ observations trace F <> [].

(** In a module no two functions share a name, and the harness generator
    owns the names that start with "get_value_". *)
Definition distinct_names (trace : BmcTrace) : Prop :=
  forall F G, recorded trace F -> recorded trace G -> F_name F = F_name G -> F = G.

Definition no_provider_name (trace : BmcTrace) : Prop :=
  forall F, recorded trace F -> prefix "get_value_" (F_name F) = false.

(** *** The module while it grows *)

Definition same_header (f f' : HFunction) : Prop :=
  hf_name f' = hf_name f /\ hf_type f' = hf_type f /\ hf_linkage f' = hf_linkage f.

(** [H'] has everything [H] has, at the same positions. *)
Definition extends (H H' : Module) : Prop :=
  (exists gs, m_globals H' = m_globals H ++ gs) /\
  (forall i f, nth_error (m_functions H) i = Some f ->
     exists f', nth_error (m_functions H') i = Some f' /\ same_header f f' /\
                exists bs, hf_blocks f' = hf_blocks f ++ bs).

(** Block [B] of function [f] is the stub built for the entry
    [(CF, values)] of the map, [CF] returning an integer of [RT] bits. *)
Definition stub_for (H : Module) (CF : Function) (values : ExprVector)
  (RT : positive) (f : HFunction) (B : HBlock) : Prop :=
  hf_name f = F_name CF /\
  exists c a p pf suffix,
    B = stub_block c a p (length values) /\
    nth_error (m_globals H) a = Some (array_variable RT (stored RT values)) /\
    nth_error (m_globals H) c = Some counter_variable /\
    nth_error (m_functions H) p = Some pf /\
    hf_type pf = provider_type RT /\
    hf_linkage pf = ExternalLinkage /\
    hf_name pf = ("get_value_" ++ print_IntegerType RT ++ suffix)%string.

(** Every block of the module is the stub of a processed entry that returns
    an integer, and every such entry has its stub. *)
Definition blocks_known (H : Module) (done : ValueMap) : Prop :=
  forall f B, In f (m_functions H) -> In B (hf_blocks f) ->
    exists CF vs RT, In (CF, vs) done /\
      dyn_cast_IntegerType (getReturnType CF) = Some RT /\
      stub_for H CF vs RT f B.

Definition stubs_present (H : Module) (done : ValueMap) : Prop :=
  forall CF vs RT, In (CF, vs) done ->
    dyn_cast_IntegerType (getReturnType CF) = Some RT ->
    exists f B, In f (m_functions H) /\ In B (hf_blocks f) /\
                stub_for H CF vs RT f B.

(** Global variable number [i] is the array or the counter of a stub. *)
Definition owned (H : Module) (i : nat) : Prop :=
  exists f B c a p n,
    In f (m_functions H) /\ In B (hf_blocks f) /\
    B = stub_block c a p n /\ (i = a \/ i = c).

Definition declared (H : Module) (done : ValueMap) : Prop :=
  forall CF vs, In (CF, vs) done ->
    exists f, In f (m_functions H) /\ hf_name f = F_name CF /\ hf_type f = F_type CF.

Definition globals_owned (H : Module) : Prop :=
  forall i g, nth_error (m_globals H) i = Some g -> owned H i.

(** Every function of the module bears the name of a processed entry or a
    name that starts with "get_value_". *)
Definition names_known (H : Module) (done : ValueMap) : Prop :=
  forall f, In f (m_functions H) ->
    (exists CF vs, In (CF, vs) done /\ hf_name f = F_name CF)
    \/ prefix "get_value_" (hf_name f) = true.

(** [B] is a block of a function of [H]. *)
Definition is_block (H : Module) (B : HBlock) : Prop :=
  exists f, In f (m_functions H) /\ In B (hf_blocks f).


(** [c] is the counter of a stub of [H]. *)
Definition is_counter (H : Module) (c : nat) : Prop :=
  exists a p n, is_block H (stub_block c a p n).

Module StubSample.

(** A provider that always answers 0. *)
Definition zero : Oracle := fun _ _ _ _ => RInt (mkConstantInt 32 0).

(** The harness of a trace with one call to [f], of value 7. *)
Definition stub : HFunction :=
  mkHFunction "f" (Sample.returns Sample.i32) ExternalLinkage [stub_block 1 0 1 1].

Definition harness : Module :=
  mkModule "harness"
    [stub; mkHFunction "get_value_i32" (provider_type 32) ExternalLinkage []]
    [array_variable 32 [mkConstantInt 32 7]; counter_variable] 0.

End StubSample.

(* ===================================================================== *)
(** ** Vocabulary of the statements about the pass as a whole *)
(* ===================================================================== *)

(** The pass a call of [getAnalysis] in [runOnFunction] asks for (the
    cut-point graph is asked for on every run, before anything else). *)
Definition requested_analysis (e : Event) : option AnalysisID :=
  match e with
  | Get_TLI => Some TargetLibraryInfoWrapperPass_ID
  | Get_CrabLlvmPass => Some CrabLlvmPass_ID
  | _ => None
  end.

(** The calls around the solver: the timer and the solver itself. *)
Definition is_timed (e : Event) : bool :=
  match e with
  | Stats_resume _ | Stats_stop _ | Bmc_solve => true
  | _ => false
  end.

Definition is_toSmtLib (e : Event) : bool :=
  match e with Bmc_toSmtLib _ => true | _ => false end.

(** The condition of line 95. *)
Definition returning_cut_point (cpg : CutPointGraph) (bb : BasicBlock) : bool :=
  isa_ReturnInst (bb_term bb) && isCutPoint cpg bb.

(** The condition of line 67. *)
Definition is_main (F : IRFunction) : bool :=
  String.eqb (F_name (irf_decl F)) "main".

(** What an analysable run writes to [errs ()]: all of it is logging. *)
Definition analysis_log (SeaLog : string -> bool) (P : BmcPass)
  (src dst : CutPoint) (res : tribool) (core : ExprVector)
  (function_text trace_text : string) : string :=
  ((if SeaLog "bmc"
    then "BMC from: " ++ cp_bb_name src ++ " to " ++ cp_bb_name dst ++ LF
    else "")
   ++
   (if m_solve P then
      (if SeaLog "bmc" && tribool_not_true res
       then "CORE BEGIN" ++ LF
            ++ concat_strings (map (fun c => print_Expr c ++ LF) core)
            ++ "CORE END" ++ LF
       else "")
      ++
      (if SeaLog "cex" && tribool_true res
       then "Analyzed Function:" ++ LF ++ function_text ++ LF
            ++ "Trace " ++ LF ++ trace_text
       else "")
    else
      if SeaLog "bmc" then "Stopping before solving" ++ LF else ""))%string.

(* ===================================================================== *)
(** ** Vocabulary of the statements about the harness as a whole *)
(* ===================================================================== *)

(** The declaration [getOrInsertFunction] inserts for a callee, and the
    declaration of a provider; [suffix] is what the symbol table appended
    to the name. *)
Definition declaration_of (CF : Function) : HFunction :=
  mkHFunction (F_name CF) (F_type CF) ExternalLinkage [].

Definition provider_declaration (RT : positive) (suffix : string) : HFunction :=
  mkHFunction ("get_value_" ++ print_IntegerType RT ++ suffix) (provider_type RT)
    ExternalLinkage [].

(** The functions and the global variables the second loop lays down for
    the entries it has visited, in that order: for a callee that does not
    return an integer, a declaration; for one that does, its stub, the
    declaration of a provider, an array of as many elements as there are
    values, and the counter. *)
Inductive laid_out : ValueMap -> list HFunction -> list GlobalVariable -> Prop :=
| laid_out_nil : laid_out [] [] []
| laid_out_skipped es fs gs CF vs :
    laid_out es fs gs ->
    dyn_cast_IntegerType (getReturnType CF) = None ->
    laid_out (es ++ [(CF, vs)]) (fs ++ [declaration_of CF]) gs
| laid_out_stub es fs gs CF vs RT suffix elts :
    laid_out es fs gs ->
    dyn_cast_IntegerType (getReturnType CF) = Some RT ->
    length elts = length vs ->
    laid_out (es ++ [(CF, vs)])
      (fs ++ [add_block (stub_block (S (length gs)) (length gs) (S (length fs))
                           (length vs))
                (declaration_of CF);
              provider_declaration RT suffix])
      (gs ++ [array_variable RT elts; counter_variable]).

(** The entry is for a callee that returns an integer. *)
Definition returns_integer (kv : Function * ExprVector) : bool :=
  match dyn_cast_IntegerType (getReturnType (fst kv)) with
  | Some _ => true
  | None => false
  end.

Definition has_body (f : HFunction) : bool :=
  match hf_blocks f with [] => false | _ => true end.

(** The values [exprToLlvm] converts without a diagnostic, and the
    booleans among them. *)
Definition handled (e : Expr) : bool :=
  match e with OtherExpr _ => false | _ => true end.

Definition is_boolean (e : Expr) : bool :=
  match e with TRUE | FALSE => true | _ => false end.


(** The number of invocations in a history. *)
Definition total_invocations (runs : list (HBlock * N)) : N :=
  fold_right (fun r acc => (snd r + acc)%N) 0%N runs.


Module Cases.

(** A [main] that is declared and has no body. *)
Definition bodyless_main : IRFunction := mkIRFunction Sample.main_decl [].

(** A [main] with two returning blocks, and a cut-point graph in which only
    the second of them can be reached from the entry. *)
Definition early : BasicBlock := mkBasicBlock 20 "early" [] ReturnInst.
Definition late : BasicBlock := mkBasicBlock 30 "late" [] ReturnInst.
Definition two_returns : IRFunction :=
  mkIRFunction Sample.main_decl [Sample.block0; early; late].
Definition only_late : CutPointGraph :=
  mkCutPointGraph (fun _ => true) Sample.cut_point
    (fun _ dst => N.eqb (cp_bb dst) 30).

(** A trace without steps. *)
Definition empty_trace : BmcTrace :=
  mkBmcTrace 0 (fun _ => Sample.block0) (fun _ _ => None).

(** An external function of the analysed program that bears the name of a
    provider and takes no arguments. *)
Definition clashing : Function :=
  mkFunction 600 "get_value_i32" ExternalLinkage (Sample.returns Sample.i32) true.


End Cases.

(* ===================================================================== *)
(** ** The decimal text of an integer, parsed on a given width *)
(* ===================================================================== *)

Lemma wrap_range bits z : 0 <= wrap bits z < 2 ^ Z.pos bits.
Proof. unfold wrap. apply Z.mod_pos_bound. apply Z.pow_pos_nonneg; lia. Qed.

Lemma wrap_wrap bits z : wrap bits (wrap bits z) = wrap bits z.
Proof. unfold wrap. apply Z.mod_mod. apply Z.pow_nonzero; lia. Qed.

Lemma wrap_small bits z : 0 <= z < 2 ^ Z.pos bits -> wrap bits z = z.
Proof. intros H. unfold wrap. apply Z.mod_small; exact H. Qed.

Lemma wrap_step bits a b d :
  wrap bits a = wrap bits b ->
  wrap bits (wrap bits (wrap bits (a * 10) + d)) = wrap bits (b * 10 + d).
Proof.
  unfold wrap; intros H.
  assert (Hn : 2 ^ Z.pos bits <> 0) by (apply Z.pow_nonzero; lia).
  rewrite Z.mod_mod by exact Hn.
  rewrite Z.add_mod_idemp_l by exact Hn.
  rewrite (Z.add_mod (a * 10)), (Z.add_mod (b * 10)) by exact Hn.
  rewrite (Z.mul_mod a), (Z.mul_mod b) by exact Hn.
  rewrite H. reflexivity.
Qed.

Lemma fromString_digits_plain bits s : forall a b,
  wrap bits a = wrap bits b ->
  wrap bits (fromString_digits bits s a) = wrap bits (plain_digits s b).
Proof.
  induction s as [|c s IH]; intros a b H; simpl.
  - exact H.
  - apply IH. rewrite wrap_wrap.
    rewrite <- (wrap_wrap bits (wrap bits (a * 10) + getDigit c)).
    apply wrap_step. exact H.
Qed.

Lemma fromString_digits_wrapped bits s : forall a,
  wrap bits a = a -> wrap bits (fromString_digits bits s a) = fromString_digits bits s a.
Proof.
  induction s as [|c s IH]; intros a H; simpl.
  - exact H.
  - apply IH. apply wrap_wrap.
Qed.

Ltac eval_getDigit :=
  repeat match goal with
  | |- context [getDigit ?c] =>
      let v := eval vm_compute in (getDigit c) in change (getDigit c) with v
  end.

Lemma plain_digits_acc d : forall acc : positive,
  plain_digits (NilEmpty.string_of_uint d) (Z.pos acc) = Z.pos (Pos.of_uint_acc d acc).
Proof.
  induction d; intros acc;
    cbn [NilEmpty.string_of_uint plain_digits Pos.of_uint_acc];
    try reflexivity;
    rewrite <- IHd; f_equal; eval_getDigit; lia.
Qed.

Lemma plain_digits_of_uint d :
  plain_digits (NilEmpty.string_of_uint d) 0 = Z.of_N (Pos.of_uint d).
Proof.
  induction d;
    cbn [NilEmpty.string_of_uint plain_digits Pos.of_uint];
    try reflexivity; eval_getDigit; try exact IHd;
    cbn [Z.of_N]; rewrite <- plain_digits_acc; reflexivity.
Qed.

Lemma string_of_uint_pos p :
  NilZero.string_of_uint (Pos.to_uint p) = NilEmpty.string_of_uint (Pos.to_uint p).
Proof.
  unfold NilZero.string_of_uint.
  destruct (Pos.to_uint p) eqn:E; try reflexivity.
  exfalso. exact (DecimalPos.Unsigned.to_uint_nonnil p E).
Qed.

Lemma fromString_digits_pos bits p :
  fromString_digits bits (NilZero.string_of_uint (Pos.to_uint p)) 0 = wrap bits (Z.pos p).
Proof.
  rewrite string_of_uint_pos.
  rewrite <- fromString_digits_wrapped by (apply wrap_small; split; [lia|apply Z.pow_pos_nonneg; lia]).
  rewrite (fromString_digits_plain bits _ 0 0) by reflexivity.
  rewrite plain_digits_of_uint, DecimalPos.Unsigned.of_to. reflexivity.
Qed.

Lemma flip_decrement bits x :
  flipAllBits bits (wrap bits (x - 1)) = wrap bits (- x).
Proof.
  unfold flipAllBits, wrap.
  assert (Hm : 0 < 2 ^ Z.pos bits) by (apply Z.pow_pos_nonneg; lia).
  set (m := 2 ^ Z.pos bits) in *.
  pose proof (Z.mod_pos_bound (x - 1) m Hm) as Hr.
  pose proof (Z.div_mod (x - 1) m ltac:(lia)) as Hd.
  apply (Z.mod_unique_pos _ _ (- ((x - 1) / m) - 1)); [lia|].
  nia.
Qed.

Lemma digit_string_head d :
  match NilZero.string_of_uint d with
  | String c _ => c <> "-"%char /\ c <> "+"%char
  | EmptyString => False
  end.
Proof.
  unfold NilZero.string_of_uint.
  destruct d; simpl; split; discriminate.
Qed.

Lemma APInt_fromString_unsigned bits d :
  APInt_fromString bits (NilZero.string_of_uint d)
  = fromString_digits bits (NilZero.string_of_uint d) 0.
Proof.
  pose proof (digit_string_head d) as H.
  destruct (NilZero.string_of_uint d) as [|c s]; [contradiction|].
  destruct H as [H1 H2].
  unfold APInt_fromString.
  destruct c as [[] [] [] [] [] [] [] []]; try reflexivity; congruence.
Qed.

(** Parsing the decimal text of [z] on [bits] bits gives [z] modulo
    [2 ^ bits]. *)
Lemma APInt_fromString_get_str bits z :
  APInt_fromString bits (get_str z) = wrap bits z.
Proof.
  unfold get_str. destruct z as [|p|p]; simpl.
  - reflexivity.
  - change (APInt_fromString bits (NilZero.string_of_uint (Pos.to_uint p)) = wrap bits (Z.pos p)).
    rewrite APInt_fromString_unsigned. apply fromString_digits_pos.
  - change (flipAllBits bits (wrap bits
             (fromString_digits bits (NilZero.string_of_uint (Pos.to_uint p)) 0 - 1))
            = wrap bits (Z.neg p)).
    rewrite flip_decrement, fromString_digits_pos.
    unfold wrap.
    rewrite <- (Z.sub_0_l (Z.pos p mod 2 ^ Z.pos bits)).
    rewrite Zminus_mod_idemp_r. reflexivity.
Qed.

(* ===================================================================== *)
(** ** exprToLlvm *)
(* ===================================================================== *)

Lemma append_nil_r (s : string) : (s ++ "")%string = s.
Proof. induction s as [|c s IH]; simpl; [reflexivity | now rewrite IH]. Qed.

Lemma append_assoc (s t u : string) :
  ((s ++ t) ++ u)%string = (s ++ t ++ u)%string.
Proof. induction s as [|c s IH]; simpl; [reflexivity | now rewrite IH]. Qed.

Lemma with_errs_empty w : with_errs w "" = w.
Proof.
  destruct w as [o e ev]. unfold with_errs; simpl. now rewrite append_nil_r.
Qed.

Lemma with_errs_app w s t : with_errs (with_errs w s) t = with_errs w (s ++ t).
Proof.
  destruct w as [o e ev]. unfold with_errs; simpl. now rewrite append_assoc.
Qed.

Lemma exprToLlvm_eq SeaLog ty e w :
  exprToLlvm SeaLog ty e w
  = Some (converted ty e, with_errs w (not_handled SeaLog e)).
Proof.
  destruct e as [| |z|s]; unfold exprToLlvm, not_handled; simpl;
    rewrite ?with_errs_empty; try reflexivity.
  - unfold ret, ConstantInt_get_str. rewrite APInt_fromString_get_str. reflexivity.
  - unfold LOG, bind. destruct (SeaLog "cex"); simpl.
    + reflexivity.
    + unfold ret. rewrite with_errs_empty. reflexivity.
Qed.

(** C3, as amended: [exprToLlvm] returns on every input.  An integer
    literal becomes the constant of the callee's bit width read back from
    the literal's decimal text, that is its value modulo two to the width
    (so 42 stays 42 on six bits or more); a value that is neither a boolean
    nor an integer literal becomes 0 of the callee's width, and the line
    "WARNING: Not handled value: ..." is written for it only when logging is
    on for the tag "cex"; nothing else is written.  For a callee of one bit,
    boolean true and false become 1 and 0 of that width. *)
Theorem exprToLlvm_total_cases :
  forall (SeaLog : string -> bool) (ty : positive) (e : Expr) (w : World),
  exists c w',
    exprToLlvm SeaLog ty e w = Some (c, w') /\
    w_outs w' = w_outs w /\ w_events w' = w_events w /\
    match e with
    | TRUE => w' = w /\ (ty = 1%positive -> c = mkConstantInt ty 1)
    | FALSE => w' = w /\ (ty = 1%positive -> c = mkConstantInt ty 0)
    | MPZ z =>
        c = mkConstantInt ty (z mod 2 ^ Z.pos ty) /\ w' = w /\
        (z = 42 /\ (6 <= ty)%positive -> c = mkConstantInt ty 42)
    | OtherExpr s =>
        c = mkConstantInt ty 0 /\
        w_errs w' =
          (if SeaLog "cex"
           then (w_errs w ++ "WARNING: Not handled value: " ++ s ++ LF)%string
           else w_errs w)
    end.
Proof.
  intros SeaLog ty e w.
  exists (converted ty e), (with_errs w (not_handled SeaLog e)).
  split; [apply exprToLlvm_eq|]. split; [reflexivity|]. split; [reflexivity|].
  destruct e as [| |z|s]; cbn [converted not_handled]; rewrite ?with_errs_empty.
  - split; [reflexivity|]. intros ->. reflexivity.
  - split; [reflexivity|]. intros ->. reflexivity.
  - split; [reflexivity|]. split; [reflexivity|].
    intros [-> Hty]. f_equal. apply Z.mod_small. split; [lia|].
    apply Z.lt_le_trans with (2 ^ 6); [reflexivity|].
    apply Z.pow_le_mono_r; lia.
  - split; [reflexivity|]. destruct (SeaLog "cex"); simpl.
    + reflexivity.
    + now rewrite append_nil_r.
Qed.

(** The amended statement at a 32-bit callee, for the literal 42 and for a
    value that is not handled with logging on, and at a 1-bit callee for
    boolean true. *)
Lemma exprToLlvm_total_cases_witness :
  (exists c w',
     exprToLlvm (fun _ => true) 32 (MPZ 42) world0 = Some (c, w') /\
     c = mkConstantInt 32 42) /\
  (exists c w',
     exprToLlvm (fun _ => true) 32 (OtherExpr "x") world0 = Some (c, w') /\
     c = mkConstantInt 32 0 /\
     w_errs w' = ("WARNING: Not handled value: x" ++ LF)%string) /\
  (exists c w',
     exprToLlvm (fun _ => true) 1 TRUE world0 = Some (c, w') /\
     c = mkConstantInt 1 1).
Proof.
  split; [|split].
  - destruct (exprToLlvm_total_cases (fun _ => true) 32 (MPZ 42) world0)
      as (c & w' & E & _ & _ & _ & _ & H42).
    exists c, w'. split; [exact E|]. apply H42. split; [reflexivity | discriminate].
  - destruct (exprToLlvm_total_cases (fun _ => true) 32 (OtherExpr "x") world0)
      as (c & w' & E & _ & _ & Hc & Herr).
    exists c, w'. split; [exact E|]. split; [exact Hc | exact Herr].
  - destruct (exprToLlvm_total_cases (fun _ => true) 1 TRUE world0)
      as (c & w' & E & _ & _ & _ & Hc).
    exists c, w'. split; [exact E|]. apply Hc. reflexivity.
Defined.

(** C3 as stated fails twice.  With logging off for "cex", a value that is
    not handled is turned into 0 and no diagnostic is written; and for a
    32-bit callee boolean true becomes a constant of one bit, not of 32. *)
Lemma exprToLlvm_claim_fails :
  exprToLlvm (fun _ => false) 32 (OtherExpr "x") world0
    = Some (mkConstantInt 32 0, world0)
  /\ exprToLlvm (fun _ => true) 32 TRUE world0
    = Some (mkConstantInt 1 1, world0)
  /\ mkConstantInt 1 1 <> mkConstantInt 32 1.
Proof.
  split; [reflexivity|]. split; [reflexivity|]. discriminate.
Qed.

(** X3: an integer literal survives the trip through its decimal text:
    [ConstantInt::get (ty, mpz.get_str (), 10)] is the constant of the given
    width whose value is the literal modulo two to the width, for negative
    literals too (two's complement). *)
Theorem decimal_text_round_trip :
  forall (bits : positive) (z : Z),
    ConstantInt_get_str bits (get_str z) = mkConstantInt bits (z mod 2 ^ Z.pos bits).
Proof.
  intros bits z. unfold ConstantInt_get_str.
  rewrite APInt_fromString_get_str. reflexivity.
Qed.

(* ===================================================================== *)
(** ** BmcPass *)
(* ===================================================================== *)

Lemma foldM_errs {A} (f : A -> string) (l : list A) : forall w,
  foldM (fun _ c => errs (f c)) tt l w
  = Some (tt, with_errs w (concat_strings (map f l))).
Proof.
  induction l as [|x l IH]; intros w; simpl.
  - unfold ret. now rewrite with_errs_empty.
  - unfold bind, errs. rewrite IH, with_errs_app. reflexivity.
Qed.

Lemma result_facts_app a b :
  result_facts (a ++ b) = result_facts a ++ result_facts b.
Proof. unfold result_facts. apply flat_map_app. Qed.

Section BmcPassFacts.

Variable SeaLog : string -> bool.
Variable getAnalysis_CutPointGraph : IRFunction -> CutPointGraph.
Variable HAVE_CRAB_LLVM : bool.
Variable solve_result : bmc_engine_t -> IRFunction -> tribool.
Variable unsatCore_result : IRFunction -> ExprVector.
Variable print_Function : IRFunction -> string.
Variable print_BmcTrace : IRFunction -> string.

Let run := runOnFunction SeaLog getAnalysis_CutPointGraph HAVE_CRAB_LLVM
             solve_result unsatCore_result print_Function print_BmcTrace.
Let runModule := runOnModule SeaLog getAnalysis_CutPointGraph HAVE_CRAB_LLVM
             solve_result unsatCore_result print_Function print_BmcTrace.

Lemma find_return_none cpg F :
  Forall (fun bb => isa_ReturnInst (bb_term bb) && isCutPoint cpg bb = false)
         (irf_blocks F) ->
  find_return cpg F = None.
Proof.
  unfold find_return. intros H.
  induction H as [|bb l Hbb _ IH]; simpl; [reflexivity|].
  rewrite Hbb. exact IH.
Qed.

Lemma runOnFunction_skip (P : BmcPass) (F : IRFunction) (w : World) entry rest :
  irf_blocks F = entry :: rest ->
  let cpg := getAnalysis_CutPointGraph F in
  (find_return cpg F = None \/
   exists dst, find_return cpg F = Some dst /\
               getEdge cpg (getCp cpg entry) dst = false) ->
  run P F w = Some (false, with_errs w (never_returns F)).
Proof.
  intros HF cpg Hskip. unfold run, runOnFunction, getEntryBlock.
  rewrite HF. unfold bind at 1. cbn [ret]. fold cpg.
  destruct Hskip as [Hnone | (dst & Hdst & Hedge)].
  - rewrite Hnone. reflexivity.
  - rewrite Hdst, Hedge. reflexivity.
Qed.

(** One step of a computation in [M]. *)
Lemma bind_emit {B} (e : Event) (k : unit -> M B) w :
  bind (emit e) k w = k tt (with_event w e).
Proof. reflexivity. Qed.

Lemma bind_errs {B} (s : string) (k : unit -> M B) w :
  bind (errs s) k w = k tt (with_errs w s).
Proof. reflexivity. Qed.

Lemma bind_outs {B} (s : string) (k : unit -> M B) w :
  bind (outs s) k w = k tt (with_outs w s).
Proof. reflexivity. Qed.

Lemma bind_ret {A B} (a : A) (k : A -> M B) w : bind (ret a) k w = k a w.
Proof. reflexivity. Qed.

Lemma bind_assoc {A B C} (c : M A) (k : A -> M B) (k' : B -> M C) w :
  bind (bind c k) k' w = bind c (fun a => bind (k a) k') w.
Proof. unfold bind. destruct (c w) as [[a w']|]; reflexivity. Qed.

Lemma bind_foldM_errs {A B} (f : A -> string) (l : list A) (k : unit -> M B) w :
  bind (foldM (fun _ c => errs (f c)) tt l) k w
  = k tt (with_errs w (concat_strings (map f l))).
Proof. unfold bind. rewrite foldM_errs. reflexivity. Qed.

Lemma observed_errs w s : observed (with_errs w s) = observed w.
Proof. reflexivity. Qed.

Lemma observed_event w e :
  match e with Stats_sset _ _ | Bmc_solve => False | _ => True end ->
  observed (with_event w e) = observed w.
Proof.
  unfold observed, with_event; cbn [w_outs w_events].
  rewrite result_facts_app, filter_app.
  destruct e; try contradiction; intros _; cbn [result_facts flat_map filter app];
    repeat rewrite app_nil_r; reflexivity.
Qed.

Ltac step :=
  first [ rewrite bind_emit | rewrite bind_errs | rewrite bind_outs
        | rewrite bind_foldM_errs | rewrite bind_assoc | rewrite bind_ret ].

Ltac quiet :=
  repeat first [ rewrite observed_errs | rewrite observed_event by exact I ].

(** The two logging blocks at the end of [runOnFunction] leave that part
    alone. *)
Lemma log_tail (res : tribool) (F : IRFunction) (w : World) :
  exists w',
    (LOG SeaLog "bmc"
       (if tribool_not_true res then
          emit Bmc_unsatCore ;;;
          let core := unsatCore_result F in
          errs ("CORE BEGIN" ++ LF) ;;;
          foldM (fun _ c => errs (print_Expr c ++ LF)) tt core ;;;
          errs ("CORE END" ++ LF)
        else ret tt) ;;;
     LOG SeaLog "cex"
       (if tribool_true res then
          errs ("Analyzed Function:" ++ LF ++ print_Function F ++ LF) ;;;
          emit Bmc_getTrace ;;;
          errs ("Trace " ++ LF) ;;;
          errs (print_BmcTrace F)
        else ret tt) ;;;
     ret false) w = Some (false, w')
    /\ observed w' = observed w.
Proof.
  unfold LOG.
  destruct (SeaLog "bmc"), (SeaLog "cex"), res;
    cbn [tribool_true tribool_not_true]; cbv zeta;
    repeat step; (eexists; split; [reflexivity | quiet; reflexivity]).
Qed.

(** The calls up to the encoding. *)
Lemma new_engine_quiet {B} (P : BmcPass) (k : unit -> M B) w :
  exists w1, bind (new_engine HAVE_CRAB_LLVM P) k w = k tt w1
             /\ observed w1 = observed w.
Proof.
  unfold new_engine. destruct (m_engine P).
  - step. eexists; split; [reflexivity | quiet; reflexivity].
  - destruct HAVE_CRAB_LLVM; repeat step;
      (eexists; split; [reflexivity | quiet; reflexivity]).
Qed.

Lemma runOnFunction_analysable (P : BmcPass) (F : IRFunction) (w : World)
  entry rest dst :
  irf_blocks F = entry :: rest ->
  let cpg := getAnalysis_CutPointGraph F in
  find_return cpg F = Some dst ->
  getEdge cpg (getCp cpg entry) dst = true ->
  exists w',
    run P F w = Some (false, w') /\
    (m_solve P = false -> observed w' = observed w) /\
    (m_solve P = true ->
       w_outs w' =
         (w_outs w ++
          match solve_result (m_engine P) F with
          | tb_true => "sat"
          | tb_false => "unsat"
          | tb_indeterminate => "unknown"
          end ++ LF)%string /\
       result_facts (w_events w') =
         result_facts (w_events w) ++
         match solve_result (m_engine P) F with
         | tb_true => [("Result", "FALSE")]
         | tb_false => [("Result", "TRUE")]
         | tb_indeterminate => []
         end).
Proof.
  intros HF cpg Hdst Hedge. unfold run, runOnFunction, getEntryBlock.
  rewrite HF. rewrite bind_ret. fold cpg.
  rewrite Hdst, Hedge. cbn [negb].
  do 3 step.
  match goal with
  | |- context [bind (new_engine _ P) ?k ?w0] =>
      destruct (new_engine_quiet P k w0) as (w1 & -> & H1)
  end.
  do 2 step.
  assert (Hpre : exists w2 : World, observed w2 = observed w /\
            forall (k : unit -> M bool),
              bind (LOG SeaLog "bmc"
                      (errs ("BMC from: " ++ cp_bb_name (getCp cpg entry) ++ " to "
                             ++ cp_bb_name dst ++ LF)))
                   (fun _ => bind (emit Bmc_encode)
                      (fun _ => bind match m_out P with
                                     | Some os => emit (Bmc_toSmtLib os)
                                     | None => ret tt
                                     end k))
                   (with_event
                      (with_event w1 (Bmc_addCutPoint (getCp cpg entry)))
                      (Bmc_addCutPoint dst))
              = k tt w2).
  { unfold LOG. destruct (SeaLog "bmc"), (m_out P);
      (eexists; split; [| intros k; repeat step; reflexivity]);
      quiet; rewrite H1; quiet; reflexivity. }
  destruct Hpre as (w2 & H2 & Hk). rewrite Hk. clear Hk.
  destruct (m_solve P); cbn [negb].
  - do 3 step.
    set (res := solve_result (m_engine P) F).
    assert (Hverdict : forall (k : unit -> M bool) w0,
              bind (if tribool_true res then outs "sat"
                    else if tribool_not_true res then outs "unsat"
                    else outs "unknown") k w0
              = k tt (with_outs w0 match res with
                                   | tb_true => "sat"
                                   | tb_false => "unsat"
                                   | tb_indeterminate => "unknown"
                                   end)).
    { intros k w0. destruct res; reflexivity. }
    rewrite Hverdict. step.
    assert (Hfact : forall (k : unit -> M bool) w0,
              exists w3,
                bind (if tribool_true res then emit (Stats_sset "Result" "FALSE")
                      else if tribool_not_true res
                           then emit (Stats_sset "Result" "TRUE")
                           else ret tt) k w0 = k tt w3
                /\ w_outs w3 = w_outs w0
                /\ result_facts (w_events w3) =
                   result_facts (w_events w0) ++
                   match res with
                   | tb_true => [("Result", "FALSE")]
                   | tb_false => [("Result", "TRUE")]
                   | tb_indeterminate => []
                   end).
    { intros k w0. destruct res; cbn [tribool_true tribool_not_true];
        repeat step; eexists; (split; [reflexivity|]); (split; [reflexivity|]);
        unfold with_event; cbn [w_events]; rewrite ?result_facts_app, ?app_nil_r;
        reflexivity. }
    match goal with
    | |- context [bind _ ?k ?w0] => destruct (Hfact k w0) as (w3 & -> & Ho & Hr)
    end.
    destruct (log_tail res F w3) as (w' & Hrun & Hobs).
    exists w'. split; [exact Hrun|]. split; [discriminate|]. intros _.
    assert (Hw : w_outs w' = w_outs w3 /\
                 result_facts (w_events w') = result_facts (w_events w3)).
    { unfold observed in Hobs. inversion Hobs. split; reflexivity. }
    destruct Hw as [-> ->]. rewrite Ho, Hr.
    unfold with_outs, with_event; cbn [w_outs w_events].
    rewrite !result_facts_app; cbn [result_facts flat_map app].
    rewrite !app_nil_r.
    assert (Hw2 : w_outs w2 = w_outs w /\
                  result_facts (w_events w2) = result_facts (w_events w)).
    { unfold observed in H2. inversion H2. split; reflexivity. }
    destruct Hw2 as [-> ->]. rewrite append_assoc. split; reflexivity.
  - unfold LOG. destruct (SeaLog "bmc"); repeat step;
      (eexists; split; [reflexivity|]; split; [|discriminate]; intros _;
       quiet; exact H2).
Qed.

Lemma runOnFunction_events (P : BmcPass) (F : IRFunction) (w : World)
  entry rest dst :
  irf_blocks F = entry :: rest ->
  let cpg := getAnalysis_CutPointGraph F in
  find_return cpg F = Some dst ->
  getEdge cpg (getCp cpg entry) dst = true ->
  exists w',
    run P F w = Some (false, w') /\
    w_events w' =
      w_events w ++
      analysis_events SeaLog HAVE_CRAB_LLVM P (getCp cpg entry) dst
        (solve_result (m_engine P) F).
Proof.
  intros HF cpg Hdst Hedge. unfold run, runOnFunction, getEntryBlock.
  rewrite HF. rewrite bind_ret. fold cpg.
  rewrite Hdst, Hedge. cbn [negb].
  unfold analysis_events, engine_events, solve_events, new_engine, LOG.
  destruct P as [eng out slv]. cbn [m_engine m_out m_solve].
  set (res := solve_result eng F). clearbody res.
  destruct eng, HAVE_CRAB_LLVM, out as [os|], slv, (SeaLog "bmc"), (SeaLog "cex"), res;
    cbn [negb andb tribool_true tribool_not_true app]; cbv zeta;
    repeat step;
    (eexists; split; [reflexivity|]);
    cbn [w_events with_event with_errs with_outs];
    repeat rewrite <- app_assoc; reflexivity.
Qed.

Lemma runOnFunction_returns_false (P : BmcPass) (F : IRFunction) (w : World) :
  irf_blocks F <> [] -> exists w', run P F w = Some (false, w').
Proof.
  intros HF. destruct (irf_blocks F) as [|entry rest] eqn:E; [contradiction|].
  destruct (find_return (getAnalysis_CutPointGraph F) F) as [dst|] eqn:Hdst.
  - destruct (getEdge (getAnalysis_CutPointGraph F)
                (getCp (getAnalysis_CutPointGraph F) entry) dst) eqn:Hedge.
    + destruct (runOnFunction_analysable P F w entry rest dst E Hdst Hedge)
        as (w' & Hrun & _). eauto.
    + eexists. apply (runOnFunction_skip P F w entry rest E). right. eauto.
  - eexists. apply (runOnFunction_skip P F w entry rest E). left. exact Hdst.
Qed.

Lemma runOnModule_find (P : BmcPass) (Mod : IRModule) (w : World) :
  runModule P Mod w =
  match find (fun F => String.eqb (F_name (irf_decl F)) "main") Mod with
  | Some F => run P F w
  | None => Some (false, w)
  end.
Proof.
  induction Mod as [|F Mod IH]; simpl; [reflexivity|].
  unfold runModule in *. simpl.
  destruct (String.eqb (F_name (irf_decl F)) "main"); [reflexivity | exact IH].
Qed.

(** C5: a procedure with no returning block that is a cut point, or with no
    edge from the entry cut point to the cut point of its (first) returning
    block, is skipped: [runOnFunction] writes the warning that names the
    procedure to [errs ()], returns [false] normally, and makes no call to a
    collaborator, so neither the execution engine nor the solver context nor
    a BMC engine is constructed. *)
Theorem unanalysable_procedure_is_skipped :
  forall (P : BmcPass) (F : IRFunction) (w : World) entry rest,
  irf_blocks F = entry :: rest ->
  let cpg := getAnalysis_CutPointGraph F in
  (Forall (fun bb => isa_ReturnInst (bb_term bb) && isCutPoint cpg bb = false)
          (irf_blocks F)
   \/ exists dst, find_return cpg F = Some dst /\
                  getEdge cpg (getCp cpg entry) dst = false) ->
  exists w',
    run P F w = Some (false, w') /\
    w_errs w' = (w_errs w ++ "WARNING: BmcPass: function '"
                 ++ F_name (irf_decl F) ++ "' never returns" ++ LF)%string /\
    w_outs w' = w_outs w /\
    w_events w' = w_events w /\
    filter constructs_engine (w_events w') = filter constructs_engine (w_events w).
Proof.
  intros P F w entry rest HF cpg Hskip.
  exists (with_errs w (never_returns F)). split.
  - apply (runOnFunction_skip P F w entry rest HF).
    destruct Hskip as [Hall | Hedge]; [left | right; exact Hedge].
    apply find_return_none. exact Hall.
  - repeat split; reflexivity.
Qed.

(** C6: when the procedure is analysable and solving is enabled,
    [runOnFunction] adds to [outs ()] exactly one of "sat", "unsat" and
    "unknown" followed by a line feed, and records the fact "Result" as
    "FALSE" when the result is sat, as "TRUE" when it is unsat, and not at
    all when it is unknown. *)
Theorem solve_result_is_reported :
  forall (P : BmcPass) (F : IRFunction) (w : World) entry rest dst,
  irf_blocks F = entry :: rest ->
  let cpg := getAnalysis_CutPointGraph F in
  find_return cpg F = Some dst ->
  getEdge cpg (getCp cpg entry) dst = true ->
  m_solve P = true ->
  exists w',
    run P F w = Some (false, w') /\
    w_outs w' =
      (w_outs w ++
       match solve_result (m_engine P) F with
       | tb_true => "sat"
       | tb_false => "unsat"
       | tb_indeterminate => "unknown"
       end ++ LF)%string /\
    result_facts (w_events w') =
      result_facts (w_events w) ++
      match solve_result (m_engine P) F with
      | tb_true => [("Result", "FALSE")]
      | tb_false => [("Result", "TRUE")]
      | tb_indeterminate => []
      end.
Proof.
  intros P F w entry rest dst HF cpg Hdst Hedge Hsolve.
  destruct (runOnFunction_analysable P F w entry rest dst HF Hdst Hedge)
    as (w' & Hrun & _ & Hon).
  exists w'. split; [exact Hrun|]. apply Hon. exact Hsolve.
Qed.

(** C10: [runOnModule] runs [runOnFunction] on the first function named
    "main" and does nothing else; without such a function it changes nothing
    and returns [false]; and [runOnFunction] returns [false] on every
    function that has a body, whichever way it ends. *)
Theorem runOnModule_analyses_main_only :
  forall (P : BmcPass) (Mod : IRModule) (w : World),
  match find (fun F => String.eqb (F_name (irf_decl F)) "main") Mod with
  | None => runModule P Mod w = Some (false, w)
  | Some F =>
      runModule P Mod w = run P F w /\
      (irf_blocks F <> [] -> exists w', runModule P Mod w = Some (false, w'))
  end.
Proof.
  intros P Mod w. rewrite runOnModule_find.
  destruct (find _ Mod) as [F|]; [|reflexivity].
  split; [reflexivity|]. apply runOnFunction_returns_false.
Qed.

(** X1: for a procedure with a body whose returning cut point is connected
    to the entry cut point, [runOnFunction] constructs exactly one BMC
    engine and registers exactly two cut points on it, the entry cut point
    and then the returning one. *)
Theorem one_engine_two_cut_points :
  forall (P : BmcPass) (F : IRFunction) (w : World) entry rest dst,
  irf_blocks F = entry :: rest ->
  let cpg := getAnalysis_CutPointGraph F in
  find_return cpg F = Some dst ->
  getEdge cpg (getCp cpg entry) dst = true ->
  exists w' added,
    run P F w = Some (false, w') /\
    w_events w' = w_events w ++ added /\
    length (filter is_engine added) = 1%nat /\
    filter is_addCutPoint added
      = [Bmc_addCutPoint (getCp cpg entry); Bmc_addCutPoint dst].
Proof.
  intros P F w entry rest dst HF cpg Hdst Hedge.
  destruct (runOnFunction_events P F w entry rest dst HF Hdst Hedge) as (w' & Hrun & Hev).
  exists w'. eexists. split; [exact Hrun|]. split; [exact Hev|].
  unfold analysis_events, engine_events, solve_events. fold cpg.
  destruct (m_engine P), HAVE_CRAB_LLVM, (m_out P), (m_solve P),
    (SeaLog "bmc"), (SeaLog "cex"), (solve_result _ F); split; reflexivity.
Qed.

(** X2: in encode-only mode ([m_solve] false) [runOnFunction] encodes,
    hands the encoding to the sink when there is one, never calls the
    solver and writes nothing to [outs ()]. *)
Theorem encode_only_never_solves :
  forall (P : BmcPass) (F : IRFunction) (w : World) entry rest dst,
  irf_blocks F = entry :: rest ->
  let cpg := getAnalysis_CutPointGraph F in
  find_return cpg F = Some dst ->
  getEdge cpg (getCp cpg entry) dst = true ->
  m_solve P = false ->
  exists w' added,
    run P F w = Some (false, w') /\
    w_events w' = w_events w ++ added /\
    filter is_solve added = [] /\
    In Bmc_encode added /\
    (forall os, m_out P = Some os -> In (Bmc_toSmtLib os) added) /\
    w_outs w' = w_outs w.
Proof.
  intros P F w entry rest dst HF cpg Hdst Hedge Hsolve.
  destruct (runOnFunction_events P F w entry rest dst HF Hdst Hedge) as (w' & Hrun & Hev).
  destruct (runOnFunction_analysable P F w entry rest dst HF Hdst Hedge)
    as (w'' & Hrun' & Hoff & _).
  assert (w'' = w') by congruence. subst w''.
  exists w'. eexists. split; [exact Hrun|]. split; [exact Hev|].
  unfold analysis_events, engine_events. fold cpg. rewrite Hsolve.
  split; [|split; [|split]].
  - destruct (m_engine P), HAVE_CRAB_LLVM, (m_out P); reflexivity.
  - destruct (m_engine P), HAVE_CRAB_LLVM, (m_out P); cbn; tauto.
  - intros os ->. destruct (m_engine P), HAVE_CRAB_LLVM; cbn; tauto.
  - specialize (Hoff Hsolve). unfold observed in Hoff. now inversion Hoff.
Qed.

End BmcPassFacts.

(** C5 at a [main] that only loops, and at a [main] whose returning block is
    not connected to the entry. *)
Lemma unanalysable_procedure_is_skipped_witness :
  (exists w',
     runOnFunction Sample.log_all (fun _ => Sample.connected) false
       (fun _ _ => tb_true) Sample.no_core Sample.no_text Sample.no_text
       Sample.pass Sample.spinning world0 = Some (false, w') /\
     w_errs w' = ("WARNING: BmcPass: function 'main' never returns" ++ LF)%string /\
     w_events w' = []) /\
  (exists w',
     runOnFunction Sample.log_all (fun _ => Sample.disconnected) false
       (fun _ _ => tb_true) Sample.no_core Sample.no_text Sample.no_text
       Sample.pass Sample.main world0 = Some (false, w') /\
     w_errs w' = ("WARNING: BmcPass: function 'main' never returns" ++ LF)%string /\
     w_events w' = []).
Proof.
  split.
  - destruct (unanalysable_procedure_is_skipped
                Sample.log_all (fun _ => Sample.connected) false
                (fun _ _ => tb_true) Sample.no_core Sample.no_text Sample.no_text
                Sample.pass Sample.spinning world0 _ _ eq_refl)
      as (w' & Hrun & Herr & _ & Hev & _).
    + left. repeat constructor.
    + exists w'. repeat split; assumption.
  - destruct (unanalysable_procedure_is_skipped
                Sample.log_all (fun _ => Sample.disconnected) false
                (fun _ _ => tb_true) Sample.no_core Sample.no_text Sample.no_text
                Sample.pass Sample.main world0 _ _ eq_refl)
      as (w' & Hrun & Herr & _ & Hev & _).
    + right. exists (Sample.cut_point Sample.block1). split; reflexivity.
    + exists w'. repeat split; assumption.
Defined.

(** C6 at a [main] that can be analysed, for a solver that answers sat. *)
Lemma solve_result_is_reported_witness :
  exists w',
    runOnFunction Sample.log_all (fun _ => Sample.connected) false
      (fun _ _ => tb_true) Sample.no_core Sample.no_text Sample.no_text
      Sample.pass Sample.main world0 = Some (false, w') /\
    w_outs w' = ("sat" ++ LF)%string /\
    result_facts (w_events w') = [("Result", "FALSE")].
Proof.
  destruct (solve_result_is_reported
              Sample.log_all (fun _ => Sample.connected) false
              (fun _ _ => tb_true) Sample.no_core Sample.no_text Sample.no_text
              Sample.pass Sample.main world0 _ _ (Sample.cut_point Sample.block1)
              eq_refl eq_refl eq_refl eq_refl)
    as (w' & Hrun & Hout & Hres).
  exists w'. repeat split; assumption.
Defined.

(** C10 at a module whose second function is [main]. *)
Lemma runOnModule_analyses_main_only_witness :
  runOnModule Sample.log_all (fun _ => Sample.connected) false
    (fun _ _ => tb_false) Sample.no_core Sample.no_text Sample.no_text
    Sample.pass [Sample.other; Sample.main] world0
  = runOnFunction Sample.log_all (fun _ => Sample.connected) false
      (fun _ _ => tb_false) Sample.no_core Sample.no_text Sample.no_text
      Sample.pass Sample.main world0
  /\ exists w',
       runOnModule Sample.log_all (fun _ => Sample.connected) false
         (fun _ _ => tb_false) Sample.no_core Sample.no_text Sample.no_text
         Sample.pass [Sample.other; Sample.main] world0 = Some (false, w').
Proof.
  pose proof (runOnModule_analyses_main_only
                Sample.log_all (fun _ => Sample.connected) false
                (fun _ _ => tb_false) Sample.no_core Sample.no_text Sample.no_text
                Sample.pass [Sample.other; Sample.main] world0) as H.
  cbn [find] in H. change (F_name (irf_decl Sample.other) =? "main")%string with false in H.
  change (F_name (irf_decl Sample.main) =? "main")%string with true in H.
  cbv iota in H. destruct H as [Heq Hfalse].
  split; [exact Heq|]. apply Hfalse. discriminate.
Defined.

(** X1 at the sample [main], with the path-based engine. *)
Lemma one_engine_two_cut_points_witness :
  exists w' added,
    runOnFunction Sample.log_all (fun _ => Sample.connected) false
      (fun _ _ => tb_false) Sample.no_core Sample.no_text Sample.no_text
      (mkBmcPass path_bmc None true) Sample.main world0 = Some (false, w') /\
    w_events w' = added /\
    length (filter is_engine added) = 1%nat /\
    filter is_addCutPoint added
      = [Bmc_addCutPoint (Sample.cut_point Sample.block0);
         Bmc_addCutPoint (Sample.cut_point Sample.block1)].
Proof.
  destruct (one_engine_two_cut_points
              Sample.log_all (fun _ => Sample.connected) false
              (fun _ _ => tb_false) Sample.no_core Sample.no_text Sample.no_text
              (mkBmcPass path_bmc None true) Sample.main world0 _ _
              (Sample.cut_point Sample.block1) eq_refl eq_refl eq_refl)
    as (w' & added & Hrun & Hev & Hone & Htwo).
  exists w', added. repeat split; assumption.
Defined.

(** X2 at the sample [main], with a sink and solving switched off. *)
Lemma encode_only_never_solves_witness :
  exists w' added,
    runOnFunction Sample.log_all (fun _ => Sample.connected) false
      (fun _ _ => tb_true) Sample.no_core Sample.no_text Sample.no_text
      (mkBmcPass mono_bmc (Some 7%N) false) Sample.main world0 = Some (false, w') /\
    w_events w' = added /\
    filter is_solve added = [] /\
    In Bmc_encode added /\ In (Bmc_toSmtLib 7%N) added /\
    w_outs w' = "".
Proof.
  destruct (encode_only_never_solves
              Sample.log_all (fun _ => Sample.connected) false
              (fun _ _ => tb_true) Sample.no_core Sample.no_text Sample.no_text
              (mkBmcPass mono_bmc (Some 7%N) false) Sample.main world0 _ _
              (Sample.cut_point Sample.block1) eq_refl eq_refl eq_refl eq_refl)
    as (w' & added & Hrun & Hev & Hnone & Henc & Hsink & Hout).
  exists w', added. repeat split; try assumption. apply Hsink. reflexivity.
Defined.

(* ===================================================================== *)
(** ** What ConstantArray::get makes of the converted values *)
(* ===================================================================== *)

Lemma value_of_converted RT e : CI_value (converted RT e) = value_of RT e.
Proof. destruct e; reflexivity. Qed.

Lemma value_of_range RT e : 0 <= value_of RT e < 2 ^ Z.pos RT.
Proof.
  assert (Hpow : 2 <= 2 ^ Z.pos RT).
  { change 2 with (2 ^ 1) at 1. apply Z.pow_le_mono_r; lia. }
  destruct e as [| |z|s]; cbn [value_of]; try lia.
  apply Z.mod_pos_bound. lia.
Qed.

Lemma converted_bits RT e :
  CI_bits (converted RT e) = RT \/ CI_bits (converted RT e) = 1%positive.
Proof. destruct e; cbn; auto. Qed.

Lemma compatible_bits RT e :
  isElementTypeCompatible (CI_bits (converted RT e)) = true ->
  CI_bits (converted RT e) = RT.
Proof.
  destruct (converted_bits RT e) as [H | H]; [intros _; exact H|].
  rewrite H. discriminate.
Qed.

Lemma length_stored RT vs : length (stored RT vs) = length vs.
Proof. unfold stored. destruct (packs RT vs); apply length_map. Qed.

(** Elements that are all the same null constant: zeros of the width of
    the array. *)
Lemma all_null_widened RT C (vs : ExprVector) :
  isNullValue C = true ->
  rangeOnlyContains (map (converted RT) vs) C = true ->
  map (widened RT) vs = repeat (mkConstantInt RT 0) (length vs).
Proof.
  unfold isNullValue, rangeOnlyContains, same_ConstantInt. intros HC.
  apply Z.eqb_eq in HC.
  induction vs as [|e vs IH]; cbn [map forallb length repeat]; [reflexivity|].
  intros Hall. apply andb_prop in Hall. destruct Hall as [He Hall].
  apply andb_prop in He. destruct He as [_ Hv]. apply Z.eqb_eq in Hv.
  rewrite IH by exact Hall. unfold widened.
  rewrite <- value_of_converted, Hv, HC. reflexivity.
Qed.

(** Elements read again on the width of the array. *)
Lemma packed_widened RT (vs : ExprVector) :
  map (mkConstantInt RT)
      (map (fun c => wrap RT (getZExtValue c)) (map (converted RT) vs))
  = map (widened RT) vs.
Proof.
  rewrite !map_map. apply map_ext. intros e. unfold widened, getZExtValue.
  rewrite value_of_converted, wrap_small by apply value_of_range. reflexivity.
Qed.

Lemma all_zero_repeat RT (l : list Z) :
  forallb (fun v => v =? 0) l = true ->
  map (mkConstantInt RT) l = repeat (mkConstantInt RT 0) (length l).
Proof.
  induction l as [|v l IH]; cbn [forallb map length repeat]; [reflexivity|].
  intros H. apply andb_prop in H. destruct H as [Hv Hl].
  apply Z.eqb_eq in Hv. subst v. now rewrite IH.
Qed.

(** What [ConstantArray::get] makes of the constants [exprToLlvm] returned
    for the values of a callee. *)
Lemma ConstantArray_get_stored RT (vs : ExprVector) :
  ConstantArray_get (ArrayTy (IntegerTy RT) (length vs)) (map (converted RT) vs)
  = ConstantArray (ArrayTy (IntegerTy RT) (length vs)) (stored RT vs).
Proof.
  unfold stored, packs, ConstantArray_get.
  destruct vs as [|e vs]; [reflexivity|].
  cbn [map]. set (C := converted RT e). set (V := C :: map (converted RT) vs).
  destruct (isNullValue C && rangeOnlyContains V C) eqn:Hnull.
  - cbn [orb]. unfold ConstantAggregateZero_get, zero_elements. f_equal.
    apply andb_prop in Hnull. destruct Hnull as [HC Hall].
    symmetry. apply (all_null_widened RT C (e :: vs) HC Hall).
  - cbn [orb]. destruct (isElementTypeCompatible (CI_bits C)) eqn:Hcompat;
      [|reflexivity].
    assert (HRT : CI_bits C = RT) by (apply compatible_bits; exact Hcompat).
    rewrite HRT.
    unfold ConstantDataArray_get.
    change (wrap RT (getZExtValue C)
            :: map (fun c => wrap RT (getZExtValue c)) (map (converted RT) vs))
      with (map (fun c => wrap RT (getZExtValue c)) (map (converted RT) (e :: vs))).
    change (widened RT e :: map (widened RT) vs) with (map (widened RT) (e :: vs)).
    rewrite !length_map.
    destruct (forallb _ _) eqn:Hzero.
    + unfold ConstantAggregateZero_get, zero_elements. f_equal.
      rewrite <- packed_widened. rewrite (all_zero_repeat RT _ Hzero).
      now rewrite !length_map.
    + f_equal. apply packed_widened.
Qed.



(* ===================================================================== *)
(** ** createLLVMHarness: one entry of the map *)
(* ===================================================================== *)

Lemma mapM_exprToLlvm SeaLog RT (values : ExprVector) : forall w,
  mapM (exprToLlvm SeaLog RT) values w
  = Some (map (converted RT) values,
          with_errs w (concat_strings (map (not_handled SeaLog) values))).
Proof.
  induction values as [|e vs IH]; intros w; simpl.
  - unfold ret. now rewrite with_errs_empty.
  - unfold bind. rewrite exprToLlvm_eq, IH, with_errs_app. reflexivity.
Qed.

Lemma build_harness_function_eq SeaLog H CF values w :
  build_harness_function SeaLog H (CF, values) w =
  match getOrInsertFunction H (F_name CF) (F_type CF) with
  | (_, BitCastOf _) => None
  | (H1, IsFunction HF) =>
      match dyn_cast_IntegerType (getReturnType CF) with
      | None => Some (H1, with_errs w (skipping CF))
      | Some RT =>
          Some (add_stub H1 HF RT (stored RT values),
                with_errs w (concat_strings (map (not_handled SeaLog) values)))
      end
  end.
Proof.
  unfold build_harness_function. cbn [fst snd].
  destruct (getOrInsertFunction H (F_name CF) (F_type CF)) as [H1 [HF|HF]];
    [|reflexivity].
  cbn [cast_Function]. rewrite bind_ret.
  destruct (dyn_cast_IntegerType (getReturnType CF)) as [RT|]; [|reflexivity].
  unfold bind at 1. rewrite mapM_exprToLlvm.
  rewrite ConstantArray_get_stored.
  unfold add_stub, new_GlobalVariable, CreateLoad, CreateAdd, CreateStore,
    CreateCall, CreateRet, array_variable, provider_type, stub_block, array_as_bool.
  cbn [fst snd m_name m_functions m_globals m_LastUnique length app].
  rewrite !length_stored, !length_app. cbn [length].
  unfold Function_Create. cbn [m_functions m_globals m_name m_LastUnique].
  destruct (if name_taken (m_functions H1) ("get_value_" ++ print_IntegerType RT)
            then _ else _) as [n' last'].
  cbn [fst]. unfold ret. do 2 f_equal.
  replace (length (m_globals H1) + 1)%nat with (S (length (m_globals H1))) by lia.
  reflexivity.
Qed.

(** *** Lists updated in place *)

Lemma nth_error_update_nth_eq {A} (g : A -> A) (l : list A) : forall n x,
  nth_error l n = Some x -> nth_error (update_nth n g l) n = Some (g x).
Proof.
  induction l as [|y l IH]; intros [|n] x H; simpl in *; try discriminate.
  - now inversion H.
  - now apply IH.
Qed.

Lemma nth_error_update_nth_neq {A} (g : A -> A) (l : list A) : forall n i,
  i <> n -> nth_error (update_nth n g l) i = nth_error l i.
Proof.
  induction l as [|y l IH]; intros [|n] [|i] H; simpl; try reflexivity.
  - contradiction.
  - apply IH. lia.
Qed.

Lemma In_update_nth {A} (g : A -> A) (l : list A) : forall n y,
  In y (update_nth n g l) ->
  (exists i, i <> n /\ nth_error l i = Some y)
  \/ exists x, nth_error l n = Some x /\ y = g x.
Proof.
  induction l as [|x l IH]; intros [|n] y H; simpl in *; try contradiction.
  - destruct H as [<- | H].
    + right. exists x. split; reflexivity.
    + left. destruct (In_nth_error _ _ H) as [i Hi]. exists (S i). split; [lia | exact Hi].
  - destruct H as [<- | H].
    + left. exists O. split; [lia | reflexivity].
    + destruct (IH n y H) as [(i & Hne & Hi) | (x' & Hx & ->)].
      * left. exists (S i). split; [lia | exact Hi].
      * right. exists x'. split; [exact Hx | reflexivity].
Qed.

Lemma find_index_some {A} (p : A -> bool) (l : list A) : forall i,
  find_index p l = Some i -> exists x, nth_error l i = Some x /\ p x = true.
Proof.
  induction l as [|y l IH]; intros i H; simpl in H; [discriminate|].
  destruct (p y) eqn:Hp.
  - inversion H; subst. exists y. split; [reflexivity | exact Hp].
  - destruct (find_index p l) as [j|]; [|discriminate].
    inversion H; subst. apply (IH j). reflexivity.
Qed.

Lemma find_index_none {A} (p : A -> bool) (l : list A) :
  find_index p l = None -> existsb p l = false.
Proof.
  induction l as [|y l IH]; simpl; intros H; [reflexivity|].
  destruct (p y); [discriminate|].
  destruct (find_index p l); [discriminate|]. now apply IH.
Qed.

(** *** The module grows *)

Lemma unique_name_suffix fuel fs base : forall last,
  exists suffix, fst (unique_name fuel fs base last) = (base ++ suffix)%string.
Proof.
  induction fuel as [|fuel IH]; intros last; simpl.
  - eexists. reflexivity.
  - destruct (name_taken fs _); [apply IH|]. eexists. reflexivity.
Qed.

Lemma Function_Create_functions H ty l n :
  exists suffix,
    m_functions (fst (Function_Create H ty l n))
    = m_functions H ++ [mkHFunction (n ++ suffix) ty l []]
    /\ (name_taken (m_functions H) n = false -> suffix = "").
Proof.
  unfold Function_Create.
  destruct (name_taken (m_functions H) n) eqn:E.
  - destruct (unique_name_suffix (length (m_functions H)) (m_functions H) n
                (m_LastUnique H)) as [suffix Hs].
    destruct (unique_name _ _ _ _) as [n' last']. cbn [fst] in *. subst n'.
    exists suffix. split; [reflexivity | discriminate].
  - exists "". cbn [fst m_functions]. rewrite append_nil_r. split; reflexivity.
Qed.

Lemma Function_Create_globals H ty l n :
  m_globals (fst (Function_Create H ty l n)) = m_globals H.
Proof.
  unfold Function_Create.
  destruct (if name_taken _ _ then _ else _) as [n' last']. reflexivity.
Qed.

(** What [cast<Function> (getOrInsertFunction (...))] hands back when the
    cast succeeds: a function of that name and type, found or appended as a
    declaration. *)
Lemma getOrInsertFunction_function H n ty H1 HF :
  getOrInsertFunction H n ty = (H1, IsFunction HF) ->
  m_globals H1 = m_globals H /\
  ((H1 = H /\ exists f, nth_error (m_functions H) HF = Some f /\
                        hf_name f = n /\ hf_type f = ty)
   \/ (name_taken (m_functions H) n = false /\
       HF = length (m_functions H) /\
       m_functions H1 = m_functions H ++ [mkHFunction n ty ExternalLinkage []])).
Proof.
  unfold getOrInsertFunction, getNamedValue.
  destruct (find_index _ (m_functions H)) as [i|] eqn:E.
  - destruct (find_index_some _ _ _ E) as (f & Hf & Hname).
    rewrite Hf. destruct (FunctionType_eq_dec (hf_type f) ty) as [Hty|]; [|discriminate].
    intros Heq. inversion Heq; subst. split; [reflexivity|]. left.
    split; [reflexivity|]. exists f. split; [exact Hf|].
    split; [now apply String.eqb_eq | reflexivity].
  - apply find_index_none in E.
    pose proof (Function_Create_globals H ty ExternalLinkage n) as Hg.
    destruct (Function_Create_functions H ty ExternalLinkage n) as (suffix & Hfs & Hs).
    assert (Hlen : snd (Function_Create H ty ExternalLinkage n) = length (m_functions H)).
    { unfold Function_Create. destruct (if name_taken _ _ then _ else _). reflexivity. }
    destruct (Function_Create H ty ExternalLinkage n) as [H' f']. cbn [fst snd] in *.
    intros Heq. inversion Heq; subst. split; [exact Hg|]. right.
    split; [exact E|]. split; [reflexivity|].
    rewrite Hfs, (Hs E), append_nil_r. reflexivity.
Qed.

Lemma extends_refl H : extends H H.
Proof.
  split.
  - exists []. now rewrite List.app_nil_r.
  - intros i f Hf. exists f. split; [exact Hf|]. split; [repeat split|].
    exists []. now rewrite List.app_nil_r.
Qed.

Lemma extends_trans H1 H2 H3 : extends H1 H2 -> extends H2 H3 -> extends H1 H3.
Proof.
  intros [[g1 Hg1] Hf1] [[g2 Hg2] Hf2]. split.
  - exists (g1 ++ g2). now rewrite Hg2, Hg1, app_assoc.
  - intros i f Hf.
    destruct (Hf1 i f Hf) as (f' & Hf' & (Hn & Ht & Hl) & bs & Hbs).
    destruct (Hf2 i f' Hf') as (f'' & Hf'' & (Hn' & Ht' & Hl') & bs' & Hbs').
    exists f''. split; [exact Hf''|]. split.
    + repeat split; congruence.
    + exists (bs ++ bs'). now rewrite Hbs', Hbs, app_assoc.
Qed.

Lemma extends_append_function H H1 f0 :
  m_globals H1 = m_globals H ->
  m_functions H1 = m_functions H ++ [f0] ->
  extends H H1.
Proof.
  intros Hg Hf. split.
  - exists []. now rewrite Hg, List.app_nil_r.
  - intros i f Hi. exists f. split.
    + rewrite Hf, nth_error_app1; [exact Hi|]. apply nth_error_Some. congruence.
    + split; [repeat split|]. exists []. now rewrite List.app_nil_r.
Qed.

Lemma getOrInsertFunction_extends H n ty H1 HF :
  getOrInsertFunction H n ty = (H1, IsFunction HF) ->
  extends H H1 /\
  exists f0, nth_error (m_functions H1) HF = Some f0 /\
             hf_name f0 = n /\ hf_type f0 = ty.
Proof.
  intros E. destruct (getOrInsertFunction_function _ _ _ _ _ E)
    as [Hg [[-> (f & Hf & Hn & Ht)] | (Hfree & -> & Hfs)]].
  - split; [apply extends_refl|]. exists f. repeat split; assumption.
  - split; [eapply extends_append_function; eassumption|].
    eexists. rewrite Hfs, nth_error_app2, Nat.sub_diag by lia.
    split; [reflexivity|]. split; reflexivity.
Qed.

Lemma add_stub_globals H1 HF RT elts :
  m_globals (add_stub H1 HF RT elts)
  = m_globals H1 ++ [array_variable RT elts; counter_variable].
Proof.
  unfold add_stub, push_back_block. cbn [m_globals].
  rewrite Function_Create_globals. cbn [m_globals].
  now rewrite <- app_assoc.
Qed.

Lemma add_stub_functions H1 HF RT elts :
  exists suffix,
    m_functions (add_stub H1 HF RT elts)
    = update_nth HF
        (add_block (stub_block (S (length (m_globals H1))) (length (m_globals H1))
                      (length (m_functions H1)) (length elts)))
        (m_functions H1 ++
         [mkHFunction ("get_value_" ++ print_IntegerType RT ++ suffix)
            (provider_type RT) ExternalLinkage []]).
Proof.
  unfold add_stub, push_back_block. cbn [m_functions].
  match goal with
  | |- context [Function_Create ?H2 ?ty ?l ?n] =>
      destruct (Function_Create_functions H2 ty l n) as (suffix & Hfs & _)
  end.
  exists suffix. rewrite Hfs. cbn [m_functions].
  rewrite append_assoc. reflexivity.
Qed.

Lemma add_stub_extends H1 HF RT elts : extends H1 (add_stub H1 HF RT elts).
Proof.
  split.
  - eexists. apply add_stub_globals.
  - intros i f Hi. destruct (add_stub_functions H1 HF RT elts) as [suffix ->].
    assert (Hi' : nth_error (m_functions H1 ++
                    [mkHFunction ("get_value_" ++ print_IntegerType RT ++ suffix)
                       (provider_type RT) ExternalLinkage []]) i = Some f).
    { rewrite nth_error_app1; [exact Hi|]. apply nth_error_Some. congruence. }
    destruct (Nat.eq_dec i HF) as [->|Hne].
    + eexists. split; [apply nth_error_update_nth_eq; exact Hi'|].
      split; [repeat split|]. eexists. reflexivity.
    + exists f. split; [rewrite nth_error_update_nth_neq; assumption|].
      split; [repeat split|]. exists []. now rewrite List.app_nil_r.
Qed.

(** The blocks of the module after a stub was added: the old ones, and the
    new block in function [HF]. *)
Lemma add_stub_blocks H1 HF RT elts f0 f' B :
  nth_error (m_functions H1) HF = Some f0 ->
  In f' (m_functions (add_stub H1 HF RT elts)) ->
  In B (hf_blocks f') ->
  (exists f, In f (m_functions H1) /\ In B (hf_blocks f) /\ hf_name f' = hf_name f)
  \/ (hf_name f' = hf_name f0 /\
      B = stub_block (S (length (m_globals H1))) (length (m_globals H1))
            (length (m_functions H1)) (length elts)).
Proof.
  intros H0 Hin HB.
  destruct (add_stub_functions H1 HF RT elts) as [suffix Hfs]. rewrite Hfs in Hin.
  assert (Hlt : (HF < length (m_functions H1))%nat)
    by (apply nth_error_Some; congruence).
  destruct (In_update_nth _ _ _ _ Hin) as [(i & Hne & Hi) | (x & Hx & ->)].
  - apply nth_error_In in Hi. apply in_app_or in Hi. destruct Hi as [Hi | [<- | []]].
    + left. exists f'. repeat split; assumption.
    + destruct HB.
  - rewrite nth_error_app1 in Hx by exact Hlt.
    assert (x = f0) by congruence. subst x.
    cbn [add_block hf_blocks hf_name] in *. apply in_app_or in HB.
    destruct HB as [HB | [<- | []]].
    + left. exists f0. split; [eapply nth_error_In; eassumption|]. split; [exact HB | reflexivity].
    + right. split; reflexivity.
Qed.

Lemma add_stub_new_block H1 HF RT elts f0 :
  nth_error (m_functions H1) HF = Some f0 ->
  exists f', In f' (m_functions (add_stub H1 HF RT elts)) /\
             hf_name f' = hf_name f0 /\
             In (stub_block (S (length (m_globals H1))) (length (m_globals H1))
                   (length (m_functions H1)) (length elts)) (hf_blocks f').
Proof.
  intros H0. destruct (add_stub_functions H1 HF RT elts) as [suffix Hfs]. rewrite Hfs.
  assert (Hlt : (HF < length (m_functions H1))%nat)
    by (apply nth_error_Some; congruence).
  eexists. split.
  - eapply nth_error_In. apply nth_error_update_nth_eq.
    rewrite nth_error_app1 by exact Hlt. exact H0.
  - cbn [add_block hf_name hf_blocks]. split; [reflexivity|].
    apply in_or_app. right. left. reflexivity.
Qed.

Lemma add_stub_provider H1 HF RT elts :
  (HF < length (m_functions H1))%nat ->
  exists pf suffix,
    nth_error (m_functions (add_stub H1 HF RT elts)) (length (m_functions H1)) = Some pf /\
    hf_type pf = provider_type RT /\
    hf_linkage pf = ExternalLinkage /\
    hf_blocks pf = [] /\
    hf_name pf = ("get_value_" ++ print_IntegerType RT ++ suffix)%string.
Proof.
  intros Hlt. destruct (add_stub_functions H1 HF RT elts) as [suffix Hfs]. rewrite Hfs.
  eexists. exists suffix. split.
  - rewrite nth_error_update_nth_neq by lia.
    rewrite nth_error_app2, Nat.sub_diag by lia. reflexivity.
  - repeat split.
Qed.

(** *** Stubs and where they come from *)

Lemma nth_error_prefix {A} (l gs : list A) i x :
  nth_error l i = Some x -> nth_error (l ++ gs) i = Some x.
Proof.
  intros H. rewrite nth_error_app1; [exact H|]. apply nth_error_Some. congruence.
Qed.

Lemma stub_for_extends H H' CF values RT f f' B :
  extends H H' -> stub_for H CF values RT f B -> hf_name f' = hf_name f ->
  stub_for H' CF values RT f' B.
Proof.
  intros [[gs Hg] Hfs] [Hname (c & a & p & pf & suffix & HB & Ha & Hc & Hp & Ht & Hl & Hn)] Hf'.
  split; [congruence|].
  destruct (Hfs p pf Hp) as (pf' & Hp' & (Hn' & Ht' & Hl') & _).
  exists c, a, p, pf', suffix. rewrite Hg.
  repeat split; try assumption; try (apply nth_error_prefix; assumption); congruence.
Qed.

Lemma step_facts SeaLog H CF vs w H' w' :
  build_harness_function SeaLog H (CF, vs) w = Some (H', w') ->
  extends H H' /\
  w' = with_errs w (entry_diag SeaLog (CF, vs)) /\
  (forall f' B, In f' (m_functions H') -> In B (hf_blocks f') ->
     (exists f, In f (m_functions H) /\ In B (hf_blocks f) /\ hf_name f' = hf_name f)
     \/ exists RT, dyn_cast_IntegerType (getReturnType CF) = Some RT /\
                   stub_for H' CF vs RT f' B) /\
  (forall RT, dyn_cast_IntegerType (getReturnType CF) = Some RT ->
     exists f' B, In f' (m_functions H') /\ In B (hf_blocks f') /\
                  stub_for H' CF vs RT f' B).
Proof.
  rewrite build_harness_function_eq. unfold entry_diag. cbn [fst snd].
  destruct (getOrInsertFunction H (F_name CF) (F_type CF)) as [H1 [HF|HF]] eqn:E;
    [|discriminate].
  destruct (getOrInsertFunction_extends _ _ _ _ _ E) as (Hext & f0 & Hf0 & Hn0 & Ht0).
  assert (Hold : forall f' B, In f' (m_functions H1) -> In B (hf_blocks f') ->
            exists f, In f (m_functions H) /\ In B (hf_blocks f) /\ hf_name f' = hf_name f).
  { destruct (getOrInsertFunction_function _ _ _ _ _ E)
      as [_ [[-> _] | (_ & _ & Hfs)]]; intros f' B Hin HB.
    - exists f'. repeat split; assumption.
    - rewrite Hfs in Hin. apply in_app_or in Hin. destruct Hin as [Hin | [<- | []]].
      + exists f'. repeat split; assumption.
      + destruct HB. }
  destruct (dyn_cast_IntegerType (getReturnType CF)) as [RT|] eqn:Hrt;
    intros Heq; inversion Heq; subst; clear Heq.
  - assert (Hnew : stub_for (add_stub H1 HF RT (stored RT vs)) CF vs RT
                     (add_block (stub_block (S (length (m_globals H1)))
                                   (length (m_globals H1)) (length (m_functions H1))
                                   (length vs)) f0)
                     (stub_block (S (length (m_globals H1))) (length (m_globals H1))
                        (length (m_functions H1)) (length vs))).
    { split; [exact Hn0|].
      destruct (add_stub_provider H1 HF RT (stored RT vs))
        as (pf & suffix & Hp & Hpt & Hpl & _ & Hpn);
        [apply nth_error_Some; congruence|].
      exists (S (length (m_globals H1))), (length (m_globals H1)),
        (length (m_functions H1)), pf, suffix.
      rewrite add_stub_globals.
      repeat split; try assumption.
      - rewrite nth_error_app2, Nat.sub_diag by lia. reflexivity.
      - rewrite nth_error_app2 by lia.
        replace (S (length (m_globals H1)) - length (m_globals H1))%nat with 1%nat by lia.
        reflexivity. }
    split; [eapply extends_trans; [exact Hext | apply add_stub_extends]|].
    split; [reflexivity|]. split.
    + intros f' B Hin HB.
      destruct (add_stub_blocks _ _ _ _ _ _ _ Hf0 Hin HB)
        as [(f & Hf & HBf & Hname) | [Hname ->]].
      * left. destruct (Hold f B Hf HBf) as (f1 & Hf1 & HB1 & Hn1).
        exists f1. repeat split; try assumption. congruence.
      * right. exists RT. split; [reflexivity|].
        rewrite length_stored. destruct Hnew as [_ Hrest]. split; [congruence | exact Hrest].
    + intros RT' HRT'. inversion HRT'; subst RT'.
      destruct (add_stub_new_block H1 HF RT (stored RT vs) f0 Hf0)
        as (f' & Hin & Hname & HB).
      rewrite length_stored in HB.
      exists f'. eexists. split; [exact Hin|]. split; [exact HB|].
      destruct Hnew as [_ Hrest]. split; [congruence | exact Hrest].
  - split; [exact Hext|]. split; [reflexivity|]. split.
    + intros f' B Hin HB. left. apply Hold; assumption.
    + intros RT' HRT'. discriminate.
Qed.

Lemma step_blocks_known SeaLog H CF vs w H1 w1 done :
  build_harness_function SeaLog H (CF, vs) w = Some (H1, w1) ->
  blocks_known H done -> blocks_known H1 (done ++ [(CF, vs)]).
Proof.
  intros E Hk f' B Hin HB.
  destruct (step_facts _ _ _ _ _ _ _ E) as (Hext & _ & Hblocks & _).
  destruct (Hblocks f' B Hin HB) as [(f & Hf & HBf & Hname) | (RT & HRT & Hs)].
  - destruct (Hk f B Hf HBf) as (CF0 & vs0 & RT0 & Hd & HRT0 & Hs0).
    exists CF0, vs0, RT0. split; [apply in_or_app; left; exact Hd|].
    split; [exact HRT0|]. eapply stub_for_extends; eassumption.
  - exists CF, vs, RT. split; [apply in_or_app; right; left; reflexivity|].
    split; assumption.
Qed.

Lemma step_stubs_present SeaLog H CF vs w H1 w1 done :
  build_harness_function SeaLog H (CF, vs) w = Some (H1, w1) ->
  stubs_present H done -> stubs_present H1 (done ++ [(CF, vs)]).
Proof.
  intros E Hp CF0 vs0 RT0 Hd HRT0.
  destruct (step_facts _ _ _ _ _ _ _ E) as (Hext & _ & _ & Hnew).
  apply in_app_or in Hd. destruct Hd as [Hd | [Heq | []]].
  - destruct (Hp CF0 vs0 RT0 Hd HRT0) as (f & B & Hf & HB & Hs).
    destruct (In_nth_error _ _ Hf) as [i Hi].
    pose proof Hext as [Hg Hfs].
    destruct (Hfs i f Hi) as (f' & Hi' & (Hn & _) & bs & Hbs).
    exists f', B. split; [eapply nth_error_In; eassumption|].
    split; [rewrite Hbs; apply in_or_app; left; exact HB|].
    eapply stub_for_extends; [exact Hext | exact Hs | exact Hn].
  - inversion Heq; subst. apply Hnew. exact HRT0.
Qed.

Lemma foldM_build_facts SeaLog (es : ValueMap) : forall H w H' w' done,
  foldM (build_harness_function SeaLog) H es w = Some (H', w') ->
  blocks_known H done -> stubs_present H done ->
  extends H H' /\
  w' = with_errs w (concat_strings (map (entry_diag SeaLog) es)) /\
  blocks_known H' (done ++ es) /\ stubs_present H' (done ++ es).
Proof.
  induction es as [|[CF vs] es IH]; intros H w H' w' done Hrun Hk Hp.
  - inversion Hrun; subst. rewrite List.app_nil_r, with_errs_empty.
    split; [apply extends_refl|]. repeat split; assumption.
  - cbn [foldM] in Hrun. unfold bind in Hrun.
    destruct (build_harness_function SeaLog H (CF, vs) w) as [[H1 w1]|] eqn:E;
      [|discriminate].
    pose proof (step_blocks_known _ _ _ _ _ _ _ _ E Hk) as Hk1.
    pose proof (step_stubs_present _ _ _ _ _ _ _ _ E Hp) as Hp1.
    destruct (step_facts _ _ _ _ _ _ _ E) as (Hext & -> & _).
    destruct (IH H1 _ H' w' _ Hrun Hk1 Hp1) as (Hext' & -> & Hk' & Hp').
    rewrite <- app_assoc in Hk', Hp'. cbn [app] in Hk', Hp'.
    split; [eapply extends_trans; eassumption|].
    split; [cbn [map concat_strings fold_right]; now rewrite with_errs_app|].
    split; assumption.
Qed.

(* ===================================================================== *)
(** ** createLLVMHarness: the scan of the trace *)
(* ===================================================================== *)

Lemma lookup_push_back_at m CF V F :
  lookup (push_back_at m CF V) F
  = if Function_eq_dec CF F then Some (values_of m CF ++ [V]) else lookup m F.
Proof.
  unfold values_of, lookup.
  induction m as [|[k vs] m IH]; simpl.
  - destruct (Function_eq_dec CF F); reflexivity.
  - destruct (Function_eq_dec k CF) as [->|Hk]; simpl.
    + destruct (Function_eq_dec CF F) as [->|]; simpl.
      * destruct (Function_eq_dec F F); [reflexivity | contradiction].
      * destruct (Function_eq_dec CF F); [contradiction | reflexivity].
    + destruct (Function_eq_dec k F) as [->|HkF]; simpl.
      * destruct (Function_eq_dec CF F); [congruence | reflexivity].
      * exact IH.
Qed.

Lemma values_of_push_back_at m CF V F :
  values_of (push_back_at m CF V) F
  = values_of m F ++ (if Function_eq_dec CF F then [V] else []).
Proof.
  unfold values_of at 1. rewrite lookup_push_back_at.
  destruct (Function_eq_dec CF F) as [->|]; [reflexivity|].
  fold (values_of m F). now rewrite List.app_nil_r.
Qed.

Lemma keys_push_back_at m CF V :
  map fst (push_back_at m CF V)
  = if in_dec Function_eq_dec CF (map fst m) then map fst m else map fst m ++ [CF].
Proof.
  induction m as [|[k vs] m IH]; simpl; [reflexivity|].
  destruct (Function_eq_dec k CF) as [->|Hk]; simpl; [reflexivity|].
  rewrite IH. destruct (in_dec Function_eq_dec CF (map fst m)); reflexivity.
Qed.

Lemma push_back_at_entries m CF V :
  original_function CF = true ->
  Forall (fun kv => original_function (fst kv) = true /\ snd kv <> []) m ->
  Forall (fun kv => original_function (fst kv) = true /\ snd kv <> [])
         (push_back_at m CF V).
Proof.
  intros HCF. induction m as [|[k vs] m IH]; intros Hall; simpl.
  - constructor; [|constructor]. split; [exact HCF | discriminate].
  - inversion Hall as [|? ? [Hk Hvs] Hrest]; subst.
    destruct (Function_eq_dec k CF) as [->|Hne].
    + constructor; [|exact Hrest]. split; [exact HCF|].
      cbn [snd]. intros E. apply app_eq_nil in E. destruct E; discriminate.
    + constructor; [split; assumption | apply IH; exact Hrest].
Qed.

Lemma push_back_at_well_formed m CF V :
  original_function CF = true -> well_formed_map m ->
  well_formed_map (push_back_at m CF V).
Proof.
  intros HCF [Hnd Hall]. split; [|apply push_back_at_entries; assumption].
  rewrite keys_push_back_at.
  destruct (in_dec Function_eq_dec CF (map fst m)) as [Hin|Hout]; [exact Hnd|].
  apply NoDup_app; [exact Hnd | repeat constructor; intros [] |].
  intros x Hx [<- | []]. exact (Hout Hx).
Qed.

Lemma record_call_well_formed trace loc m I :
  well_formed_map m -> well_formed_map (record_call trace loc m I).
Proof.
  intros Hm. unfold record_call.
  destruct I as [id [CF|]|id]; try exact Hm.
  destruct (trace_eval trace loc _); [|exact Hm].
  fold (original_function CF).
  destruct (original_function CF) eqn:E; [|exact Hm].
  apply push_back_at_well_formed; assumption.
Qed.

Lemma record_call_values trace loc m I F :
  values_of (record_call trace loc m I) F
  = values_of m F ++
    (if original_function F then call_value trace F loc I else []).
Proof.
  unfold record_call, call_value.
  destruct I as [id [CF|]|id];
    try (destruct (original_function F); now rewrite List.app_nil_r).
  destruct (trace_eval trace loc _) as [V|].
  - fold (original_function CF). destruct (original_function CF) eqn:E.
    + rewrite values_of_push_back_at.
      destruct (Function_eq_dec CF F) as [->|].
      * now rewrite E.
      * destruct (original_function F); reflexivity.
    + destruct (Function_eq_dec CF F) as [->|].
      * rewrite E. now rewrite List.app_nil_r.
      * destruct (original_function F); now rewrite List.app_nil_r.
  - destruct (Function_eq_dec CF F); destruct (original_function F);
      now rewrite List.app_nil_r.
Qed.

Lemma scan_block trace loc F (insts : list Instruction) : forall m,
  well_formed_map m ->
  well_formed_map (fold_left (record_call trace loc) insts m) /\
  values_of (fold_left (record_call trace loc) insts m) F
  = values_of m F ++
    (if original_function F then flat_map (call_value trace F loc) insts else []).
Proof.
  induction insts as [|I insts IH]; intros m Hm; simpl.
  - split; [exact Hm|]. destruct (original_function F); now rewrite List.app_nil_r.
  - destruct (IH _ (record_call_well_formed trace loc m I Hm)) as [Hwf Hv].
    split; [exact Hwf|]. rewrite Hv, record_call_values, <- app_assoc.
    f_equal. destruct (original_function F); reflexivity.
Qed.

Lemma scan_steps trace F (locs : list nat) : forall m,
  well_formed_map m ->
  let m' := fold_left
              (fun FuncValueMap loc =>
                 fold_left (record_call trace loc) (bb_insts (trace_bb trace loc))
                           FuncValueMap) locs m in
  well_formed_map m' /\
  values_of m' F
  = values_of m F ++
    (if original_function F
     then flat_map (fun loc => flat_map (call_value trace F loc)
                                 (bb_insts (trace_bb trace loc))) locs
     else []).
Proof.
  induction locs as [|loc locs IH]; intros m Hm; simpl.
  - split; [exact Hm|]. destruct (original_function F); now rewrite List.app_nil_r.
  - destruct (scan_block trace loc F (bb_insts (trace_bb trace loc)) m Hm) as [Hwf Hv].
    destruct (IH _ Hwf) as [Hwf' Hv'].
    split; [exact Hwf'|]. rewrite Hv', Hv, <- app_assoc.
    f_equal. destruct (original_function F); reflexivity.
Qed.

Lemma scan_trace_facts trace F :
  well_formed_map (scan_trace trace) /\
  values_of (scan_trace trace) F
  = if original_function F then observations trace F else [].
Proof.
  unfold scan_trace, observations.
  destruct (scan_steps trace F (seq 0 (trace_size trace)) []) as [Hwf Hv].
  - split; constructor.
  - split; [exact Hwf | exact Hv].
Qed.

Lemma scan_trace_well_formed trace : well_formed_map (scan_trace trace).
Proof.
  unfold scan_trace.
  assert (Hgen : forall locs m, well_formed_map m ->
            well_formed_map
              (fold_left
                 (fun FuncValueMap loc =>
                    fold_left (record_call trace loc)
                      (bb_insts (trace_bb trace loc)) FuncValueMap) locs m)).
  { induction locs as [|loc locs IH]; intros m Hm; simpl; [exact Hm|].
    apply IH. revert m Hm.
    induction (bb_insts (trace_bb trace loc)) as [|I insts IHi]; intros m Hm; simpl;
      [exact Hm|].
    apply IHi. apply record_call_well_formed. exact Hm. }
  apply Hgen. split; constructor.
Qed.

Lemma lookup_In m F vs : lookup m F = Some vs -> In (F, vs) m.
Proof.
  unfold lookup.
  destruct (find _ m) as [[k v]|] eqn:E; [|discriminate].
  intros Heq. inversion Heq; subst. apply find_some in E. destruct E as [Hin Hk].
  cbn [fst] in Hk. destruct (Function_eq_dec k F) as [->|]; [exact Hin | discriminate].
Qed.

Lemma In_lookup m F vs :
  NoDup (map fst m) -> In (F, vs) m -> lookup m F = Some vs.
Proof.
  unfold lookup. induction m as [|[k v] m IH]; intros Hnd Hin; [destruct Hin|].
  inversion Hnd as [|? ? Hk Hnd']; subst. simpl.
  destruct (Function_eq_dec k F) as [->|Hne].
  - destruct Hin as [Heq | Hin]; [now inversion Heq|].
    exfalso. apply Hk. change F with (fst (F, vs)). now apply in_map.
  - destruct Hin as [Heq | Hin]; [inversion Heq; congruence|]. now apply IH.
Qed.

(** The entries of the map are the callees that pass the filter and have an
    evaluable call, each with its observations. *)
Lemma scan_trace_entries trace F vs :
  In (F, vs) (scan_trace trace) <->
  original_function F = true /\ vs = observations trace F /\ vs <> [].
Proof.
  destruct (scan_trace_facts trace F) as [[Hnd Hall] Hv]. split.
  - intros Hin. pose proof (In_lookup _ _ _ Hnd Hin) as Hl.
    rewrite Forall_forall in Hall. destruct (Hall _ Hin) as [Horig Hne].
    cbn [fst snd] in *. unfold values_of in Hv. rewrite Hl, Horig in Hv.
    repeat split; assumption.
  - intros (Horig & -> & Hne). apply lookup_In.
    unfold values_of in Hv. rewrite Horig in Hv.
    destruct (lookup (scan_trace trace) F) as [vs|]; [now subst | congruence].
Qed.

(** X4: the map built by the first loop has one entry for each callee that
    passes the filter and has a call on the trace whose value can be
    evaluated, and the entry holds those values in trace order. *)
Theorem map_entries_are_observations :
  forall (trace : BmcTrace) (F : Function) (vs : ExprVector),
    In (F, vs) (scan_trace trace) <->
    original_function F = true /\ vs = observations trace F /\ vs <> [].
Proof. exact scan_trace_entries. Qed.

(** The order of the buckets is a permutation of the entries. *)
Lemma insert_by_bucket_perm bucket kv m :
  Permutation (insert_by_bucket bucket kv m) (kv :: m).
Proof.
  induction m as [|kv' m IH]; simpl; [reflexivity|].
  destruct (bucket (fst kv) <=? bucket (fst kv'))%N; [reflexivity|].
  rewrite IH. apply perm_swap.
Qed.

Lemma bucket_order_perm bucket m : Permutation (bucket_order bucket m) m.
Proof.
  unfold bucket_order. induction m as [|kv m IH]; simpl; [reflexivity|].
  rewrite insert_by_bucket_perm. now constructor.
Qed.

(** *** Declarations and global variables of the module *)

Lemma extends_function H H' f :
  extends H H' -> In f (m_functions H) ->
  exists f', In f' (m_functions H') /\ same_header f f' /\
             forall B, In B (hf_blocks f) -> In B (hf_blocks f').
Proof.
  intros [_ Hfs] Hin. destruct (In_nth_error _ _ Hin) as [i Hi].
  destruct (Hfs i f Hi) as (f' & Hi' & Hh & bs & Hbs).
  exists f'. split; [eapply nth_error_In; eassumption|]. split; [exact Hh|].
  intros B HB. rewrite Hbs. apply in_or_app. left. exact HB.
Qed.

Lemma owned_extends H H' i : extends H H' -> owned H i -> owned H' i.
Proof.
  intros Hext (f & B & c & a & p & n & Hf & HB & Heq & Hi).
  destruct (extends_function _ _ _ Hext Hf) as (f' & Hf' & _ & Hblocks).
  exists f', B, c, a, p, n. repeat split; auto.
Qed.

Lemma step_module SeaLog H CF vs w H' w' :
  build_harness_function SeaLog H (CF, vs) w = Some (H', w') ->
  (exists f, In f (m_functions H') /\ hf_name f = F_name CF /\ hf_type f = F_type CF) /\
  (forall i g, nth_error (m_globals H') i = Some g ->
     nth_error (m_globals H) i = Some g \/ owned H' i) /\
  (dyn_cast_IntegerType (getReturnType CF) = None ->
     m_globals H' = m_globals H /\
     (m_functions H' = m_functions H \/
      m_functions H' = m_functions H
                       ++ [mkHFunction (F_name CF) (F_type CF) ExternalLinkage []])).
Proof.
  intros Hrun. pose proof Hrun as Hrun'.
  rewrite build_harness_function_eq in Hrun.
  destruct (getOrInsertFunction H (F_name CF) (F_type CF)) as [H1 [HF|HF]] eqn:E;
    [|discriminate].
  destruct (getOrInsertFunction_extends _ _ _ _ _ E) as (Hext & f0 & Hf0 & Hn0 & Ht0).
  destruct (getOrInsertFunction_function _ _ _ _ _ E) as [Hg Hcases].
  destruct (dyn_cast_IntegerType (getReturnType CF)) as [RT|] eqn:Hrt;
    inversion Hrun; subst; clear Hrun.
  - split; [|split; [|discriminate]].
    + destruct (add_stub_new_block H1 HF RT (stored RT vs) f0 Hf0)
        as (f' & Hin & Hname & _).
      destruct (add_stub_extends H1 HF RT (stored RT vs)) as [_ Hfs].
      destruct (Hfs HF f0 Hf0) as (f'' & Hf'' & (Hn & Ht & _) & _).
      exists f''. split; [eapply nth_error_In; eassumption|]. split; congruence.
    + intros i g Hi. rewrite add_stub_globals in Hi.
      destruct (Nat.lt_ge_cases i (length (m_globals H1))) as [Hlt|Hge].
      * left. rewrite nth_error_app1 in Hi by exact Hlt. rewrite <- Hg. exact Hi.
      * right.
        destruct (add_stub_new_block H1 HF RT (stored RT vs) f0 Hf0)
          as (f' & Hin & _ & HB).
        assert (Hlen : (i < length (m_globals H1) + 2)%nat).
        { assert (Hs : nth_error (m_globals H1 ++
                         [array_variable RT (stored RT vs); counter_variable]) i
                       <> None) by (rewrite Hi; discriminate).
          apply nth_error_Some in Hs. rewrite length_app in Hs. exact Hs. }
        eexists f', _, _, _, _, _. split; [exact Hin|]. split; [exact HB|].
        split; [reflexivity|]. lia.
  - split; [|split].
    + exists f0. split; [eapply nth_error_In; eassumption|]. split; assumption.
    + intros i g Hi. left. rewrite <- Hg. exact Hi.
    + intros _. split; [exact Hg|].
      destruct Hcases as [[-> _] | (_ & _ & Hfs)]; [left | right]; [reflexivity | exact Hfs].
Qed.

Lemma foldM_build_module SeaLog (es : ValueMap) : forall H w H' w' done,
  foldM (build_harness_function SeaLog) H es w = Some (H', w') ->
  declared H done -> globals_owned H ->
  declared H' (done ++ es) /\ globals_owned H'.
Proof.
  induction es as [|[CF vs] es IH]; intros H w H' w' done Hrun Hd Hg.
  - inversion Hrun; subst. rewrite List.app_nil_r. split; assumption.
  - cbn [foldM] in Hrun. unfold bind in Hrun.
    destruct (build_harness_function SeaLog H (CF, vs) w) as [[H1 w1]|] eqn:E;
      [|discriminate].
    destruct (step_facts _ _ _ _ _ _ _ E) as (Hext & _).
    destruct (step_module _ _ _ _ _ _ _ E) as (Hdecl & Hglob & _).
    assert (Hd1 : declared H1 (done ++ [(CF, vs)])).
    { intros CF0 vs0 Hin. apply in_app_or in Hin. destruct Hin as [Hin | [Heq | []]].
      - destruct (Hd CF0 vs0 Hin) as (f & Hf & Hn & Ht).
        destruct (extends_function _ _ _ Hext Hf) as (f' & Hf' & (Hn' & Ht' & _) & _).
        exists f'. split; [exact Hf'|]. split; congruence.
      - inversion Heq; subst. exact Hdecl. }
    assert (Hg1 : globals_owned H1).
    { intros i g Hi. destruct (Hglob i g Hi) as [Hold | Hnew]; [|exact Hnew].
      eapply owned_extends; [exact Hext|]. eapply Hg. exact Hold. }
    destruct (IH H1 _ H' w' _ Hrun Hd1 Hg1) as (Hd' & Hg').
    rewrite <- app_assoc in Hd'. split; assumption.
Qed.

(** Everything the two loops establish about the finished module. *)
Lemma createLLVMHarness_facts SeaLog bucket trace w H w' :
  createLLVMHarness SeaLog bucket trace w = Some (H, w') ->
  let es := bucket_order bucket (scan_trace trace) in
  w' = with_errs w (concat_strings (map (entry_diag SeaLog) es)) /\
  blocks_known H es /\ stubs_present H es /\ declared H es /\ globals_owned H.
Proof.
  intros Hrun es. unfold createLLVMHarness in Hrun. fold es in Hrun.
  destruct (foldM_build_facts SeaLog es _ w H w' [] Hrun) as (_ & Hw & Hk & Hp).
  - intros f B [].
  - intros CF vs RT [].
  - destruct (foldM_build_module SeaLog es _ w H w' [] Hrun) as (Hd & Hg).
    + intros CF vs [].
    + intros [|i] g Hi; discriminate.
    + repeat split; assumption.
Qed.

(** An entry is visited when the callee passes the filter and has an
    evaluable call on the trace. *)
Lemma visited_entry bucket trace F vs :
  In (F, vs) (bucket_order bucket (scan_trace trace)) <->
  original_function F = true /\ vs = observations trace F /\ vs <> [].
Proof.
  rewrite <- scan_trace_entries. split; apply Permutation_in.
  - apply bucket_order_perm.
  - apply Permutation_sym, bucket_order_perm.
Qed.

(* ===================================================================== *)
(** ** createLLVMHarness returns a module *)
(* ===================================================================== *)

Lemma name_taken_false fs n :
  (forall f, In f fs -> hf_name f <> n) -> name_taken fs n = false.
Proof.
  intros H. unfold name_taken. induction fs as [|f fs IH]; simpl; [reflexivity|].
  rewrite IH by (intros g Hg; apply H; right; exact Hg).
  destruct (String.eqb_spec (hf_name f) n) as [E|]; [|reflexivity].
  exfalso. apply (H f); [left; reflexivity | exact E].
Qed.

Lemma find_index_existsb {A} (p : A -> bool) (l : list A) :
  existsb p l = false -> find_index p l = None.
Proof.
  induction l as [|x l IH]; simpl; [reflexivity|].
  destruct (p x); simpl; [discriminate|]. intros H. now rewrite IH.
Qed.

Lemma step_succeeds SeaLog H CF vs w done :
  names_known H done ->
  (forall CF0 vs0, In (CF0, vs0) done -> F_name CF0 <> F_name CF) ->
  prefix "get_value_" (F_name CF) = false ->
  exists H' w',
    build_harness_function SeaLog H (CF, vs) w = Some (H', w') /\
    names_known H' (done ++ [(CF, vs)]).
Proof.
  intros Hk Hfresh Hpre.
  assert (Hfree : name_taken (m_functions H) (F_name CF) = false).
  { apply name_taken_false. intros f Hf Hn.
    destruct (Hk f Hf) as [(CF0 & vs0 & Hin & Hn0) | Hp].
    - apply (Hfresh CF0 vs0 Hin). congruence.
    - rewrite Hn in Hp. congruence. }
  assert (Hins : getOrInsertFunction H (F_name CF) (F_type CF)
                 = (mkModule (m_name H)
                      (m_functions H ++ [mkHFunction (F_name CF) (F_type CF) ExternalLinkage []])
                      (m_globals H) (m_LastUnique H),
                    IsFunction (length (m_functions H)))).
  { unfold getOrInsertFunction, getNamedValue.
    rewrite (find_index_existsb _ _ Hfree). unfold Function_Create.
    rewrite Hfree. reflexivity. }
  rewrite build_harness_function_eq, Hins.
  set (H1 := mkModule _ _ _ _).
  assert (Hk1 : forall f, In f (m_functions H1) ->
            (exists CF0 vs0, In (CF0, vs0) (done ++ [(CF, vs)]) /\ hf_name f = F_name CF0)
            \/ prefix "get_value_" (hf_name f) = true).
  { intros f Hf. unfold H1 in Hf. cbn [m_functions] in Hf.
    apply in_app_or in Hf. destruct Hf as [Hf | [<- | []]].
    - destruct (Hk f Hf) as [(CF0 & vs0 & Hin & Hn0) | Hp]; [left | right; exact Hp].
      exists CF0, vs0. split; [apply in_or_app; left; exact Hin | exact Hn0].
    - left. exists CF, vs. split; [apply in_or_app; right; left; reflexivity | reflexivity]. }
  destruct (dyn_cast_IntegerType (getReturnType CF)) as [RT|].
  - eexists _, _. split; [reflexivity|].
    intros f Hf.
    destruct (add_stub_functions H1 (length (m_functions H)) RT (stored RT vs))
      as [suffix Hfs].
    rewrite Hfs in Hf.
    assert (Hsrc : exists f1, In f1 (m_functions H1 ++
                     [mkHFunction ("get_value_" ++ print_IntegerType RT ++ suffix)
                        (provider_type RT)
                        ExternalLinkage []]) /\ hf_name f = hf_name f1).
    { destruct (In_update_nth _ _ _ _ Hf) as [(i & _ & Hi) | (x & Hx & ->)].
      - exists f. split; [eapply nth_error_In; eassumption | reflexivity].
      - exists x. split; [eapply nth_error_In; eassumption | reflexivity]. }
    destruct Hsrc as (f1 & Hin1 & ->).
    apply in_app_or in Hin1. destruct Hin1 as [Hin1 | [<- | []]].
    + apply Hk1. exact Hin1.
    + right. reflexivity.
  - eexists _, _. split; [reflexivity|]. exact Hk1.
Qed.

Lemma foldM_build_succeeds SeaLog (es : ValueMap) : forall H w done,
  names_known H done ->
  NoDup (map (fun kv => F_name (fst kv)) (done ++ es)) ->
  Forall (fun kv => prefix "get_value_" (F_name (fst kv)) = false) es ->
  exists H' w', foldM (build_harness_function SeaLog) H es w = Some (H', w').
Proof.
  induction es as [|[CF vs] es IH]; intros H w done Hk Hnd Hpre.
  - eexists _, _. reflexivity.
  - inversion Hpre as [|? ? Hp Hpre']; subst. cbn [fst] in Hp.
    destruct (step_succeeds SeaLog H CF vs w done Hk) as (H1 & w1 & E & Hk1).
    + intros CF0 vs0 Hin Heq.
      rewrite map_app in Hnd. cbn [map fst] in Hnd.
      apply NoDup_remove_2 in Hnd. apply Hnd. apply in_or_app. left.
      rewrite <- Heq. change (F_name CF0) with ((fun kv : Function * ExprVector => F_name (fst kv)) (CF0, vs0)).
      apply in_map. exact Hin.
    + exact Hp.
    + cbn [foldM]. unfold bind. rewrite E.
      apply (IH H1 w1 (done ++ [(CF, vs)])); [exact Hk1 | | exact Hpre'].
      rewrite <- app_assoc. exact Hnd.
Qed.

Lemma NoDup_map_injective {A B} (g : A -> B) (l : list A) :
  NoDup l -> (forall x y, In x l -> In y l -> g x = g y -> x = y) ->
  NoDup (map g l).
Proof.
  induction 1 as [|x l Hx Hnd IH]; intros Hinj; simpl; constructor.
  - intros Hin. apply in_map_iff in Hin. destruct Hin as (y & Hy & Hin).
    assert (y = x) by (apply Hinj; [right; exact Hin | left; reflexivity | exact Hy]).
    subst. contradiction.
  - apply IH. intros a b Ha Hb. apply Hinj; right; assumption.
Qed.

Lemma createLLVMHarness_succeeds SeaLog bucket trace w :
  distinct_names trace -> no_provider_name trace ->
  exists H w', createLLVMHarness SeaLog bucket trace w = Some (H, w').
Proof.
  intros Hdist Hnop. unfold createLLVMHarness.
  set (es := bucket_order bucket (scan_trace trace)).
  assert (Hrec : forall F vs, In (F, vs) es -> recorded trace F).
  { intros F vs Hin. apply visited_entry in Hin. destruct Hin as (Ho & -> & Hne).
    split; assumption. }
  apply (foldM_build_succeeds SeaLog es _ w []).
  - intros f [].
  - cbn [app].
    assert (Hnd : NoDup (map fst es)).
    { eapply Permutation_NoDup; [apply Permutation_sym, Permutation_map, bucket_order_perm|].
      apply (scan_trace_well_formed trace). }
    rewrite <- (map_map fst F_name).
    apply NoDup_map_injective; [exact Hnd|].
    intros F G HF HG. apply in_map_iff in HF, HG.
    destruct HF as ([F' vs] & <- & HF), HG as ([G' vs'] & <- & HG). cbn [fst].
    apply Hdist; eapply Hrec; eassumption.
  - apply Forall_forall. intros [F vs] Hin. cbn [fst]. eapply Hnop, Hrec, Hin.
Qed.

(* ===================================================================== *)
(** ** createLLVMHarness: the finished module *)
(* ===================================================================== *)

Lemma length_observations trace F :
  length (observations trace F) = evaluable_calls trace F.
Proof.
  unfold observations, evaluable_calls. rewrite length_flat_map.
  f_equal. apply map_ext. intros loc.
  induction (bb_insts (trace_bb trace loc)) as [|I insts IH]; [reflexivity|].
  cbn [flat_map filter]. rewrite length_app, IH.
  unfold call_value, evaluable_call.
  destruct I as [id [CF|]|id]; try reflexivity.
  destruct (Function_eq_dec CF F); [|reflexivity].
  destruct (trace_eval trace loc _); reflexivity.
Qed.

(** Every element of the array is pinned by the value it was made of,
    but for the width of the element made of a boolean. *)
Lemma stored_elements RT (vs : ExprVector) :
  Forall2 (fun e c => match e with
                      | MPZ z => c = mkConstantInt RT (z mod 2 ^ Z.pos RT)
                      | OtherExpr _ => c = mkConstantInt RT 0
                      | TRUE => CI_value c = 1
                      | FALSE => CI_value c = 0
                      end)
          vs (stored RT vs).
Proof.
  unfold stored. destruct (packs RT vs);
    (induction vs as [|e vs IH]; cbn [map]; constructor; [|exact IH]);
    destruct e; reflexivity.
Qed.

(** [ConstantArray::get] at three arrays of a callee of 32 bits: made of
    the values 5 and true it packs 5 and 1 on 32 bits; made of false it is
    the zero initializer; made of true it keeps the constant of one bit. *)
Lemma ConstantArray_get_samples :
  ConstantArray_get (ArrayTy (IntegerTy 32) 2) (map (converted 32) [MPZ 5; TRUE])
    = ConstantArray (ArrayTy (IntegerTy 32) 2) [mkConstantInt 32 5; mkConstantInt 32 1]
  /\ ConstantArray_get (ArrayTy (IntegerTy 32) 1) (map (converted 32) [FALSE])
    = ConstantAggregateZero_get (ArrayTy (IntegerTy 32) 1)
  /\ ConstantArray_get (ArrayTy (IntegerTy 32) 1) (map (converted 32) [TRUE])
    = ConstantArray (ArrayTy (IntegerTy 32) 1) [mkConstantInt 1 1].
Proof. repeat split. Qed.

(** C1: the harness is built whenever the recorded callees have distinct
    names, none of them starting with "get_value_".  In the module that is
    built, a callee [F] that passes the filter, returns an integer of [RT]
    bits and has an evaluable call owns a stub named after it, and the
    constant array that stub hands to the provider holds, in trace order,
    one element for each evaluable call of [F] and no other: for an integer
    literal the constant of [RT] bits of its value (modulo two to the [RT],
    so the value itself when it fits), for a value that is not handled the
    constant 0 of [RT] bits, for true an element of value 1 and for false
    one of value 0.  Calls with no resolved callee or no value are not among
    them, and the length of the array is the number of evaluable calls. *)
Theorem harness_array_is_the_observed_values :
  forall (SeaLog : string -> bool) (bucket : Function -> N) (trace : BmcTrace)
         (w : World),
  (distinct_names trace -> no_provider_name trace ->
   exists H w', createLLVMHarness SeaLog bucket trace w = Some (H, w')) /\
  forall H w' F RT,
    createLLVMHarness SeaLog bucket trace w = Some (H, w') ->
    original_function F = true ->
    dyn_cast_IntegerType (getReturnType F) = Some RT ->
    observations trace F <> [] ->
    exists f B c a p elts,
      In f (m_functions H) /\ hf_name f = F_name F /\ In B (hf_blocks f) /\
      B = stub_block c a p (length elts) /\
      nth_error (m_globals H) a
        = Some (mkGlobalVariable (ArrayTy (IntegerTy RT) (length elts)) true
                  PrivateLinkage
                  (ConstantArray (ArrayTy (IntegerTy RT) (length elts)) elts)) /\
      Forall2 (fun e c => match e with
                          | MPZ z => c = mkConstantInt RT (z mod 2 ^ Z.pos RT)
                          | OtherExpr _ => c = mkConstantInt RT 0
                          | TRUE => CI_value c = 1
                          | FALSE => CI_value c = 0
                          end)
              (observations trace F) elts /\
      length elts = evaluable_calls trace F.
Proof.
  intros SeaLog bucket trace w. split; [apply createLLVMHarness_succeeds|].
  intros H w' F RT Hrun Horig HRT Hobs.
  destruct (createLLVMHarness_facts _ _ _ _ _ _ Hrun) as (_ & _ & Hpresent & _).
  destruct (Hpresent F (observations trace F) RT) as (f & B & Hf & HB & Hname & Hstub);
    [apply visited_entry; repeat split; assumption | exact HRT |].
  destruct Hstub as (c & a & p & pf & suffix & HBeq & Ha & _).
  exists f, B, c, a, p, (stored RT (observations trace F)).
  rewrite length_stored.
  unfold array_variable in Ha. rewrite length_stored in Ha.
  repeat split; try assumption.
  - apply stored_elements.
  - apply length_observations.
Qed.

(** C1 at the sample trace and its callee [f], called four times, three of
    them with a value: 42, -1 and a value that is not handled. *)
Lemma harness_array_is_the_observed_values_witness :
  exists H w',
    createLLVMHarness Sample.log_none Sample.by_address Sample.trace world0
      = Some (H, w') /\
    exists f B c a p,
      In f (m_functions H) /\ hf_name f = "f" /\ In B (hf_blocks f) /\
      B = stub_block c a p 3 /\
      nth_error (m_globals H) a
        = Some (mkGlobalVariable (ArrayTy (IntegerTy 32) 3) true PrivateLinkage
                  (ConstantArray (ArrayTy (IntegerTy 32) 3)
                     [mkConstantInt 32 42; mkConstantInt 32 4294967295;
                      mkConstantInt 32 0])).
Proof.
  destruct (createLLVMHarness Sample.log_none Sample.by_address Sample.trace world0)
    as [[H w']|] eqn:E; [|vm_compute in E; discriminate].
  exists H, w'. split; [reflexivity|].
  destruct (proj2 (harness_array_is_the_observed_values
                     Sample.log_none Sample.by_address Sample.trace world0)
              H w' Sample.f 32%positive E eq_refl eq_refl
              ltac:(vm_compute; discriminate))
    as (f & B & c & a & p & elts & Hf & Hname & HB & HBeq & Ha & Hall & Hlen).
  assert (Hobs : observations Sample.trace Sample.f
                 = [MPZ 42; MPZ (-1); OtherExpr "x"]) by (vm_compute; reflexivity).
  rewrite Hobs in Hall. subst B.
  inversion Hall as [|e1 c1 l1 r1 H1 Hall1]; subst.
  inversion Hall1 as [|e2 c2 l2 r2 H2 Hall2]; subst.
  inversion Hall2 as [|e3 c3 l3 r3 H3 Hall3]; subst.
  inversion Hall3; subst.
  exists f, (stub_block c a p 3), c, a, p.
  split; [exact Hf|]. split; [exact Hname|]. split; [exact HB|].
  split; [reflexivity | exact Ha].
Defined.

Lemma original_function_true CF :
  original_function CF = true ->
  hasName CF = true /\ has_char "." (F_name CF) = false /\
  F_linkage CF = ExternalLinkage.
Proof.
  unfold original_function. intros H.
  apply andb_prop in H. destruct H as [H Hl]. apply andb_prop in H. destruct H as [Hn Hd].
  split; [exact Hn|]. split; [now apply negb_true_iff in Hd|].
  destruct (F_linkage CF); try discriminate. reflexivity.
Qed.

(** C2, as amended: a call site is recorded only if its resolved callee has
    a name, the name has no '.', and the callee has external linkage;
    whether the callee has a body in the module is not looked at.  Every
    function of the harness that has a body bears the name of a recorded
    callee, and every global variable of the harness is the array or the
    counter of such a stub: a callee of another linkage, or with a dotted
    name, gets no stub and no array. *)
Theorem only_external_undotted_callees_are_stubbed :
  forall (SeaLog : string -> bool) (bucket : Function -> N) (trace : BmcTrace)
         (w : World) (H : Module) (w' : World),
  createLLVMHarness SeaLog bucket trace w = Some (H, w') ->
  (forall CF vs, In (CF, vs) (scan_trace trace) ->
     hasName CF = true /\ has_char "." (F_name CF) = false /\
     F_linkage CF = ExternalLinkage) /\
  (forall f B, In f (m_functions H) -> In B (hf_blocks f) ->
     exists CF vs, In (CF, vs) (scan_trace trace) /\ hf_name f = F_name CF) /\
  (forall i g, nth_error (m_globals H) i = Some g ->
     exists f B c a p n,
       In f (m_functions H) /\ In B (hf_blocks f) /\
       B = stub_block c a p n /\ (i = a \/ i = c)).
Proof.
  intros SeaLog bucket trace w H w' Hrun.
  destruct (createLLVMHarness_facts _ _ _ _ _ _ Hrun) as (_ & Hknown & _ & _ & Hglob).
  split; [|split].
  - intros CF vs Hin. apply scan_trace_entries in Hin.
    apply original_function_true. apply Hin.
  - intros f B Hf HB.
    destruct (Hknown f B Hf HB) as (CF & vs & RT & Hin & _ & Hname & _).
    exists CF, vs. split; [|exact Hname].
    eapply Permutation_in; [apply bucket_order_perm | exact Hin].
  - exact Hglob.
Qed.

(** C2 as amended, at the sample trace: the call to [helper], which has
    internal linkage, is not recorded, and the two stubs are those of [f]
    and [g]. *)
Lemma only_external_undotted_callees_are_stubbed_witness :
  exists H w',
    createLLVMHarness Sample.log_none Sample.by_address Sample.trace world0
      = Some (H, w') /\
    (forall vs, ~ In (Sample.helper, vs) (scan_trace Sample.trace)) /\
    (forall f B, In f (m_functions H) -> In B (hf_blocks f) ->
       exists CF vs, In (CF, vs) (scan_trace Sample.trace) /\ hf_name f = F_name CF).
Proof.
  destruct (createLLVMHarness Sample.log_none Sample.by_address Sample.trace world0)
    as [[H w']|] eqn:E; [|vm_compute in E; discriminate].
  exists H, w'. split; [reflexivity|].
  destruct (only_external_undotted_callees_are_stubbed _ _ _ _ _ _ E)
    as (Hrec & Hstub & _).
  split; [|exact Hstub].
  intros vs Hin. destruct (Hrec _ _ Hin) as (_ & _ & Hl). discriminate Hl.
Defined.

(** C2 as stated fails: [defined] has external linkage and a body in the
    module, and a call to it on the trace gets a stub and a value array. *)
Lemma defined_function_is_stubbed :
  F_isDeclaration Sample.defined = false /\
  createLLVMHarness Sample.log_none Sample.by_address
    (Sample.one_call Sample.defined (Some (MPZ 7))) world0
  = Some (mkModule "harness"
            [mkHFunction "defined" (Sample.returns Sample.i32) ExternalLinkage
               [stub_block 1 0 1 1];
             mkHFunction "get_value_i32" (provider_type 32) ExternalLinkage []]
            [array_variable 32 [mkConstantInt 32 7]; counter_variable] 0,
          world0).
Proof. split; vm_compute; reflexivity. Qed.

Lemma concat_strings_app a b :
  concat_strings (a ++ b) = (concat_strings a ++ concat_strings b)%string.
Proof.
  induction a as [|x a IH]; simpl; [reflexivity|]. now rewrite IH, append_assoc.
Qed.

(** C4, as amended: for a recorded callee whose return type is not an
    integer, the line "Skipping non-integer function: " with its name is
    written to [errs ()] and the callee gets no stub: every block of the
    module, with its array (of as many elements as that callee has values),
    its counter and its provider, belongs to a callee that returns an
    integer, and every global variable belongs to such a block.
    A function with the callee's name and type is nevertheless in the
    module, inserted before the return type is looked at; when the recorded
    callees have distinct names it is a declaration without a body. *)
Theorem non_integer_callee_gets_no_stub :
  forall (SeaLog : string -> bool) (bucket : Function -> N) (trace : BmcTrace)
         (w : World) (H : Module) (w' : World) (F : Function),
  createLLVMHarness SeaLog bucket trace w = Some (H, w') ->
  original_function F = true ->
  observations trace F <> [] ->
  dyn_cast_IntegerType (getReturnType F) = None ->
  (exists before after,
     w_errs w' = (w_errs w ++ before ++ "Skipping non-integer function: "
                  ++ F_name F ++ LF ++ after)%string) /\
  (exists f, In f (m_functions H) /\ hf_name f = F_name F /\ hf_type f = F_type F) /\
  (forall f B, In f (m_functions H) -> In B (hf_blocks f) ->
     exists CF vs RT c a p pf suffix elts,
       In (CF, vs) (scan_trace trace) /\
       dyn_cast_IntegerType (getReturnType CF) = Some RT /\
       hf_name f = F_name CF /\
       B = stub_block c a p (length vs) /\
       nth_error (m_globals H) a = Some (array_variable RT elts) /\
       length elts = length vs /\
       nth_error (m_globals H) c = Some counter_variable /\
       nth_error (m_functions H) p = Some pf /\
       hf_type pf = provider_type RT /\
       hf_linkage pf = ExternalLinkage /\
       hf_name pf = ("get_value_" ++ print_IntegerType RT ++ suffix)%string) /\
  (forall i g, nth_error (m_globals H) i = Some g -> owned H i) /\
  (distinct_names trace ->
   forall f, In f (m_functions H) -> hf_name f = F_name F -> hf_blocks f = []).
Proof.
  intros SeaLog bucket trace w H w' F Hrun Horig Hobs Hrt.
  destruct (createLLVMHarness_facts _ _ _ _ _ _ Hrun)
    as (Hw & Hknown & _ & Hdecl & Hglob).
  assert (Hin : In (F, observations trace F) (bucket_order bucket (scan_trace trace)))
    by (apply visited_entry; repeat split; assumption).
  assert (Hknown' : forall f B, In f (m_functions H) -> In B (hf_blocks f) ->
            exists CF vs RT,
              In (CF, vs) (scan_trace trace) /\
              dyn_cast_IntegerType (getReturnType CF) = Some RT /\
              stub_for H CF vs RT f B).
  { intros f B Hf HB. destruct (Hknown f B Hf HB) as (CF & vs & RT & Hc & HRT & Hs).
    exists CF, vs, RT. split; [|split; assumption].
    eapply Permutation_in; [apply bucket_order_perm | exact Hc]. }
  split; [|split; [|split; [|split]]].
  - destruct (in_split _ _ Hin) as (l1 & l2 & Hsplit).
    exists (concat_strings (map (entry_diag SeaLog) l1)),
           (concat_strings (map (entry_diag SeaLog) l2)).
    rewrite Hw, Hsplit, map_app, concat_strings_app. cbn [map concat_strings fold_right].
    unfold entry_diag at 2. cbn [fst snd]. rewrite Hrt. unfold skipping.
    unfold with_errs; cbn [w_errs]. rewrite !append_assoc. reflexivity.
  - exact (Hdecl _ _ Hin).
  - intros f B Hf HB.
    destruct (Hknown' f B Hf HB)
      as (CF & vs & RT & Hc & HRT & Hn & c & a & p & pf & suffix
          & HBeq & Ha & Hcv & Hp & Hpt & Hpl & Hpn).
    exists CF, vs, RT, c, a, p, pf, suffix, (stored RT vs).
    repeat split; try assumption. apply length_stored.
  - exact Hglob.
  - intros Hdist f Hf Hname.
    destruct (hf_blocks f) as [|B bs] eqn:Hb; [reflexivity|]. exfalso.
    destruct (Hknown' f B Hf) as (CF & vs & RT & Hc & HRT & Hn & _);
      [rewrite Hb; left; reflexivity|].
    apply scan_trace_entries in Hc. destruct Hc as (Ho & -> & Hne).
    assert (CF = F).
    { apply Hdist; [split; assumption | split; assumption | congruence]. }
    subst CF. congruence.
Qed.

(** C4 as amended, at a trace that calls the double-valued [h] once. *)
Lemma non_integer_callee_gets_no_stub_witness :
  exists H w',
    createLLVMHarness Sample.log_none Sample.by_address
      (Sample.one_call Sample.h (Some (MPZ 7))) world0 = Some (H, w') /\
    (exists before after,
       w_errs w' = (before ++ "Skipping non-integer function: h" ++ LF ++ after)%string) /\
    (exists f, In f (m_functions H) /\ hf_name f = "h"
               /\ hf_type f = Sample.returns DoubleTy) /\
    (forall f B, In f (m_functions H) -> ~ In B (hf_blocks f)) /\
    m_globals H = [].
Proof.
  destruct (createLLVMHarness Sample.log_none Sample.by_address
              (Sample.one_call Sample.h (Some (MPZ 7))) world0)
    as [[H w']|] eqn:E; [|vm_compute in E; discriminate].
  exists H, w'. split; [reflexivity|].
  destruct (non_integer_callee_gets_no_stub _ _ _ _ _ _ Sample.h E eq_refl
              ltac:(vm_compute; discriminate) eq_refl)
    as ((before & after & Herr) & Hdecl & Hblocks & Hglob & _).
  split; [exists before, after; exact Herr|]. split; [exact Hdecl|].
  assert (Hnone : forall f B, In f (m_functions H) -> ~ In B (hf_blocks f)).
  { intros f B Hf HB.
    destruct (Hblocks f B Hf HB)
      as (CF & vs & RT & c & a & p & pf & suffix & elts & Hin & HRT & _).
    vm_compute in Hin. destruct Hin as [Heq | []]. inversion Heq; subst CF.
    discriminate HRT. }
  split; [exact Hnone|].
  destruct (m_globals H) as [|g gs] eqn:Hg; [reflexivity|]. exfalso.
  destruct (Hglob O g) as (f & B & _ & _ & _ & _ & Hf & HB & _);
    [first [reflexivity | rewrite Hg; reflexivity]|].
  exact (Hnone f B Hf HB).
Defined.

(** C4 as stated fails: the module built for a trace whose only call goes
    to the double-valued [h] holds a declaration of [h]. *)
Lemma skipped_callee_is_declared :
  createLLVMHarness Sample.log_none Sample.by_address
    (Sample.one_call Sample.h (Some (MPZ 7))) world0
  = Some (mkModule "harness"
            [mkHFunction "h" (Sample.returns DoubleTy) ExternalLinkage []] [] 0,
          with_errs world0 ("Skipping non-integer function: h" ++ LF)).
Proof. vm_compute. reflexivity. Qed.

(** C7 at the sample trace, which calls the two 32-bit callees [f] and [g]:
    the functions without a body in the module are two providers, the second
    one renamed by the symbol table. *)
Theorem two_callees_two_providers :
  exists H w',
    createLLVMHarness Sample.log_none Sample.by_address Sample.trace world0
      = Some (H, w') /\
    map hf_name
        (filter (fun f => match hf_blocks f with [] => true | _ => false end)
                (m_functions H))
    = ["get_value_i32"; "get_value_i321"].
Proof.
  destruct (createLLVMHarness Sample.log_none Sample.by_address Sample.trace world0)
    as [[H w']|] eqn:E; [|vm_compute in E; discriminate].
  exists H, w'. split; [reflexivity|].
  vm_compute in E. inversion E. vm_compute. reflexivity.
Qed.

(* ===================================================================== *)
(** ** The diagnostics *)
(* ===================================================================== *)

(** C9, as amended.  The three diagnostics are each one write to
    [errs ()] that ends in a line feed.  An unanalysable procedure is always
    reported, by "WARNING: BmcPass: function '...' never returns" with its
    name.  A callee that is skipped because it does not return an integer is
    always reported, by "Skipping non-integer function: " and its name: the
    line does not start with "WARNING:".  A value that is not handled is
    reported by "WARNING: Not handled value: " and the value itself, not a
    function, and only when logging is on for the tag "cex". *)
Theorem skip_diagnostics :
  forall (SeaLog : string -> bool),
  (forall getAnalysis_CutPointGraph HAVE_CRAB_LLVM solve_result unsatCore_result
          print_Function print_BmcTrace (P : BmcPass) (F : IRFunction) (w : World)
          entry rest,
     irf_blocks F = entry :: rest ->
     (find_return (getAnalysis_CutPointGraph F) F = None \/
      exists dst, find_return (getAnalysis_CutPointGraph F) F = Some dst /\
                  getEdge (getAnalysis_CutPointGraph F)
                    (getCp (getAnalysis_CutPointGraph F) entry) dst = false) ->
     exists w',
       runOnFunction SeaLog getAnalysis_CutPointGraph HAVE_CRAB_LLVM solve_result
         unsatCore_result print_Function print_BmcTrace P F w = Some (false, w') /\
       w_errs w' = (w_errs w ++ "WARNING: BmcPass: function '"
                    ++ F_name (irf_decl F) ++ "' never returns" ++ LF)%string) /\
  (forall (H : Module) (CF : Function) (vs : ExprVector) (w : World) H' w',
     build_harness_function SeaLog H (CF, vs) w = Some (H', w') ->
     dyn_cast_IntegerType (getReturnType CF) = None ->
     w_errs w' = (w_errs w ++ "Skipping non-integer function: "
                  ++ F_name CF ++ LF)%string) /\
  (forall (ty : positive) (s : string) (w : World),
     exists c w',
       exprToLlvm SeaLog ty (OtherExpr s) w = Some (c, w') /\
       w_errs w' = (if SeaLog "cex"
                    then (w_errs w ++ "WARNING: Not handled value: " ++ s ++ LF)%string
                    else w_errs w)).
Proof.
  intros SeaLog. split; [|split].
  - intros cpgA crab solve core pF pT P F w entry rest HF Hskip.
    exists (with_errs w (never_returns F)). split; [|reflexivity].
    exact (runOnFunction_skip SeaLog cpgA crab solve core pF pT P F w entry rest
             HF Hskip).
  - intros H CF vs w H' w' Hrun Hrt.
    destruct (step_facts _ _ _ _ _ _ _ Hrun) as (_ & -> & _).
    unfold entry_diag. cbn [fst]. rewrite Hrt. reflexivity.
  - intros ty s w. eexists _, _. split; [apply exprToLlvm_eq|].
    cbn [not_handled]. destruct (SeaLog "cex"); cbn [with_errs w_errs];
      [reflexivity | apply append_nil_r].
Qed.

(** C9 as amended, at a [main] that only loops, at the double-valued [h],
    and at a value that is not handled with logging on. *)
Lemma skip_diagnostics_witness :
  (exists w',
     runOnFunction Sample.log_all (fun _ => Sample.connected) false
       (fun _ _ => tb_true) Sample.no_core Sample.no_text Sample.no_text
       Sample.pass Sample.spinning world0 = Some (false, w') /\
     w_errs w' = ("WARNING: BmcPass: function 'main' never returns" ++ LF)%string) /\
  (forall H' w',
     build_harness_function Sample.log_all (mkModule "harness" [] [] 0)
       (Sample.h, [MPZ 7]) world0 = Some (H', w') ->
     w_errs w' = ("Skipping non-integer function: h" ++ LF)%string) /\
  (exists c w',
     exprToLlvm Sample.log_all 32 (OtherExpr "x") world0 = Some (c, w') /\
     w_errs w' = ("WARNING: Not handled value: x" ++ LF)%string).
Proof.
  destruct (skip_diagnostics Sample.log_all) as (Hbmc & Hskip & Hvalue).
  split; [|split].
  - exact (Hbmc (fun _ => Sample.connected) false (fun _ _ => tb_true)
             Sample.no_core Sample.no_text Sample.no_text Sample.pass
             Sample.spinning world0 _ _ eq_refl (or_introl eq_refl)).
  - intros H' w' Hrun.
    exact (Hskip (mkModule "harness" [] [] 0) Sample.h [MPZ 7] world0 H' w' Hrun eq_refl).
  - exact (Hvalue 32%positive "x" world0).
Defined.

(** C9 as stated fails twice: the line written for the skipped [h] does not
    start with "WARNING:", and with logging off for "cex" the value that is
    not handled is replaced by 0 without any diagnostic. *)
Lemma skip_diagnostics_claim_fails :
  (exists H w',
     createLLVMHarness Sample.log_all Sample.by_address
       (Sample.one_call Sample.h (Some (MPZ 7))) world0 = Some (H, w') /\
     w_errs w' = ("Skipping non-integer function: h" ++ LF)%string /\
     prefix "WARNING:" (w_errs w') = false) /\
  (exists H w',
     createLLVMHarness Sample.log_none Sample.by_address
       (Sample.one_call Sample.f (Some (OtherExpr "x"))) world0 = Some (H, w') /\
     nth_error (m_globals H) 0 = Some (array_variable 32 [mkConstantInt 32 0]) /\
     w_errs w' = "").
Proof.
  split.
  - destruct (createLLVMHarness Sample.log_all Sample.by_address
                (Sample.one_call Sample.h (Some (MPZ 7))) world0)
      as [[H w']|] eqn:E; vm_compute in E; [|discriminate].
    inversion E; subst. eexists _, _. split; [reflexivity|].
    split; vm_compute; reflexivity.
  - destruct (createLLVMHarness Sample.log_none Sample.by_address
                (Sample.one_call Sample.f (Some (OtherExpr "x"))) world0)
      as [[H w']|] eqn:E; vm_compute in E; [|discriminate].
    inversion E; subst. eexists _, _. split; [reflexivity|].
    split; vm_compute; reflexivity.
Qed.

(* ===================================================================== *)
(** ** The stub at run time *)
(* ===================================================================== *)





Lemma wrap_succ bits v : wrap bits (wrap bits v + 1) = wrap bits (v + 1).
Proof.
  unfold wrap. apply Z.add_mod_idemp_l. apply Z.pow_nonzero; lia.
Qed.

Lemma store_same mem g c : store mem g c g = Some c.
Proof. unfold store. now rewrite Nat.eqb_refl. Qed.

Lemma store_other mem g c g' : g' <> g -> store mem g c g' = mem g'.
Proof. unfold store. intros H. apply Nat.eqb_neq in H. now rewrite H. Qed.

Lemma ConstantInt_get_succ v :
  ConstantInt_get 32 (CI_value (ConstantInt_get 32 v) + CI_value (ConstantInt_get 32 1))
  = ConstantInt_get 32 (v + 1).
Proof.
  unfold ConstantInt_get. cbn [CI_value]. f_equal.
  change (wrap 32 1) with 1. apply wrap_succ.
Qed.

(** One invocation of a stub whose counter holds [v]. *)
Lemma invoke_stub (get_value : Oracle) c a p n st v :
  mach_mem st c = Some (CInt (ConstantInt_get 32 v)) ->
  invoke get_value (stub_block c a p n) st =
    (let args := [RInt (ConstantInt_get 32 v); RPtr a;
                  RInt (ConstantInt_get 32 (Z.of_nat n))] in
     let mem' := store (mach_mem st) c (CInt (ConstantInt_get 32 (v + 1))) in
     Some (get_value (mach_calls st) p args mem',
           mkMachine mem' (mach_calls st ++ [(p, args)]))).
Proof.
  intros Hc. unfold invoke, stub_block.
  cbn [exec_block eval_value eval_values nth_error app]. rewrite Hc.
  cbn [exec_block eval_value eval_values nth_error app CI_bits ConstantInt_get Pos.eqb
       mach_mem mach_calls].
  rewrite ConstantInt_get_succ. reflexivity.
Qed.



Lemma initial_memory_counter H c :
  nth_error (m_globals H) c = Some counter_variable ->
  initial_memory H c = Some (CInt (ConstantInt_get 32 0)).
Proof. unfold initial_memory. intros ->. reflexivity. Qed.


Lemma StubSample_harness_built :
  createLLVMHarness Sample.log_none Sample.by_address
    (Sample.one_call Sample.f (Some (MPZ 7))) world0
  = Some (StubSample.harness, world0).
Proof. vm_compute. reflexivity. Qed.



(* ===================================================================== *)
(** ** BmcPass: the run as a whole *)
(* ===================================================================== *)

Section BmcPassProtocol.

Variable SeaLog : string -> bool.
Variable getAnalysis_CutPointGraph : IRFunction -> CutPointGraph.
Variable HAVE_CRAB_LLVM : bool.
Variable solve_result : bmc_engine_t -> IRFunction -> tribool.
Variable unsatCore_result : IRFunction -> ExprVector.
Variable print_Function : IRFunction -> string.
Variable print_BmcTrace : IRFunction -> string.

Let run := runOnFunction SeaLog getAnalysis_CutPointGraph HAVE_CRAB_LLVM
             solve_result unsatCore_result print_Function print_BmcTrace.
Let runModule := runOnModule SeaLog getAnalysis_CutPointGraph HAVE_CRAB_LLVM
             solve_result unsatCore_result print_Function print_BmcTrace.

Lemma runOnFunction_bodyless (P : BmcPass) (F : IRFunction) (w : World) :
  irf_blocks F = [] -> run P F w = None.
Proof.
  intros HF. unfold run, runOnFunction, getEntryBlock. rewrite HF. reflexivity.
Qed.

(** The two ways [runOnFunction] ends. *)
Lemma runOnFunction_cases (P : BmcPass) (F : IRFunction) (w : World) b w' :
  run P F w = Some (b, w') ->
  b = false /\
  exists entry rest,
    irf_blocks F = entry :: rest /\
    let cpg := getAnalysis_CutPointGraph F in
    ((w' = with_errs w (never_returns F) /\
      (find_return cpg F = None \/
       exists dst, find_return cpg F = Some dst /\
                   getEdge cpg (getCp cpg entry) dst = false))
     \/ exists dst,
          find_return cpg F = Some dst /\
          getEdge cpg (getCp cpg entry) dst = true /\
          w_events w' =
            w_events w ++
            analysis_events SeaLog HAVE_CRAB_LLVM P (getCp cpg entry) dst
              (solve_result (m_engine P) F)).
Proof.
  intros Hrun.
  destruct (irf_blocks F) as [|entry rest] eqn:HF.
  - rewrite (runOnFunction_bodyless P F w HF) in Hrun. discriminate.
  - destruct (find_return (getAnalysis_CutPointGraph F) F) as [dst|] eqn:Hdst.
    + destruct (getEdge (getAnalysis_CutPointGraph F)
                  (getCp (getAnalysis_CutPointGraph F) entry) dst) eqn:Hedge.
      * destruct (runOnFunction_events SeaLog getAnalysis_CutPointGraph HAVE_CRAB_LLVM
                    solve_result unsatCore_result print_Function print_BmcTrace
                    P F w entry rest dst HF Hdst Hedge) as (w1 & Hrun1 & Hev).
        unfold run in Hrun. rewrite Hrun1 in Hrun. inversion Hrun; subst.
        split; [reflexivity|]. exists entry, rest. split; [reflexivity|].
        right. exists dst. repeat split; assumption.
      * pose proof (runOnFunction_skip SeaLog getAnalysis_CutPointGraph HAVE_CRAB_LLVM
                    solve_result unsatCore_result print_Function print_BmcTrace
                    P F w entry rest HF (or_intror (ex_intro _ dst (conj Hdst Hedge))))
          as Hrun1.
        unfold run in Hrun. rewrite Hrun1 in Hrun. inversion Hrun; subst.
        split; [reflexivity|]. exists entry, rest. split; [reflexivity|].
        left. split; [reflexivity|]. right. exists dst. split; assumption.
    + pose proof (runOnFunction_skip SeaLog getAnalysis_CutPointGraph HAVE_CRAB_LLVM
                    solve_result unsatCore_result print_Function print_BmcTrace
                    P F w entry rest HF (or_introl Hdst)) as Hrun1.
      unfold run in Hrun. rewrite Hrun1 in Hrun. inversion Hrun; subst.
      split; [reflexivity|]. exists entry, rest. split; [reflexivity|].
      left. split; [reflexivity|]. left. exact Hdst.
Qed.

Ltac run_step :=
  first [ rewrite bind_emit | rewrite bind_errs | rewrite bind_outs
        | rewrite bind_foldM_errs | rewrite bind_assoc | rewrite bind_ret ].

Lemma runOnFunction_log (P : BmcPass) (F : IRFunction) (w : World)
  entry rest dst :
  irf_blocks F = entry :: rest ->
  let cpg := getAnalysis_CutPointGraph F in
  find_return cpg F = Some dst ->
  getEdge cpg (getCp cpg entry) dst = true ->
  exists w',
    run P F w = Some (false, w') /\
    w_errs w' =
      (w_errs w ++
       analysis_log SeaLog P (getCp cpg entry) dst (solve_result (m_engine P) F)
         (unsatCore_result F) (print_Function F) (print_BmcTrace F))%string.
Proof.
  intros HF cpg Hdst Hedge. unfold run, runOnFunction, getEntryBlock.
  rewrite HF. rewrite bind_ret. fold cpg.
  rewrite Hdst, Hedge. cbn [negb].
  unfold analysis_log, new_engine, LOG.
  destruct P as [eng out slv]. cbn [m_engine m_out m_solve].
  set (res := solve_result eng F). clearbody res.
  destruct eng, HAVE_CRAB_LLVM, out as [os|], slv, (SeaLog "bmc"), (SeaLog "cex"), res;
    cbn [negb andb tribool_true tribool_not_true]; cbv zeta;
    repeat run_step;
    (eexists; split; [reflexivity|]);
    cbn [w_errs with_event with_errs with_outs];
    rewrite ?append_assoc, ?append_nil_r; reflexivity.
Qed.

Lemma analysis_events_requests (P : BmcPass) src dst res e id :
  In e (analysis_events SeaLog HAVE_CRAB_LLVM P src dst res) ->
  requested_analysis e = Some id ->
  m_engine P = path_bmc /\
  (id = TargetLibraryInfoWrapperPass_ID
   \/ (id = CrabLlvmPass_ID /\ HAVE_CRAB_LLVM = true)).
Proof.
  unfold analysis_events, engine_events, solve_events. intros Hin Hreq.
  repeat (apply in_app_or in Hin; destruct Hin as [Hin | Hin]).
  - cbn in Hin. repeat (destruct Hin as [<- | Hin]; [discriminate|]). destruct Hin.
  - destruct (m_engine P); [cbn in Hin; destruct Hin as [<- | []]; discriminate|].
    split; [reflexivity|].
    destruct HAVE_CRAB_LLVM; cbn in Hin;
      repeat (destruct Hin as [<- | Hin];
              [cbn in Hreq; first [discriminate | inversion Hreq; subst; tauto]|]);
      destruct Hin.
  - cbn in Hin. repeat (destruct Hin as [<- | Hin]; [discriminate|]). destruct Hin.
  - destruct (m_out P); cbn in Hin; [destruct Hin as [<- | []]; discriminate | destruct Hin].
  - destruct (m_solve P); [|destruct Hin].
    repeat (apply in_app_or in Hin; destruct Hin as [Hin | Hin]).
    + cbn in Hin. repeat (destruct Hin as [<- | Hin]; [discriminate|]). destruct Hin.
    + destruct res; cbn in Hin;
        repeat (destruct Hin as [<- | Hin]; [discriminate|]); destruct Hin.
    + destruct (SeaLog "bmc" && tribool_not_true res); cbn in Hin;
        repeat (destruct Hin as [<- | Hin]; [discriminate|]); destruct Hin.
    + destruct (SeaLog "cex" && tribool_true res); cbn in Hin;
        repeat (destruct Hin as [<- | Hin]; [discriminate|]); destruct Hin.
Qed.

Lemma getAnalysisUsage_Required (AU0 : AnalysisUsage) :
  Required (getAnalysisUsage HAVE_CRAB_LLVM AU0) =
  Required AU0 ++
  [CanFail_ID; NameValues_ID; TopologicalOrder_ID; CutPointGraph_ID;
   TargetLibraryInfoWrapperPass_ID]
  ++ (if HAVE_CRAB_LLVM then [LowerCstExprPass_ID; CrabLlvmPass_ID] else []).
Proof.
  unfold getAnalysisUsage, addRequired, setPreservesAll.
  destruct HAVE_CRAB_LLVM; cbn [Required]; repeat rewrite <- app_assoc; reflexivity.
Qed.

(** X5: the pass asks only for analyses it has declared.  Whichever way
    [runOnFunction] ends, every pass it asks for with [getAnalysis] besides
    the cut-point graph (the target library information, and the Crab pass
    when the sources are compiled with it) is one [getAnalysisUsage] lists
    as required; the cut-point graph is listed too; the usage says that all
    analyses are preserved, and the run reports that nothing was modified. *)
Theorem declared_analyses_cover_requests :
  forall (P : BmcPass) (F : IRFunction) (w : World) (b : bool) (w' : World)
         (AU0 : AnalysisUsage),
  run P F w = Some (b, w') ->
  let AU := getAnalysisUsage HAVE_CRAB_LLVM AU0 in
  PreservesAll AU = true /\ b = false /\
  In CutPointGraph_ID (Required AU) /\
  exists added,
    w_events w' = w_events w ++ added /\
    forall e id, In e added -> requested_analysis e = Some id ->
                 In id (Required AU).
Proof.
  intros P F w b w' AU0 Hrun AU.
  destruct (runOnFunction_cases P F w b w' Hrun) as (Hb & entry & rest & HF & Hcases).
  split; [unfold AU, getAnalysisUsage; destruct HAVE_CRAB_LLVM; reflexivity|].
  split; [exact Hb|].
  unfold AU. rewrite getAnalysisUsage_Required.
  split; [apply in_or_app; right; apply in_or_app; left; cbn; tauto|].
  destruct Hcases as [[-> _] | (dst & _ & _ & Hev)].
  - exists []. split; [cbn; now rewrite List.app_nil_r|]. intros e id [].
  - eexists. split; [exact Hev|]. intros e id Hin Hreq.
    destruct (analysis_events_requests _ _ _ _ _ _ Hin Hreq) as [_ [-> | [-> ->]]];
      apply in_or_app; right; apply in_or_app; [left | right]; cbn; tauto.
Qed.

(** X6: the engine follows the argument given to [createBmcPass].  For a
    procedure that can be analysed, the one engine that is constructed is the
    monolithic one for [mono_bmc] and the path-based one for [path_bmc], the
    latter with the Crab pass exactly when the sources are compiled with it;
    the target library information is asked for with the path-based engine
    only, and the Crab pass with the path-based engine of such a build
    only. *)
Theorem engine_follows_the_constructor_argument :
  forall (engine : bmc_engine_t) (out : option raw_ostream) (solve : bool)
         (F : IRFunction) (w : World) entry rest dst,
  irf_blocks F = entry :: rest ->
  let cpg := getAnalysis_CutPointGraph F in
  find_return cpg F = Some dst ->
  getEdge cpg (getCp cpg entry) dst = true ->
  exists w' added,
    run (createBmcPass engine out solve) F w = Some (false, w') /\
    w_events w' = w_events w ++ added /\
    filter is_engine added =
      [match engine with
       | mono_bmc => New_BmcEngine
       | path_bmc => New_PathBasedBmcEngine HAVE_CRAB_LLVM
       end] /\
    (In Get_TLI added <-> engine = path_bmc) /\
    (In Get_CrabLlvmPass added <-> engine = path_bmc /\ HAVE_CRAB_LLVM = true).
Proof.
  intros engine out solve F w entry rest dst HF cpg Hdst Hedge.
  destruct (runOnFunction_events SeaLog getAnalysis_CutPointGraph HAVE_CRAB_LLVM
              solve_result unsatCore_result print_Function print_BmcTrace
              (createBmcPass engine out solve) F w entry rest dst HF Hdst Hedge)
    as (w' & Hrun & Hev).
  exists w'. eexists. split; [exact Hrun|]. split; [exact Hev|].
  fold cpg. cbn [createBmcPass m_engine].
  set (res := solve_result engine F). clearbody res.
  unfold analysis_events, engine_events, solve_events.
  cbn [createBmcPass m_engine m_out m_solve].
  split; [|split].
  - destruct engine, HAVE_CRAB_LLVM, out, solve, (SeaLog "bmc"), (SeaLog "cex"), res;
      reflexivity.
  - split.
    + intros Hin.
      destruct (analysis_events_requests (createBmcPass engine out solve)
                  (getCp cpg entry) dst res Get_TLI
                  TargetLibraryInfoWrapperPass_ID Hin eq_refl) as [He _]. exact He.
    + intros ->. destruct HAVE_CRAB_LLVM; cbn; tauto.
  - split.
    + intros Hin.
      destruct (analysis_events_requests (createBmcPass engine out solve)
                  (getCp cpg entry) dst res Get_CrabLlvmPass
                  CrabLlvmPass_ID Hin eq_refl) as [He [Hd | [_ Hc]]];
        [discriminate | split; assumption].
    + intros [-> ->]. cbn. tauto.
Qed.

(** X7: [runOnModule] has no guard for a [main] without a body.  It fails,
    taking the entry block of a function that has none, exactly when the
    first function named "main" has no block. *)
Theorem runOnModule_fails_on_a_main_without_body :
  forall (P : BmcPass) (Mod : IRModule) (w : World),
    runModule P Mod w = None <->
    exists F, find is_main Mod = Some F /\ irf_blocks F = [].
Proof.
  intros P Mod w. unfold runModule.
  rewrite (runOnModule_find SeaLog getAnalysis_CutPointGraph HAVE_CRAB_LLVM
             solve_result unsatCore_result print_Function print_BmcTrace P Mod w).
  fold is_main. change (fun F => String.eqb (F_name (irf_decl F)) "main") with is_main.
  destruct (find is_main Mod) as [F|].
  - split.
    + intros Hnone. exists F. split; [reflexivity|].
      destruct (irf_blocks F) as [|entry rest] eqn:HF; [reflexivity|]. exfalso.
      destruct (runOnFunction_returns_false SeaLog getAnalysis_CutPointGraph
                  HAVE_CRAB_LLVM solve_result unsatCore_result print_Function
                  print_BmcTrace P F w) as (w' & Hrun); [rewrite HF; discriminate|].
      rewrite Hrun in Hnone. discriminate.
    + intros (F' & Heq & HF). inversion Heq; subst F'.
      apply runOnFunction_bodyless. exact HF.
  - split; [discriminate|]. intros (F & Heq & _). discriminate.
Qed.

(** X8: the solver call is timed.  In a run of [runOnFunction] the solver
    is called at most once, and then between [Stats::resume ("BMC")] and
    [Stats::stop ("BMC")], which are called once each or not at all; none of
    the three is called in encode-only mode. *)
Theorem solver_call_is_timed :
  forall (P : BmcPass) (F : IRFunction) (w : World) (b : bool) (w' : World),
  run P F w = Some (b, w') ->
  exists added,
    w_events w' = w_events w ++ added /\
    (filter is_timed added = []
     \/ filter is_timed added = [Stats_resume "BMC"; Bmc_solve; Stats_stop "BMC"]) /\
    (m_solve P = false -> filter is_timed added = []).
Proof.
  intros P F w b w' Hrun.
  destruct (runOnFunction_cases P F w b w' Hrun) as (_ & entry & rest & _ & Hcases).
  destruct Hcases as [[-> _] | (dst & _ & _ & Hev)].
  - exists []. split; [cbn; now rewrite List.app_nil_r|]. split; [left|]; reflexivity.
  - eexists. split; [exact Hev|].
    set (res := solve_result (m_engine P) F). clearbody res.
    unfold analysis_events, engine_events, solve_events.
    destruct P as [eng out slv]. cbn [m_engine m_out m_solve].
    split.
    + destruct eng, HAVE_CRAB_LLVM, out, slv, (SeaLog "bmc"), (SeaLog "cex"), res;
        cbn; tauto.
    + intros ->.
      destruct eng, HAVE_CRAB_LLVM, out; reflexivity.
Qed.

(** X9: for a procedure that can be analysed the encoding is produced
    exactly once, whether or not solving is enabled; when a sink was given
    it is written to that sink once, right after the encoding, and otherwise
    it is not written; the solver is not called before. *)
Theorem encoding_is_dumped_to_the_sink :
  forall (P : BmcPass) (F : IRFunction) (w : World) entry rest dst,
  irf_blocks F = entry :: rest ->
  let cpg := getAnalysis_CutPointGraph F in
  find_return cpg F = Some dst ->
  getEdge cpg (getCp cpg entry) dst = true ->
  exists w' pre post,
    run P F w = Some (false, w') /\
    w_events w' =
      w_events w ++ pre ++ [Bmc_encode]
      ++ match m_out P with Some os => [Bmc_toSmtLib os] | None => [] end
      ++ post /\
    filter is_toSmtLib pre = [] /\ filter is_toSmtLib post = [] /\
    filter is_solve pre = [] /\
    ~ In Bmc_encode pre /\ ~ In Bmc_encode post.
Proof.
  intros P F w entry rest dst HF cpg Hdst Hedge.
  destruct (runOnFunction_events SeaLog getAnalysis_CutPointGraph HAVE_CRAB_LLVM
              solve_result unsatCore_result print_Function print_BmcTrace
              P F w entry rest dst HF Hdst Hedge) as (w' & Hrun & Hev).
  fold cpg in Hev.
  set (res := solve_result (m_engine P) F) in Hev. clearbody res.
  exists w',
    ([New_ExprFactory; New_BvSmallSymExec; New_EZ3]
     ++ engine_events HAVE_CRAB_LLVM P
     ++ [Bmc_addCutPoint (getCp cpg entry); Bmc_addCutPoint dst]),
    (if m_solve P then solve_events SeaLog res else []).
  split; [exact Hrun|]. split.
  - rewrite Hev. unfold analysis_events. repeat rewrite <- app_assoc. reflexivity.
  - unfold engine_events, solve_events.
    destruct (m_engine P), HAVE_CRAB_LLVM, (m_solve P), (SeaLog "bmc"), (SeaLog "cex"), res;
      cbn; repeat split; try reflexivity;
      intros Hin; repeat (destruct Hin as [Hin | Hin]; [discriminate Hin|]); exact Hin.
Qed.

(** X10: with logging off for the tags "bmc" and "cex", the run of a
    procedure that can be analysed writes nothing to [errs ()]. *)
Theorem logging_off_is_silent :
  forall (P : BmcPass) (F : IRFunction) (w : World) entry rest dst,
  irf_blocks F = entry :: rest ->
  let cpg := getAnalysis_CutPointGraph F in
  find_return cpg F = Some dst ->
  getEdge cpg (getCp cpg entry) dst = true ->
  SeaLog "bmc" = false -> SeaLog "cex" = false ->
  exists w', run P F w = Some (false, w') /\ w_errs w' = w_errs w.
Proof.
  intros P F w entry rest dst HF cpg Hdst Hedge Hbmc Hcex.
  destruct (runOnFunction_log P F w entry rest dst HF Hdst Hedge) as (w' & Hrun & Herr).
  exists w'. split; [exact Hrun|]. rewrite Herr.
  unfold analysis_log. rewrite Hbmc, Hcex. cbn [andb].
  destruct (m_solve P); cbn; apply append_nil_r.
Qed.

(** X22: the text an analysable run writes to [errs ()] is logging, and
    nothing else.  With logging on for "bmc": the line "BMC from: " with the
    names of the two blocks; then, in encode-only mode, "Stopping before
    solving", and otherwise, for an unsat result, the unsat core between
    "CORE BEGIN" and "CORE END", one expression on a line each.  With logging
    on for "cex" and a sat result: "Analyzed Function:" on a line, the
    function and a line feed, "Trace " on a line, and the trace. *)
Theorem analysable_run_writes_its_log :
  forall (P : BmcPass) (F : IRFunction) (w : World) entry rest dst,
  irf_blocks F = entry :: rest ->
  let cpg := getAnalysis_CutPointGraph F in
  find_return cpg F = Some dst ->
  getEdge cpg (getCp cpg entry) dst = true ->
  exists w',
    run P F w = Some (false, w') /\
    w_errs w' =
      (w_errs w ++
       (if SeaLog "bmc"
        then "BMC from: " ++ cp_bb_name (getCp cpg entry) ++ " to "
             ++ cp_bb_name dst ++ LF
        else "")
       ++
       (if m_solve P then
          (if SeaLog "bmc" && tribool_not_true (solve_result (m_engine P) F)
           then "CORE BEGIN" ++ LF
                ++ concat_strings (map (fun c => print_Expr c ++ LF)
                                       (unsatCore_result F))
                ++ "CORE END" ++ LF
           else "")
          ++
          (if SeaLog "cex" && tribool_true (solve_result (m_engine P) F)
           then "Analyzed Function:" ++ LF ++ print_Function F ++ LF
                ++ "Trace " ++ LF ++ print_BmcTrace F
           else "")
        else
          if SeaLog "bmc" then "Stopping before solving" ++ LF else ""))%string.
Proof.
  intros P F w entry rest dst HF cpg Hdst Hedge.
  destruct (runOnFunction_log P F w entry rest dst HF Hdst Hedge) as (w' & Hrun & Herr).
  exists w'. split; [exact Hrun|]. rewrite Herr. reflexivity.
Qed.

(** X11: the unsat core and the trace are read for logging only.  For a
    procedure that can be analysed, the core is asked for exactly when
    solving is enabled, logging is on for "bmc" and the result is unsat; the
    trace exactly when solving is enabled, logging is on for "cex" and the
    result is sat. *)
Theorem core_and_trace_are_read_for_logging_only :
  forall (P : BmcPass) (F : IRFunction) (w : World) entry rest dst,
  irf_blocks F = entry :: rest ->
  let cpg := getAnalysis_CutPointGraph F in
  find_return cpg F = Some dst ->
  getEdge cpg (getCp cpg entry) dst = true ->
  exists w' added,
    run P F w = Some (false, w') /\
    w_events w' = w_events w ++ added /\
    (In Bmc_unsatCore added <->
     m_solve P = true /\ SeaLog "bmc" = true /\
     solve_result (m_engine P) F = tb_false) /\
    (In Bmc_getTrace added <->
     m_solve P = true /\ SeaLog "cex" = true /\
     solve_result (m_engine P) F = tb_true).
Proof.
  intros P F w entry rest dst HF cpg Hdst Hedge.
  destruct (runOnFunction_events SeaLog getAnalysis_CutPointGraph HAVE_CRAB_LLVM
              solve_result unsatCore_result print_Function print_BmcTrace
              P F w entry rest dst HF Hdst Hedge) as (w' & Hrun & Hev).
  exists w'. eexists. split; [exact Hrun|]. split; [exact Hev|].
  fold cpg. set (res := solve_result (m_engine P) F). clearbody res.
  unfold analysis_events, engine_events, solve_events.
  destruct (m_engine P), HAVE_CRAB_LLVM, (m_out P), (m_solve P),
    (SeaLog "bmc"), (SeaLog "cex"), res;
    cbn; split; split;
    solve
      [ intros Hin;
        repeat (destruct Hin as [Hin | Hin];
                [first [discriminate Hin | repeat split; reflexivity]|]);
        destruct Hin
      | intros (H1 & H2 & H3);
        first [ discriminate H1 | discriminate H2 | discriminate H3
              | repeat first [left; reflexivity | right] ] ].
Qed.

(** X12: the first returning block that is a cut point decides.  Whatever
    follows it in the function, its cut point is the destination; when there
    is no edge to it from the entry cut point the procedure is reported as
    never returning, also when a later returning block could be reached. *)
Theorem first_returning_cut_point_decides :
  forall (P : BmcPass) (F : IRFunction) (w : World) entry rest before bb after,
  irf_blocks F = entry :: rest ->
  irf_blocks F = before ++ bb :: after ->
  let cpg := getAnalysis_CutPointGraph F in
  Forall (fun b => returning_cut_point cpg b = false) before ->
  returning_cut_point cpg bb = true ->
  find_return cpg F = Some (getCp cpg bb) /\
  (getEdge cpg (getCp cpg entry) (getCp cpg bb) = false ->
   run P F w = Some (false, with_errs w (never_returns F))).
Proof.
  intros P F w entry rest before bb after HF Hsplit cpg Hbefore Hbb.
  assert (Hfind : find_return cpg F = Some (getCp cpg bb)).
  { unfold find_return. rewrite Hsplit. fold (returning_cut_point cpg).
    change (fun bb0 => isa_ReturnInst (bb_term bb0) && isCutPoint cpg bb0)
      with (returning_cut_point cpg).
    clear Hsplit.
    induction Hbefore as [|b l Hb _ IH]; cbn [app find].
    - now rewrite Hbb.
    - rewrite Hb. exact IH. }
  split; [exact Hfind|]. intros Hedge.
  apply (runOnFunction_skip SeaLog getAnalysis_CutPointGraph HAVE_CRAB_LLVM
           solve_result unsatCore_result print_Function print_BmcTrace
           P F w entry rest HF).
  right. exists (getCp cpg bb). split; assumption.
Qed.

End BmcPassProtocol.

(** X5 at the sample [main], with the path-based engine in a build with
    Crab: the Crab pass is asked for, and it is required. *)
Lemma declared_analyses_cover_requests_witness :
  exists w',
    runOnFunction Sample.log_all (fun _ => Sample.connected) true
      (fun _ _ => tb_true) Sample.no_core Sample.no_text Sample.no_text
      (mkBmcPass path_bmc None true) Sample.main world0 = Some (false, w') /\
    In Get_CrabLlvmPass (w_events w') /\
    In CrabLlvmPass_ID (Required (getAnalysisUsage true new_AnalysisUsage)) /\
    PreservesAll (getAnalysisUsage true new_AnalysisUsage) = true.
Proof.
  destruct (runOnFunction Sample.log_all (fun _ => Sample.connected) true
              (fun _ _ => tb_true) Sample.no_core Sample.no_text Sample.no_text
              (mkBmcPass path_bmc None true) Sample.main world0)
    as [[b w']|] eqn:E; [|vm_compute in E; discriminate].
  destruct (declared_analyses_cover_requests
              Sample.log_all (fun _ => Sample.connected) true
              (fun _ _ => tb_true) Sample.no_core Sample.no_text Sample.no_text
              (mkBmcPass path_bmc None true) Sample.main world0 b w'
              new_AnalysisUsage E)
    as (Hall & -> & _ & added & Hev & Hreq).
  exists w'. split; [reflexivity|].
  assert (Hin : In Get_CrabLlvmPass added).
  { vm_compute in E. inversion E; subst w'. cbn in Hev. subst added.
    cbn. tauto. }
  split; [rewrite Hev; apply in_or_app; right; exact Hin|].
  split; [exact (Hreq Get_CrabLlvmPass CrabLlvmPass_ID Hin eq_refl) | exact Hall].
Defined.

(** X6 at the sample [main], with the path-based engine in a build without
    Crab. *)
Lemma engine_follows_the_constructor_argument_witness :
  exists w' added,
    runOnFunction Sample.log_all (fun _ => Sample.connected) false
      (fun _ _ => tb_false) Sample.no_core Sample.no_text Sample.no_text
      (createBmcPass path_bmc None true) Sample.main world0 = Some (false, w') /\
    w_events w' = added /\
    filter is_engine added = [New_PathBasedBmcEngine false] /\
    In Get_TLI added /\ ~ In Get_CrabLlvmPass added.
Proof.
  destruct (engine_follows_the_constructor_argument
              Sample.log_all (fun _ => Sample.connected) false
              (fun _ _ => tb_false) Sample.no_core Sample.no_text Sample.no_text
              path_bmc None true Sample.main world0 _ _
              (Sample.cut_point Sample.block1) eq_refl eq_refl eq_refl)
    as (w' & added & Hrun & Hev & Heng & Htli & Hcrab).
  exists w', added. split; [exact Hrun|]. split; [exact Hev|].
  split; [exact Heng|]. split; [apply Htli; reflexivity|].
  intros Hin. apply Hcrab in Hin. destruct Hin as [_ Hc]. discriminate Hc.
Defined.

(** X7 at a module whose [main] is only declared. *)
Lemma runOnModule_fails_on_a_main_without_body_witness :
  runOnModule Sample.log_all (fun _ => Sample.connected) false
    (fun _ _ => tb_true) Sample.no_core Sample.no_text Sample.no_text
    BmcPass_default [Sample.other; Cases.bodyless_main] world0 = None.
Proof.
  apply (proj2 (runOnModule_fails_on_a_main_without_body
                  Sample.log_all (fun _ => Sample.connected) false
                  (fun _ _ => tb_true) Sample.no_core Sample.no_text Sample.no_text
                  BmcPass_default [Sample.other; Cases.bodyless_main] world0)).
  exists Cases.bodyless_main. split; reflexivity.
Defined.

(** X8 at the sample [main], for the pass with its defaults and a solver
    that answers unknown. *)
Lemma solver_call_is_timed_witness :
  exists w' added,
    runOnFunction Sample.log_all (fun _ => Sample.connected) false
      (fun _ _ => tb_indeterminate) Sample.no_core Sample.no_text Sample.no_text
      BmcPass_default Sample.main world0 = Some (false, w') /\
    w_events w' = added /\
    filter is_timed added = [Stats_resume "BMC"; Bmc_solve; Stats_stop "BMC"].
Proof.
  destruct (runOnFunction Sample.log_all (fun _ => Sample.connected) false
              (fun _ _ => tb_indeterminate) Sample.no_core Sample.no_text
              Sample.no_text BmcPass_default Sample.main world0)
    as [[b w']|] eqn:E; [|vm_compute in E; discriminate].
  destruct (solver_call_is_timed
              Sample.log_all (fun _ => Sample.connected) false
              (fun _ _ => tb_indeterminate) Sample.no_core Sample.no_text
              Sample.no_text BmcPass_default Sample.main world0 b w' E)
    as (added & Hev & [Hnone | Hall] & _).
  - exfalso. vm_compute in E. inversion E; subst. cbn in Hev. subst added.
    discriminate Hnone.
  - assert (b = false) by (vm_compute in E; now inversion E). subst b.
    exists w', added. split; [reflexivity|]. split; [exact Hev | exact Hall].
Defined.

(** X9 at the sample [main], with a sink and solving enabled. *)
Lemma encoding_is_dumped_to_the_sink_witness :
  exists w' pre post,
    runOnFunction Sample.log_all (fun _ => Sample.connected) false
      (fun _ _ => tb_true) Sample.no_core Sample.no_text Sample.no_text
      (createBmcPass mono_bmc (Some 7%N) true) Sample.main world0
      = Some (false, w') /\
    w_events w' = pre ++ [Bmc_encode; Bmc_toSmtLib 7%N] ++ post /\
    filter is_toSmtLib pre = [] /\ filter is_toSmtLib post = [] /\
    filter is_solve pre = [].
Proof.
  destruct (encoding_is_dumped_to_the_sink
              Sample.log_all (fun _ => Sample.connected) false
              (fun _ _ => tb_true) Sample.no_core Sample.no_text Sample.no_text
              (createBmcPass mono_bmc (Some 7%N) true) Sample.main world0 _ _
              (Sample.cut_point Sample.block1) eq_refl eq_refl eq_refl)
    as (w' & pre & post & Hrun & Hev & Hpre & Hpost & Hsolve & _).
  exists w', pre, post. repeat split; assumption.
Defined.

(** X10 at the sample [main], for a solver that answers unsat. *)
Lemma logging_off_is_silent_witness :
  exists w',
    runOnFunction Sample.log_none (fun _ => Sample.connected) false
      (fun _ _ => tb_false) Sample.no_core Sample.no_text Sample.no_text
      Sample.pass Sample.main world0 = Some (false, w') /\
    w_errs w' = "".
Proof.
  exact (logging_off_is_silent
           Sample.log_none (fun _ => Sample.connected) false
           (fun _ _ => tb_false) Sample.no_core Sample.no_text Sample.no_text
           Sample.pass Sample.main world0 _ _ (Sample.cut_point Sample.block1)
           eq_refl eq_refl eq_refl eq_refl eq_refl).
Defined.

(** X22 at the sample [main] with logging on, for a solver that answers
    unsat with a core of two expressions. *)
Lemma analysable_run_writes_its_log_witness :
  exists w',
    runOnFunction Sample.log_all (fun _ => Sample.connected) false
      (fun _ _ => tb_false) (fun _ => [MPZ 1; TRUE]) Sample.no_text Sample.no_text
      Sample.pass Sample.main world0 = Some (false, w') /\
    w_errs w' =
      ("BMC from: entry to exit" ++ LF ++ "CORE BEGIN" ++ LF
       ++ "1" ++ LF ++ "true" ++ LF ++ "CORE END" ++ LF)%string.
Proof.
  exact (analysable_run_writes_its_log
           Sample.log_all (fun _ => Sample.connected) false
           (fun _ _ => tb_false) (fun _ => [MPZ 1; TRUE]) Sample.no_text
           Sample.no_text Sample.pass Sample.main world0 _ _
           (Sample.cut_point Sample.block1) eq_refl eq_refl eq_refl).
Defined.

(** X11 at the sample [main] with logging on and a solver that answers
    unsat: the core is asked for, the trace is not. *)
Lemma core_and_trace_are_read_for_logging_only_witness :
  exists w' added,
    runOnFunction Sample.log_all (fun _ => Sample.connected) false
      (fun _ _ => tb_false) Sample.no_core Sample.no_text Sample.no_text
      Sample.pass Sample.main world0 = Some (false, w') /\
    w_events w' = added /\
    In Bmc_unsatCore added /\ ~ In Bmc_getTrace added.
Proof.
  destruct (core_and_trace_are_read_for_logging_only
              Sample.log_all (fun _ => Sample.connected) false
              (fun _ _ => tb_false) Sample.no_core Sample.no_text Sample.no_text
              Sample.pass Sample.main world0 _ _ (Sample.cut_point Sample.block1)
              eq_refl eq_refl eq_refl)
    as (w' & added & Hrun & Hev & Hcore & Htrace).
  exists w', added. split; [exact Hrun|]. split; [exact Hev|]. split.
  - apply Hcore. repeat split.
  - intros Hin. apply Htrace in Hin. destruct Hin as (_ & _ & Hres). discriminate Hres.
Defined.

(** X12 at a [main] with two returning blocks of which only the second can
    be reached. *)
Lemma first_returning_cut_point_decides_witness :
  find_return Cases.only_late Cases.two_returns
    = Some (Sample.cut_point Cases.early) /\
  getEdge Cases.only_late (Sample.cut_point Sample.block0)
    (Sample.cut_point Cases.late) = true /\
  runOnFunction Sample.log_all (fun _ => Cases.only_late) false
    (fun _ _ => tb_true) Sample.no_core Sample.no_text Sample.no_text
    Sample.pass Cases.two_returns world0
  = Some (false,
          with_errs world0
            ("WARNING: BmcPass: function 'main' never returns" ++ LF)).
Proof.
  destruct (first_returning_cut_point_decides
              Sample.log_all (fun _ => Cases.only_late) false
              (fun _ _ => tb_true) Sample.no_core Sample.no_text Sample.no_text
              Sample.pass Cases.two_returns world0
              Sample.block0 [Cases.early; Cases.late]
              [Sample.block0] Cases.early [Cases.late] eq_refl eq_refl)
    as [Hfind Hskip].
  - repeat constructor.
  - reflexivity.
  - split; [exact Hfind|]. split; [reflexivity|]. apply Hskip. reflexivity.
Defined.

(* ===================================================================== *)
(** ** The harness as a whole: when it is empty, when it fails *)
(* ===================================================================== *)

Lemma scan_trace_nil trace :
  (forall F, ~ recorded trace F) -> scan_trace trace = [].
Proof.
  intros Hnone. destruct (scan_trace trace) as [|[F vs] m] eqn:E; [reflexivity|].
  exfalso. apply (Hnone F).
  assert (Hin : In (F, vs) (scan_trace trace)) by (rewrite E; left; reflexivity).
  apply scan_trace_entries in Hin. destruct Hin as (Ho & -> & Hne).
  split; assumption.
Qed.

(** X13: the harness is the empty module named "harness", and nothing is
    written, exactly when nothing is recorded: no callee that passes the
    filter has a call on the trace whose value can be evaluated. *)
Theorem harness_is_empty_iff_nothing_is_recorded :
  forall (SeaLog : string -> bool) (bucket : Function -> N) (trace : BmcTrace)
         (w : World),
    createLLVMHarness SeaLog bucket trace w
      = Some (mkModule "harness" [] [] 0, w)
    <-> forall F, ~ recorded trace F.
Proof.
  intros SeaLog bucket trace w. split.
  - intros Hrun F [Horig Hobs].
    destruct (createLLVMHarness_facts _ _ _ _ _ _ Hrun) as (_ & _ & _ & Hdecl & _).
    destruct (Hdecl F (observations trace F)) as (f & [] & _).
    apply visited_entry. repeat split; assumption.
  - intros Hnone. unfold createLLVMHarness.
    rewrite (scan_trace_nil trace Hnone). reflexivity.
Qed.

(** X14: one iteration of the second loop fails at the [cast<Function>] of
    line 71 and nowhere else: exactly when the module already holds a
    function that bears the callee's name and has another type. *)
Theorem iteration_fails_only_at_the_cast :
  forall (SeaLog : string -> bool) (H : Module) (CF : Function) (vs : ExprVector)
         (w : World),
    build_harness_function SeaLog H (CF, vs) w = None <->
    exists i f,
      getNamedValue H (F_name CF) = Some i /\
      nth_error (m_functions H) i = Some f /\
      hf_type f <> F_type CF.
Proof.
  intros SeaLog H CF vs w. rewrite build_harness_function_eq.
  unfold getOrInsertFunction.
  destruct (getNamedValue H (F_name CF)) as [i|] eqn:E.
  - unfold getNamedValue in E.
    destruct (find_index_some _ _ _ E) as (f & Hf & _). rewrite Hf.
    destruct (FunctionType_eq_dec (hf_type f) (F_type CF)) as [Hty|Hty].
    + split.
      * destruct (dyn_cast_IntegerType (getReturnType CF)); discriminate.
      * intros (i' & f' & Hi & Hf' & Hne). inversion Hi; subst i'.
        rewrite Hf in Hf'. inversion Hf'; subst f'. contradiction.
    + split; [|reflexivity]. intros _. exists i, f. repeat split; assumption.
  - split.
    + destruct (Function_Create H (F_type CF) ExternalLinkage (F_name CF)) as [H1 HF].
      destruct (dyn_cast_IntegerType (getReturnType CF)); discriminate.
    + intros (i & f & Hi & _). discriminate.
Qed.

(* ===================================================================== *)
(** ** The harness as a whole: what is laid down, entry by entry *)
(* ===================================================================== *)

Lemma update_nth_length {A} (g : A -> A) (l : list A) x r :
  update_nth (length l) g (l ++ x :: r) = l ++ g x :: r.
Proof. induction l as [|y l IH]; simpl; [reflexivity | now rewrite IH]. Qed.

Lemma Function_Create_name H ty l n :
  m_name (fst (Function_Create H ty l n)) = m_name H.
Proof.
  unfold Function_Create.
  destruct (if name_taken _ _ then _ else _) as [n' last']. reflexivity.
Qed.

Lemma add_stub_name H1 HF RT elts : m_name (add_stub H1 HF RT elts) = m_name H1.
Proof.
  unfold add_stub, push_back_block. cbn [m_name].
  rewrite Function_Create_name. reflexivity.
Qed.

(** One entry whose name is not yet in the module: what is appended. *)
Lemma step_layout SeaLog H CF vs w :
  name_taken (m_functions H) (F_name CF) = false ->
  exists H' w',
    build_harness_function SeaLog H (CF, vs) w = Some (H', w') /\
    m_name H' = m_name H /\
    match dyn_cast_IntegerType (getReturnType CF) with
    | None =>
        m_functions H' = m_functions H ++ [declaration_of CF] /\
        m_globals H' = m_globals H
    | Some RT =>
        exists suffix,
          m_functions H' =
            m_functions H ++
            [add_block (stub_block (S (length (m_globals H))) (length (m_globals H))
                          (S (length (m_functions H))) (length vs))
               (declaration_of CF);
             provider_declaration RT suffix] /\
          m_globals H' =
            m_globals H ++ [array_variable RT (stored RT vs); counter_variable]
    end.
Proof.
  intros Hfree.
  assert (Hins : getOrInsertFunction H (F_name CF) (F_type CF)
                 = (mkModule (m_name H) (m_functions H ++ [declaration_of CF])
                      (m_globals H) (m_LastUnique H),
                    IsFunction (length (m_functions H)))).
  { unfold getOrInsertFunction, getNamedValue.
    rewrite (find_index_existsb _ _ Hfree). unfold Function_Create.
    rewrite Hfree. reflexivity. }
  rewrite build_harness_function_eq, Hins.
  destruct (dyn_cast_IntegerType (getReturnType CF)) as [RT|].
  - eexists _, _. split; [reflexivity|].
    split; [now rewrite add_stub_name|].
    match goal with
    | |- context [add_stub ?H1 ?HF RT ?elts] =>
        destruct (add_stub_functions H1 HF RT elts) as [suffix Hfs];
        pose proof (add_stub_globals H1 HF RT elts) as Hgs
    end.
    exists suffix. rewrite Hfs, Hgs. cbn [m_functions m_globals].
    rewrite length_stored, length_app. cbn [length].
    replace (length (m_functions H) + 1)%nat with (S (length (m_functions H))) by lia.
    rewrite <- app_assoc. cbn [app]. rewrite update_nth_length.
    split; reflexivity.
  - eexists _, _. split; [reflexivity|]. cbn [m_name m_functions m_globals].
    repeat split.
Qed.

Lemma names_known_free H done CF :
  names_known H done ->
  (forall CF0 vs0, In (CF0, vs0) done -> F_name CF0 <> F_name CF) ->
  prefix "get_value_" (F_name CF) = false ->
  name_taken (m_functions H) (F_name CF) = false.
Proof.
  intros Hk Hfresh Hpre. apply name_taken_false. intros f Hf Hn.
  destruct (Hk f Hf) as [(CF0 & vs0 & Hin & Hn0) | Hp].
  - apply (Hfresh CF0 vs0 Hin). congruence.
  - rewrite Hn in Hp. congruence.
Qed.

Lemma foldM_build_layout SeaLog (es : ValueMap) : forall H w done,
  names_known H done ->
  NoDup (map (fun kv => F_name (fst kv)) (done ++ es)) ->
  Forall (fun kv => prefix "get_value_" (F_name (fst kv)) = false) es ->
  laid_out done (m_functions H) (m_globals H) ->
  exists H' w',
    foldM (build_harness_function SeaLog) H es w = Some (H', w') /\
    m_name H' = m_name H /\
    laid_out (done ++ es) (m_functions H') (m_globals H').
Proof.
  induction es as [|[CF vs] es IH]; intros H w done Hk Hnd Hpre Hlaid.
  - exists H, w. rewrite List.app_nil_r. repeat split. exact Hlaid.
  - inversion Hpre as [|? ? Hp Hpre']; subst. cbn [fst] in Hp.
    assert (Hfresh : forall CF0 vs0, In (CF0, vs0) done -> F_name CF0 <> F_name CF).
    { intros CF0 vs0 Hin Heq.
      rewrite map_app in Hnd. cbn [map fst] in Hnd.
      apply NoDup_remove_2 in Hnd. apply Hnd. apply in_or_app. left.
      rewrite <- Heq.
      change (F_name CF0)
        with ((fun kv : Function * ExprVector => F_name (fst kv)) (CF0, vs0)).
      apply in_map. exact Hin. }
    destruct (step_succeeds SeaLog H CF vs w done Hk Hfresh Hp) as (H1 & w1 & E & Hk1).
    destruct (step_layout SeaLog H CF vs w (names_known_free H done CF Hk Hfresh Hp))
      as (H1' & w1' & E' & Hname & Hshape).
    rewrite E in E'. inversion E'; subst H1' w1'. clear E'.
    assert (Hlaid1 : laid_out (done ++ [(CF, vs)]) (m_functions H1) (m_globals H1)).
    { destruct (dyn_cast_IntegerType (getReturnType CF)) as [RT|] eqn:HRT.
      - destruct Hshape as (suffix & -> & ->).
        apply laid_out_stub; [assumption | assumption | apply length_stored].
      - destruct Hshape as (-> & ->). apply laid_out_skipped; assumption. }
    destruct (IH H1 w1 (done ++ [(CF, vs)]) Hk1) as (H' & w' & Hrun & Hname' & Hlaid');
      [rewrite <- app_assoc; exact Hnd | exact Hpre' | exact Hlaid1 |].
    exists H', w'. cbn [foldM]. unfold bind. rewrite E.
    split; [exact Hrun|]. split; [congruence|].
    rewrite <- app_assoc in Hlaid'. exact Hlaid'.
Qed.

Lemma visited_names_distinct bucket trace :
  distinct_names trace ->
  NoDup (map (fun kv => F_name (fst kv)) (bucket_order bucket (scan_trace trace))).
Proof.
  intros Hdist. set (es := bucket_order bucket (scan_trace trace)).
  assert (Hnd : NoDup (map fst es)).
  { eapply Permutation_NoDup; [apply Permutation_sym, Permutation_map, bucket_order_perm|].
    apply (scan_trace_well_formed trace). }
  rewrite <- (map_map fst F_name).
  apply NoDup_map_injective; [exact Hnd|].
  intros F G HF HG. apply in_map_iff in HF, HG.
  destruct HF as ([F' vs] & <- & HF), HG as ([G' vs'] & <- & HG). cbn [fst].
  apply Hdist.
  - apply visited_entry in HF. destruct HF as (Ho & -> & Hne). split; assumption.
  - apply visited_entry in HG. destruct HG as (Ho & -> & Hne). split; assumption.
Qed.

Lemma visited_names_not_provider bucket trace :
  no_provider_name trace ->
  Forall (fun kv => prefix "get_value_" (F_name (fst kv)) = false)
         (bucket_order bucket (scan_trace trace)).
Proof.
  intros Hnop. apply Forall_forall. intros [F vs] Hin. cbn [fst]. apply Hnop.
  apply visited_entry in Hin. destruct Hin as (Ho & -> & Hne). split; assumption.
Qed.

Lemma createLLVMHarness_layout SeaLog bucket trace w :
  distinct_names trace -> no_provider_name trace ->
  exists H w',
    createLLVMHarness SeaLog bucket trace w = Some (H, w') /\
    m_name H = "harness" /\
    laid_out (bucket_order bucket (scan_trace trace)) (m_functions H) (m_globals H).
Proof.
  intros Hdist Hnop. unfold createLLVMHarness.
  apply (foldM_build_layout SeaLog _ (mkModule "harness" [] [] 0) w []).
  - intros f [].
  - apply visited_names_distinct. exact Hdist.
  - apply visited_names_not_provider. exact Hnop.
  - constructor.
Qed.

(** X15: when the recorded callees have distinct names, none of them
    starting with "get_value_", the module is named "harness" and holds, for
    the entries of the map in the order they are visited: for a callee that
    does not return an integer its declaration; for a callee that does, its
    definition with the single block of the stub, followed by the declaration
    of a provider of its own, and the two global variables, a constant array
    of as many elements as the callee has values before the counter.  The
    stub refers to them by these positions. *)
Theorem harness_is_laid_out_entry_by_entry :
  forall (SeaLog : string -> bool) (bucket : Function -> N) (trace : BmcTrace)
         (w : World),
  distinct_names trace -> no_provider_name trace ->
  exists H w',
    createLLVMHarness SeaLog bucket trace w = Some (H, w') /\
    m_name H = "harness" /\
    laid_out (bucket_order bucket (scan_trace trace)) (m_functions H) (m_globals H).
Proof. intros. now apply createLLVMHarness_layout. Qed.

Lemma filter_app_length {A} (p : A -> bool) (l l' : list A) :
  length (filter p (l ++ l')) = (length (filter p l) + length (filter p l'))%nat.
Proof. now rewrite filter_app, length_app. Qed.

Lemma laid_out_counts es fs gs :
  laid_out es fs gs ->
  Forall (fun kv => prefix "get_value_" (F_name (fst kv)) = false) es ->
  length fs = (length es + length (filter returns_integer es))%nat /\
  length gs = (2 * length (filter returns_integer es))%nat /\
  length (filter has_body fs) = length (filter returns_integer es) /\
  length (filter (fun f => prefix "get_value_" (hf_name f)) fs)
    = length (filter returns_integer es) /\
  Forall (fun f => (length (hf_blocks f) <= 1)%nat) fs.
Proof.
  induction 1 as [|es fs gs CF vs Hl IH HRT|es fs gs CF vs RT suffix elts Hl IH HRT Hlen];
    intros Hpre.
  - repeat split; constructor.
  - apply Forall_app in Hpre. destruct Hpre as [Hpre Hlast].
    inversion Hlast as [|? ? Hp _]; subst. cbn [fst] in Hp.
    destruct (IH Hpre) as (Hf & Hg & Hb & Hp' & Hone).
    assert (Hint : returns_integer (CF, vs) = false)
      by (unfold returns_integer; cbn [fst]; now rewrite HRT).
    rewrite !filter_app_length, !length_app.
    cbn [filter]. rewrite Hint.
    cbn [has_body declaration_of hf_blocks hf_name]. rewrite Hp. cbn [length].
    repeat split; try lia.
    apply Forall_app. split; [exact Hone|]. repeat constructor.
  - apply Forall_app in Hpre. destruct Hpre as [Hpre Hlast].
    inversion Hlast as [|? ? Hp _]; subst. cbn [fst] in Hp.
    destruct (IH Hpre) as (Hf & Hg & Hb & Hp' & Hone).
    assert (Hint : returns_integer (CF, vs) = true)
      by (unfold returns_integer; cbn [fst]; now rewrite HRT).
    rewrite !filter_app_length, !length_app.
    cbn [filter]. rewrite Hint.
    cbn [has_body declaration_of provider_declaration add_block hf_blocks hf_name app].
    rewrite Hp.
    change (prefix "get_value_" ("get_value_" ++ print_IntegerType RT ++ suffix))
      with true.
    cbn [length].
    repeat split; try lia.
    apply Forall_app. split; [exact Hone|]. repeat constructor.
Qed.

Lemma Permutation_filter_length {A} (p : A -> bool) (l l' : list A) :
  Permutation l l' -> length (filter p l) = length (filter p l').
Proof.
  induction 1 as [|x l l' _ IH|x y l|l l' l'' _ IH1 _ IH2]; simpl.
  - reflexivity.
  - destruct (p x); simpl; now rewrite IH.
  - destruct (p x), (p y); reflexivity.
  - now rewrite IH1.
Qed.

(** X16: under the same conditions the module has one declaration of a
    provider for each recorded callee that returns an integer (one for each
    callee, not one for each width), one function with a body for each of
    them, one function more for each recorded callee, and two global
    variables for each of them that returns an integer; no function has more
    than one block. *)
Theorem one_provider_per_integer_callee :
  forall (SeaLog : string -> bool) (bucket : Function -> N) (trace : BmcTrace)
         (w : World),
  distinct_names trace -> no_provider_name trace ->
  exists H w',
    createLLVMHarness SeaLog bucket trace w = Some (H, w') /\
    let callees := length (scan_trace trace) in
    let integer_callees := length (filter returns_integer (scan_trace trace)) in
    length (filter (fun f => prefix "get_value_" (hf_name f)) (m_functions H))
      = integer_callees /\
    length (filter has_body (m_functions H)) = integer_callees /\
    length (m_functions H) = (callees + integer_callees)%nat /\
    length (m_globals H) = (2 * integer_callees)%nat /\
    Forall (fun f => (length (hf_blocks f) <= 1)%nat) (m_functions H).
Proof.
  intros SeaLog bucket trace w Hdist Hnop.
  destruct (createLLVMHarness_layout SeaLog bucket trace w Hdist Hnop)
    as (H & w' & Hrun & _ & Hlaid).
  exists H, w'. split; [exact Hrun|].
  destruct (laid_out_counts _ _ _ Hlaid (visited_names_not_provider bucket trace Hnop))
    as (Hf & Hg & Hb & Hp & Hone).
  pose proof (bucket_order_perm bucket (scan_trace trace)) as Hperm.
  rewrite (Permutation_filter_length returns_integer _ _ Hperm) in Hf, Hg, Hb, Hp.
  rewrite (Permutation_length Hperm) in Hf.
  cbv zeta. repeat split; assumption.
Qed.

(* ===================================================================== *)
(** ** The harness as a whole: linkage *)
(* ===================================================================== *)

Lemma Forall_update_nth {A} (Q : A -> Prop) (g : A -> A) (l : list A) : forall n,
  Forall Q l -> (forall x, Q x -> Q (g x)) -> Forall Q (update_nth n g l).
Proof.
  induction l as [|y l IH]; intros [|n] Hall Hg; simpl; try exact Hall;
    inversion Hall; subst; constructor; auto.
Qed.

Lemma step_linkage SeaLog H CF vs w H' w' :
  build_harness_function SeaLog H (CF, vs) w = Some (H', w') ->
  m_name H' = m_name H /\
  (Forall (fun f => hf_linkage f = ExternalLinkage) (m_functions H) ->
   Forall (fun f => hf_linkage f = ExternalLinkage) (m_functions H')).
Proof.
  rewrite build_harness_function_eq.
  destruct (getOrInsertFunction H (F_name CF) (F_type CF)) as [H1 [HF|HF]] eqn:E;
    [|discriminate].
  assert (H1ok : m_name H1 = m_name H /\
                 (Forall (fun f => hf_linkage f = ExternalLinkage) (m_functions H) ->
                  Forall (fun f => hf_linkage f = ExternalLinkage) (m_functions H1))).
  { destruct (getOrInsertFunction_function _ _ _ _ _ E)
      as [_ [[-> _] | (Hfree & _ & Hfs)]]; [split; [reflexivity | auto]|].
    split.
    - unfold getOrInsertFunction, getNamedValue in E.
      rewrite (find_index_existsb _ _ Hfree) in E.
      pose proof (Function_Create_name H (F_type CF) ExternalLinkage (F_name CF)) as Hn.
      destruct (Function_Create H (F_type CF) ExternalLinkage (F_name CF)) as [H0 f0].
      inversion E; subst. exact Hn.
    - intros Hall. rewrite Hfs. apply Forall_app. split; [exact Hall|].
      repeat constructor. }
  destruct H1ok as [Hname Hlink].
  destruct (dyn_cast_IntegerType (getReturnType CF)) as [RT|];
    intros Heq; inversion Heq; subst; clear Heq.
  - split; [now rewrite add_stub_name|]. intros Hall.
    destruct (add_stub_functions H1 HF RT (stored RT vs)) as [suffix ->].
    apply Forall_update_nth.
    + apply Forall_app. split; [apply Hlink; exact Hall | repeat constructor].
    + intros x Hx. exact Hx.
  - split; assumption.
Qed.

Lemma foldM_build_linkage SeaLog (es : ValueMap) : forall H w H' w',
  foldM (build_harness_function SeaLog) H es w = Some (H', w') ->
  Forall (fun f => hf_linkage f = ExternalLinkage) (m_functions H) ->
  m_name H' = m_name H /\
  Forall (fun f => hf_linkage f = ExternalLinkage) (m_functions H').
Proof.
  induction es as [|[CF vs] es IH]; intros H w H' w' Hrun Hall.
  - inversion Hrun; subst. split; [reflexivity | exact Hall].
  - cbn [foldM] in Hrun. unfold bind in Hrun.
    destruct (build_harness_function SeaLog H (CF, vs) w) as [[H1 w1]|] eqn:E;
      [|discriminate].
    destruct (step_linkage _ _ _ _ _ _ _ E) as [Hname Hlink].
    destruct (IH H1 w1 H' w' Hrun (Hlink Hall)) as [Hname' Hall'].
    split; [congruence | exact Hall'].
Qed.

Lemma stub_block_injective c a p n c' a' p' n' :
  stub_block c a p n = stub_block c' a' p' n' -> c = c' /\ a = a' /\ p = p'.
Proof. unfold stub_block. intros Heq. inversion Heq. repeat split. Qed.

(** The global variables of the finished module: arrays and counters. *)
Lemma createLLVMHarness_globals SeaLog bucket trace w H w' i g :
  createLLVMHarness SeaLog bucket trace w = Some (H, w') ->
  nth_error (m_globals H) i = Some g ->
  g = counter_variable \/
  exists CF vs RT,
    In (CF, vs) (scan_trace trace) /\
    dyn_cast_IntegerType (getReturnType CF) = Some RT /\
    g = array_variable RT (stored RT vs).
Proof.
  intros Hrun Hi.
  destruct (createLLVMHarness_facts _ _ _ _ _ _ Hrun) as (_ & Hknown & _ & _ & Hglob).
  destruct (Hglob i g Hi) as (f & B & c & a & p & n & Hf & HB & HBeq & Hia).
  destruct (Hknown f B Hf HB)
    as (CF & vs & RT & Hin & HRT & _ & c' & a' & p' & pf & sfx & HBeq' & Ha & Hc & _).
  rewrite HBeq in HBeq'. apply stub_block_injective in HBeq'.
  destruct HBeq' as (-> & -> & _).
  destruct Hia as [-> | ->].
  - right. exists CF, vs, RT.
    split; [eapply Permutation_in; [apply bucket_order_perm | exact Hin]|].
    split; [exact HRT|]. congruence.
  - left. congruence.
Qed.

(** X17: in the finished module, named "harness", every function has
    external linkage and every global variable private linkage; a global
    variable that is not constant is a 32-bit counter that starts at zero,
    and a constant one is an array of integers with its initializer. *)
Theorem harness_exports_functions_and_hides_variables :
  forall (SeaLog : string -> bool) (bucket : Function -> N) (trace : BmcTrace)
         (w : World) (H : Module) (w' : World),
  createLLVMHarness SeaLog bucket trace w = Some (H, w') ->
  m_name H = "harness" /\
  (forall f, In f (m_functions H) -> hf_linkage f = ExternalLinkage) /\
  (forall g, In g (m_globals H) ->
     gv_linkage g = PrivateLinkage /\
     (gv_isConstant g = false ->
      g = mkGlobalVariable (IntegerTy 32) false PrivateLinkage
            (CInt (mkConstantInt 32 0))) /\
     (gv_isConstant g = true ->
      exists RT elts,
        g = mkGlobalVariable (ArrayTy (IntegerTy RT) (length elts)) true
              PrivateLinkage
              (ConstantArray (ArrayTy (IntegerTy RT) (length elts)) elts))).
Proof.
  intros SeaLog bucket trace w H w' Hrun.
  pose proof Hrun as Hrun'. unfold createLLVMHarness in Hrun'.
  destruct (foldM_build_linkage SeaLog _ _ w H w' Hrun') as [Hname Hall];
    [constructor|].
  split; [exact Hname|]. split; [apply Forall_forall; exact Hall|].
  intros g Hg. destruct (In_nth_error _ _ Hg) as [i Hi].
  destruct (createLLVMHarness_globals _ _ _ _ _ _ _ _ Hrun Hi)
    as [-> | (CF & vs & RT & _ & _ & ->)].
  - split; [reflexivity|]. split; [reflexivity | discriminate].
  - split; [reflexivity|]. split; [discriminate|]. intros _.
    exists RT, (stored RT vs). reflexivity.
Qed.

(* ===================================================================== *)
(** ** The constants of the arrays *)
(* ===================================================================== *)

(** X18: the constant [exprToLlvm] returns lies within the range of its own
    width, and its width is the one asked for exactly when that width is 1
    or the value is not a boolean. *)
Theorem exprToLlvm_constant_is_in_range :
  forall (SeaLog : string -> bool) (ty : positive) (e : Expr) (w : World)
         (c : ConstantInt) (w' : World),
  exprToLlvm SeaLog ty e w = Some (c, w') ->
  0 <= CI_value c < 2 ^ Z.pos (CI_bits c) /\
  (CI_bits c = ty <-> ty = 1%positive \/ is_boolean e = false).
Proof.
  intros SeaLog ty e w c w'. rewrite exprToLlvm_eq. intros Heq.
  inversion Heq; subst; clear Heq.
  destruct e as [| |z|s]; cbn [converted CI_value CI_bits is_boolean].
  - split; [split; [lia | reflexivity]|].
    split; [intros <-; left; reflexivity | intros [-> | Hf]; [reflexivity | discriminate]].
  - split; [split; [lia | reflexivity]|].
    split; [intros <-; left; reflexivity | intros [-> | Hf]; [reflexivity | discriminate]].
  - split; [apply Z.mod_pos_bound; apply Z.pow_pos_nonneg; lia|].
    split; [intros _; right; reflexivity | reflexivity].
  - split; [split; [lia | apply Z.pow_pos_nonneg; lia]|].
    split; [intros _; right; reflexivity | reflexivity].
Qed.

(* ===================================================================== *)
(** ** What the generation of the harness writes *)
(* ===================================================================== *)

Lemma concat_strings_empty (l : list string) :
  Forall (fun s => s = "") l -> concat_strings l = "".
Proof. induction 1 as [|s l -> _ IH]; simpl; [reflexivity | exact IH]. Qed.

(** X19: [createLLVMHarness] writes nothing to [outs ()] and calls no
    collaborator.  When every recorded callee returns an integer, and either
    logging is off for "cex" or every observed value is a boolean or an
    integer literal, it writes nothing to [errs ()] either. *)
Theorem harness_generation_is_quiet :
  forall (SeaLog : string -> bool) (bucket : Function -> N) (trace : BmcTrace)
         (w : World) (H : Module) (w' : World),
  createLLVMHarness SeaLog bucket trace w = Some (H, w') ->
  w_outs w' = w_outs w /\ w_events w' = w_events w /\
  ((forall F, recorded trace F ->
      exists RT, dyn_cast_IntegerType (getReturnType F) = Some RT) ->
   (SeaLog "cex" = false \/
    forall F e, recorded trace F -> In e (observations trace F) -> handled e = true) ->
   w' = w).
Proof.
  intros SeaLog bucket trace w H w' Hrun.
  destruct (createLLVMHarness_facts _ _ _ _ _ _ Hrun) as (-> & _).
  split; [reflexivity|]. split; [reflexivity|].
  intros Hint Hquiet.
  rewrite concat_strings_empty; [apply with_errs_empty|].
  apply Forall_forall. intros s Hs. apply in_map_iff in Hs.
  destruct Hs as ([F vs] & <- & Hin).
  apply visited_entry in Hin. destruct Hin as (Ho & -> & Hne).
  assert (Hrec : recorded trace F) by (split; assumption).
  destruct (Hint F Hrec) as [RT HRT].
  unfold entry_diag. cbn [fst snd]. rewrite HRT.
  apply concat_strings_empty. apply Forall_forall. intros s Hs.
  apply in_map_iff in Hs. destruct Hs as (e & <- & He).
  destruct e as [| |z|s']; try reflexivity. cbn [not_handled].
  destruct Hquiet as [-> | Hall]; [reflexivity|].
  specialize (Hall F (OtherExpr s') Hrec He). discriminate.
Qed.

(* ===================================================================== *)
(** ** The stubs at run time: what they write, what they return *)
(* ===================================================================== *)

Lemma invoke_times_stub_calls (get_value : Oracle) c a p n st0 v0 :
  mach_mem st0 c = Some (CInt (ConstantInt_get 32 v0)) ->
  forall k : N,
  exists st new,
    invoke_times get_value (stub_block c a p n) k st0 = Some st /\
    mach_calls st = mach_calls st0 ++ new /\
    N.of_nat (length new) = k /\
    Forall (fun cr => fst cr = p) new /\
    mach_mem st c = Some (CInt (ConstantInt_get 32 (v0 + Z.of_N k))) /\
    forall g, g <> c -> mach_mem st g = mach_mem st0 g.
Proof.
  intros H0 k. unfold invoke_times. induction k as [|k IH] using N.peano_ind.
  - exists st0, []. split; [reflexivity|]. split; [now rewrite List.app_nil_r|].
    split; [reflexivity|]. split; [constructor|].
    split; [now rewrite Z.add_0_r | reflexivity].
  - destruct IH as (st & new & Hrun & Hcalls & Hlen & Hall & Hmem & Hframe).
    rewrite N.iter_succ, Hrun. cbn [invoke_again].
    rewrite (invoke_stub get_value c a p n st _ Hmem). cbv zeta. cbn [option_map snd].
    eexists. eexists (new ++ [_]). split; [reflexivity|]. cbn [mach_mem mach_calls].
    split; [rewrite Hcalls, <- app_assoc; reflexivity|].
    split; [rewrite length_app; cbn [length]; lia|].
    split; [apply Forall_app; split; [exact Hall | repeat constructor]|].
    split.
    + rewrite store_same. rewrite N2Z.inj_succ. do 3 f_equal. lia.
    + intros g Hg. rewrite store_other by exact Hg. apply Hframe. exact Hg.
Qed.

(** A history of invocations writes the counters it uses and nothing else,
    and makes one call for each invocation. *)
Lemma invoke_runs_frame (get_value : Oracle) (H : Module)
  (runs : list (HBlock * N)) : forall st (base : nat -> Z),
  (forall f B, In f (m_functions H) -> In B (hf_blocks f) ->
     exists c a p n, B = stub_block c a p n) ->
  (forall c, is_counter H c ->
     mach_mem st c = Some (CInt (ConstantInt_get 32 (base c)))) ->
  (forall B k, In (B, k) runs -> is_block H B) ->
  exists st' new,
    invoke_runs get_value runs st = Some st' /\
    (forall c, is_counter H c ->
       mach_mem st' c
       = Some (CInt (ConstantInt_get 32 (base c + Z.of_N (invocations c runs))))) /\
    (forall g, ~ is_counter H g -> mach_mem st' g = mach_mem st g) /\
    mach_calls st' = mach_calls st ++ new /\
    N.of_nat (length new) = total_invocations runs.
Proof.
  induction runs as [|[B k] runs IH]; intros st base Hshape Hmem Hruns.
  - exists st, []. split; [reflexivity|]. split.
    + intros c Hc. cbn [invocations]. rewrite Z.add_0_r. apply Hmem. exact Hc.
    + split; [reflexivity|]. split; [now rewrite List.app_nil_r | reflexivity].
  - assert (HB : is_block H B) by (apply (Hruns B k); left; reflexivity).
    pose proof HB as (f & Hf & HBf).
    destruct (Hshape f B Hf HBf) as (c0 & a & p & n & ->).
    assert (Hc0 : is_counter H c0) by (exists a, p, n; exact HB).
    destruct (invoke_times_stub_calls get_value c0 a p n st (base c0) (Hmem c0 Hc0) k)
      as (st1 & new1 & Hrun1 & Hcalls1 & Hlen1 & _ & Hmem1 & Hframe1).
    destruct (IH st1 (fun c => if Nat.eqb c0 c then base c + Z.of_N k else base c)
                Hshape) as (st' & new & Hrun' & Hmem' & Hframe' & Hcalls' & Hlen').
    + intros c Hc. destruct (Nat.eqb_spec c0 c) as [<-|Hne]; [exact Hmem1|].
      rewrite Hframe1 by congruence. apply Hmem. exact Hc.
    + intros B' k' Hin. apply (Hruns B' k'). right. exact Hin.
    + exists st', (new1 ++ new). cbn [invoke_runs]. rewrite Hrun1.
      split; [exact Hrun'|]. split; [|split; [|split]].
      * intros c Hc. rewrite (Hmem' c Hc). cbn [invocations uses_counter stub_block].
        destruct (Nat.eqb c0 c); do 3 f_equal; rewrite ?N2Z.inj_add; lia.
      * intros g Hg. rewrite (Hframe' g Hg). apply Hframe1.
        intros ->. apply Hg. exact Hc0.
      * rewrite Hcalls', Hcalls1, app_assoc. reflexivity.
      * rewrite length_app. cbn [total_invocations fold_right snd].
        fold (total_invocations runs). lia.
Qed.

(** The blocks and the counters of the finished module. *)
Lemma createLLVMHarness_stubs SeaLog bucket trace w H w' :
  createLLVMHarness SeaLog bucket trace w = Some (H, w') ->
  (forall f B, In f (m_functions H) -> In B (hf_blocks f) ->
     exists c a p n, B = stub_block c a p n) /\
  (forall c, is_counter H c -> nth_error (m_globals H) c = Some counter_variable).
Proof.
  intros Hrun.
  destruct (createLLVMHarness_facts _ _ _ _ _ _ Hrun) as (_ & Hknown & _).
  split.
  - intros f B Hf HB.
    destruct (Hknown f B Hf HB)
      as (_ & vs0 & _ & _ & _ & _ & c0 & a0 & p0 & _ & _ & -> & _).
    eexists _, _, _, _. reflexivity.
  - intros c (a & p & n & f & Hf & HB).
    destruct (Hknown f _ Hf HB)
      as (_ & vs1 & _ & _ & _ & _ & c2 & a2 & p2 & _ & _ & Heq & _ & Hc2 & _).
    apply stub_block_injective in Heq. destruct Heq as (-> & _). exact Hc2.
Qed.

Lemma createLLVMHarness_runs SeaLog bucket trace w H w' (get_value : Oracle)
  (runs : list (HBlock * N)) :
  createLLVMHarness SeaLog bucket trace w = Some (H, w') ->
  (forall B k, In (B, k) runs -> is_block H B) ->
  exists st,
    invoke_runs get_value runs (mkMachine (initial_memory H) []) = Some st /\
    (forall c, is_counter H c ->
       mach_mem st c
       = Some (CInt (ConstantInt_get 32 (Z.of_N (invocations c runs))))) /\
    (forall a g, nth_error (m_globals H) a = Some g -> gv_isConstant g = true ->
       mach_mem st a = Some (gv_init g)) /\
    N.of_nat (length (mach_calls st)) = total_invocations runs.
Proof.
  intros Hrun Hruns.
  destruct (createLLVMHarness_stubs _ _ _ _ _ _ Hrun) as [Hshape Hcounters].
  destruct (invoke_runs_frame get_value H runs (mkMachine (initial_memory H) [])
              (fun _ => 0) Hshape)
    as (st & new & Hst & Hmem & Hframe & Hcalls & Hlen).
  - intros c Hc. cbn [mach_mem]. apply initial_memory_counter. apply Hcounters. exact Hc.
  - exact Hruns.
  - exists st. split; [exact Hst|]. split; [|split].
    + intros c Hc. rewrite (Hmem c Hc). now rewrite Z.add_0_l.
    + intros a g Ha Hconst. rewrite Hframe.
      * cbn [mach_mem]. unfold initial_memory. rewrite Ha. reflexivity.
      * intros Hc. apply Hcounters in Hc. rewrite Ha in Hc.
        inversion Hc; subst g. discriminate.
    + rewrite Hcalls. cbn [mach_calls app]. exact Hlen.
Qed.

(** X20: the stubs write their counters and nothing else.  After any
    history of invocations of stubs of the module, started from the initial
    store, every constant global variable (every array) still holds its
    initializer, and the providers were called once for each invocation. *)
Theorem stubs_write_only_their_counters :
  forall (SeaLog : string -> bool) (bucket : Function -> N) (trace : BmcTrace)
         (w : World) (H : Module) (w' : World)
         (get_value : Oracle) (runs : list (HBlock * N)),
  createLLVMHarness SeaLog bucket trace w = Some (H, w') ->
  (forall B k, In (B, k) runs ->
     exists f, In f (m_functions H) /\ In B (hf_blocks f)) ->
  exists st,
    invoke_runs get_value runs (mkMachine (initial_memory H) []) = Some st /\
    (forall a g, nth_error (m_globals H) a = Some g -> gv_isConstant g = true ->
       mach_mem st a = Some (gv_init g)) /\
    N.of_nat (length (mach_calls st)) = total_invocations runs.
Proof.
  intros SeaLog bucket trace w H w' get_value runs Hrun Hruns.
  destruct (createLLVMHarness_runs _ _ _ _ _ _ get_value runs Hrun Hruns)
    as (st & Hst & _ & Hconst & Hlen).
  exists st. repeat split; assumption.
Qed.


(* ===================================================================== *)
(** ** The statements about the harness as a whole, at the samples *)
(* ===================================================================== *)

Lemma Sample_trace_recorded F :
  recorded Sample.trace F -> F = Sample.f \/ F = Sample.g.
Proof.
  intros [Horig Hobs].
  assert (Hin : In (F, observations Sample.trace F) (scan_trace Sample.trace))
    by (apply scan_trace_entries; repeat split; assumption).
  assert (Hscan : scan_trace Sample.trace
                  = [(Sample.f, [MPZ 42; MPZ (-1); OtherExpr "x"]);
                     (Sample.g, [TRUE])]) by (vm_compute; reflexivity).
  rewrite Hscan in Hin.
  destruct Hin as [Heq | [Heq | []]]; inversion Heq; auto.
Qed.

Lemma Sample_trace_distinct_names : distinct_names Sample.trace.
Proof.
  intros F G HF HG. apply Sample_trace_recorded in HF, HG.
  destruct HF as [-> | ->], HG as [-> | ->]; intros Hn;
    first [reflexivity | discriminate Hn].
Qed.

Lemma Sample_trace_no_provider_name : no_provider_name Sample.trace.
Proof.
  intros F HF. apply Sample_trace_recorded in HF. destruct HF as [-> | ->]; reflexivity.
Qed.


(** X13 at a trace without steps. *)
Lemma harness_is_empty_iff_nothing_is_recorded_witness :
  createLLVMHarness Sample.log_all Sample.by_address Cases.empty_trace world0
  = Some (mkModule "harness" [] [] 0, world0).
Proof.
  apply (proj2 (harness_is_empty_iff_nothing_is_recorded
                  Sample.log_all Sample.by_address Cases.empty_trace world0)).
  intros F [_ Hobs]. apply Hobs. reflexivity.
Defined.

(** X14 at the module built for one call to [f], which holds the provider
    "get_value_i32", and a callee of that name and another type. *)
Lemma iteration_fails_only_at_the_cast_witness :
  build_harness_function Sample.log_none StubSample.harness
    (Cases.clashing, [MPZ 1]) world0 = None.
Proof.
  apply (proj2 (iteration_fails_only_at_the_cast
                  Sample.log_none StubSample.harness Cases.clashing [MPZ 1] world0)).
  exists 1%nat, (mkHFunction "get_value_i32" (provider_type 32) ExternalLinkage []).
  split; [reflexivity|]. split; [reflexivity | discriminate].
Defined.

(** X15 at the sample trace. *)
Lemma harness_is_laid_out_entry_by_entry_witness :
  exists H w',
    createLLVMHarness Sample.log_none Sample.by_address Sample.trace world0
      = Some (H, w') /\
    m_name H = "harness" /\
    laid_out (bucket_order Sample.by_address (scan_trace Sample.trace))
      (m_functions H) (m_globals H).
Proof.
  exact (harness_is_laid_out_entry_by_entry
           Sample.log_none Sample.by_address Sample.trace world0
           Sample_trace_distinct_names Sample_trace_no_provider_name).
Defined.

(** X16 at the sample trace, whose recorded callees [f] and [g] both
    return 32 bits: two providers, four functions, four global variables. *)
Lemma one_provider_per_integer_callee_witness :
  exists H w',
    createLLVMHarness Sample.log_none Sample.by_address Sample.trace world0
      = Some (H, w') /\
    length (filter (fun f => prefix "get_value_" (hf_name f)) (m_functions H))
      = 2%nat /\
    length (m_functions H) = 4%nat /\
    length (m_globals H) = 4%nat.
Proof.
  destruct (one_provider_per_integer_callee
              Sample.log_none Sample.by_address Sample.trace world0
              Sample_trace_distinct_names Sample_trace_no_provider_name)
    as (H & w' & Hrun & Hp & _ & Hf & Hg & _).
  exists H, w'. split; [exact Hrun|].
  assert (Hscan : scan_trace Sample.trace
                  = [(Sample.f, [MPZ 42; MPZ (-1); OtherExpr "x"]);
                     (Sample.g, [TRUE])]) by (vm_compute; reflexivity).
  rewrite Hscan in Hp, Hf, Hg.
  split; [exact Hp|]. split; [exact Hf | exact Hg].
Defined.

(** X17 at the sample trace. *)
Lemma harness_exports_functions_and_hides_variables_witness :
  exists H w',
    createLLVMHarness Sample.log_none Sample.by_address Sample.trace world0
      = Some (H, w') /\
    m_name H = "harness" /\
    (forall f, In f (m_functions H) -> hf_linkage f = ExternalLinkage) /\
    (forall g, In g (m_globals H) -> gv_linkage g = PrivateLinkage).
Proof.
  destruct (createLLVMHarness Sample.log_none Sample.by_address Sample.trace world0)
    as [[H w']|] eqn:E; [|vm_compute in E; discriminate].
  destruct (harness_exports_functions_and_hides_variables _ _ _ _ _ _ E)
    as (Hname & Hfs & Hgs).
  exists H, w'. split; [reflexivity|]. split; [exact Hname|]. split; [exact Hfs|].
  intros g Hg. apply Hgs. exact Hg.
Defined.

(** X18 at the literal -1 on 32 bits. *)
Lemma exprToLlvm_constant_is_in_range_witness :
  exists c w',
    exprToLlvm Sample.log_none 32 (MPZ (-1)) world0 = Some (c, w') /\
    0 <= CI_value c < 2 ^ Z.pos (CI_bits c) /\
    CI_bits c = 32%positive.
Proof.
  destruct (exprToLlvm Sample.log_none 32 (MPZ (-1)) world0)
    as [[c w']|] eqn:E; [|vm_compute in E; discriminate].
  destruct (exprToLlvm_constant_is_in_range _ _ _ _ _ _ E) as [Hrange Hbits].
  exists c, w'. split; [reflexivity|]. split; [exact Hrange|].
  apply Hbits. right. reflexivity.
Defined.

(** X19 at the sample trace with logging off. *)
Lemma harness_generation_is_quiet_witness :
  exists H,
    createLLVMHarness Sample.log_none Sample.by_address Sample.trace world0
      = Some (H, world0).
Proof.
  destruct (createLLVMHarness Sample.log_none Sample.by_address Sample.trace world0)
    as [[H w']|] eqn:E; [|vm_compute in E; discriminate].
  destruct (harness_generation_is_quiet _ _ _ _ _ _ E) as (_ & _ & Hquiet).
  exists H. rewrite (Hquiet).
  - reflexivity.
  - intros F HF. apply Sample_trace_recorded in HF.
    destruct HF as [-> | ->]; exists 32%positive; reflexivity.
  - left. reflexivity.
Defined.

(** X20 at the stub of [f], invoked three times. *)
Lemma stubs_write_only_their_counters_witness :
  exists st,
    invoke_runs StubSample.zero [(stub_block 1 0 1 1, 3%N)]
      (mkMachine (initial_memory StubSample.harness) []) = Some st /\
    mach_mem st 0%nat
      = Some (ConstantArray (ArrayTy (IntegerTy 32) 1) [mkConstantInt 32 7]) /\
    N.of_nat (length (mach_calls st)) = 3%N.
Proof.
  destruct (stubs_write_only_their_counters
              Sample.log_none Sample.by_address
              (Sample.one_call Sample.f (Some (MPZ 7))) world0
              StubSample.harness world0 StubSample.zero
              [(stub_block 1 0 1 1, 3%N)] StubSample_harness_built)
    as (st & Hst & Hconst & Hcalls).
  - intros B k [Heq | []]. inversion Heq; subst.
    exists StubSample.stub. split; left; reflexivity.
  - exists st. split; [exact Hst|]. split; [|exact Hcalls].
    exact (Hconst 0%nat (array_variable 32 [mkConstantInt 32 7]) eq_refl eq_refl).
Defined.

